(** * F1 Dashboard replay page: a shallow embedding of the replay engine

  The replay page ([ReplayPage]) keeps a playback clock (frame index,
  play flag, speed, sub-frame progress), draws interpolated driver
  positions, schedules team-radio clips and derives a live timing board
  from per-lap tables.  This file embeds those computations as Rocq
  functions and proves (or refutes) the properties stated for them.

  Conventions of the embedding.
  - A JavaScript [number] holding a measurement (time, coordinate, speed
    multiplier) is an exact rational [Q]; integer-valued fields (frame
    index, lap, running position, DRS code) are [Z].  Rounding of IEEE
    doubles is modelled where a rounded result is turned into an integer,
    that is in the progress bar's click handler, which floors a computed
    fraction into a frame index ([Binary64]); elsewhere the arithmetic is
    exact.  The only non-finite results that matter, those of a division
    by zero or of an overflow, are kept explicit in [jsnum].
  - A React state cell is a field of a state record; a handler is a
    function from state to state; the functional updaters
    [setX(prev => ...)] are applied to the current value of the cell.
  - A JavaScript object used as a dictionary whose enumeration order is
    observable ([Object.keys], [Object.entries], [Object.values]) is an
    association list in enumeration order; a dictionary that is only
    looked up is a [gmap]; the [Set<number>] of played clips is a
    [gset nat]. *)

From Stdlib Require Import ZArith QArith Qabs Qround Qminmax Qpower Lia Lqa.
From Stdlib Require Import Sorted.
From stdpp Require Import base gmap sets list strings.

#[local] Open Scope Z_scope.
#[local] Open Scope Q_scope.

(** ** JavaScript numbers *)

(** Result of an arithmetic expression that may divide by zero. *)
Inductive jsnum : Type :=
  | Finite (q : Q)
  | PlusInfinity
  | MinusInfinity
  | NaN.

(** [a / b] on finite operands: [0 / 0] is [NaN], [a / 0] is an infinity
  of the sign of [a]. *)
Definition js_div (a b : Q) : jsnum :=
  if Qeq_bool b 0 then
    if Qeq_bool a 0 then NaN
    else if Qle_bool 0 a then PlusInfinity
    else MinusInfinity
  else Finite (a / b).

(** [v * c] for a finite, positive constant [c]. *)
Definition js_scale (v : jsnum) (c : Q) : jsnum :=
  match v with
  | Finite q => Finite (q * c)
  | other => other
  end.

Definition is_finite (v : jsnum) : bool :=
  match v with Finite _ => true | _ => false end.

(** Truthiness of a number: every number but zero (and [NaN], which a
  rational never is). *)
Definition truthy (q : Q) : bool := negb (Qeq_bool q 0).

Definition Qltb (a b : Q) : bool := negb (Qle_bool b a).

(** ** Rounding to IEEE 754 binary64

  A JavaScript [number] is a binary64 float: 53 significant bits, the
  spacing [2^-1074] below [2^-1022], results of [2^1024] and above
  overflowing to an infinity.  Every arithmetic operation returns the
  exact result rounded to the nearest such number, ties going to the
  one with an even significand.  The sign of a zero is not kept. *)

Module Binary64.
(** The binary exponent [floor(log2 |q|)] of a number that is not zero. *)
Definition exponent (q : Q) : Z :=
  let e := (Z.log2 (Z.abs (Qnum q)) - Z.log2 (Zpos (Qden q)))%Z in
  if Qle_bool (2 ^ e) (Qabs q) then e else (e - 1)%Z.

(** Rounding to the nearest integer, ties to the even one. *)
Definition nearestEven (q : Q) : Z :=
  let f := Qfloor q in
  match Qcompare (q - inject_Z f) (1 # 2) with
  | Lt => f
  | Gt => (f + 1)%Z
  | Eq => if Z.even f then f else (f + 1)%Z
  end.

(** The exponent of the unit in the last place of the doubles around
    [q]. *)
Definition ulpExponent (q : Q) : Z := Z.max (exponent q - 52) (-1074).

(** The multiple of the unit in the last place nearest to [q]. *)
Definition nearest (q : Q) : Q :=
  inject_Z (nearestEven (q / 2 ^ ulpExponent q)) * 2 ^ ulpExponent q.

(** A positive magnitude rounded; [None] is the overflow. *)
Definition roundMagnitude (q : Q) : option Q :=
  if Qle_bool (2 ^ 1024) (nearest q) then None else Some (nearest q).

(** The double nearest to [q]. *)
Definition round (q : Q) : jsnum :=
  if Qeq_bool q 0 then Finite 0
  else if Qle_bool 0 q then
    match roundMagnitude q with
    | Some r => Finite r
    | None => PlusInfinity
    end
  else
    match roundMagnitude (- q) with
    | Some r => Finite (- r)
    | None => MinusInfinity
    end.

(** [a - b], [a * b] and [a / b] on doubles. *)
Definition sub (a b : Q) : jsnum := round (a - b).

Definition mul (a b : Q) : jsnum := round (a * b).

Definition div (a b : Q) : jsnum :=
  match js_div a b with
  | Finite q => round q
  | other => other
  end.

(** [q] rounds to a finite double equal to [r]; [rounds_to q q] says that
    [q] is a double. *)
Definition rounds_to (q r : Q) : Prop :=
  exists r', round q = Finite r' /\ r' == r.
End Binary64.

(** ** JavaScript objects enumerated in key order *)

Section JsObject.
Context {K V : Type} `{EqDecision K}.

(** [o[k]]: the value stored under [k], if any. *)
Fixpoint obj_get (o : list (K * V)) (k : K) : option V :=
  match o with
  | [] => None
  | (k', v) :: rest => if decide (k' = k) then Some v else obj_get rest k
  end.

(** [Object.keys(o)] and [Object.values(o)] *)
Definition obj_keys (o : list (K * V)) : list K := map fst o.

Definition obj_values (o : list (K * V)) : list V := map snd o.
End JsObject.

(** [xs[i]] for a JavaScript array and a numeric index. *)
Definition array_get {A : Type} (xs : list A) (i : Z) : option A :=
  if (0 <=? i)%Z then xs !! Z.to_nat i else None.

(** [Array.prototype.sort] with a comparator [cmp a b] standing for the
  sign test [compare(a, b) <= 0]; the sort is stable. *)
Section StableSort.
Context {A : Type} (leb : A -> A -> bool).

Fixpoint sort_insert (a : A) (sorted : list A) : list A :=
  match sorted with
  | [] => [a]
  | b :: rest => if leb a b then a :: b :: rest else b :: sort_insert a rest
  end.

Definition stable_sort (xs : list A) : list A := foldr sort_insert [] xs.
End StableSort.

(** ** Data model (the interfaces of the replay page) *)

Module DriverPosition.
Record ty : Type := mk {
  x : Q;
  y : Q;
  dist : Q;
  lap : Z;
  rel_dist : Q;
  tyre : Q;
  position : Z;
  speed : Q;
  gear : Z;
  drs : Z;
  throttle : Q;
  brake : Q
  }.
End DriverPosition.

Module Frame.
Record ty : Type := mk {
  t : Q;
  lap : Z;
  drivers : list (string * DriverPosition.ty)
  }.
End Frame.

Module TeamRadioClip.
Record ty : Type := mk {
  t : Q;
  driver : string;
  driverNumber : Z;
  url : string
  }.
End TeamRadioClip.

Module LapEntry.
Record ty : Type := mk {
  time : option Q;
  s1 : option Q;
  s2 : option Q;
  s3 : option Q;
  is_pb : bool;
  compound : string
  }.
End LapEntry.

Module LapData.
Record ty : Type := mk {
  grid_pos : Z;
  laps : list (Z * LapEntry.ty)
  }.
End LapData.

(** The fields of [RaceData] the replay engine reads (event metadata, the
  track polyline, the roster and the colours only feed the drawing). *)
Module RaceData.
Record ty : Type := mk {
  totalLaps : Z;
  frames : list Frame.ty;
  frameRate : Q;
  teamRadio : option (list TeamRadioClip.ty);
  lapTiming : option (gmap string LapData.ty)
  }.
End RaceData.

(** [raceData.frames.length] *)
Definition frames_length (rd : RaceData.ty) : Z :=
  Z.of_nat (length (RaceData.frames rd)).

(** ** Playback clock *)

Module Playback.
(** The state cells [frameIndex], [isPlaying], [playbackSpeed],
    [interpolationProgress] and the ref [lastTimeRef]. *)
Record ty : Type := mk {
  frameIndex : Z;
  isPlaying : bool;
  playbackSpeed : Q;
  interpolationProgress : Q;
  lastTime : Q
  }.

(** [useState] initial values. *)
Definition initial : ty := mk 0 false 1 0 0.

(** The state setters. *)
Definition setFrameIndex (v : Z) (st : ty) : ty :=
  mk v (isPlaying st) (playbackSpeed st) (interpolationProgress st) (lastTime st).

Definition setIsPlaying (v : bool) (st : ty) : ty :=
  mk (frameIndex st) v (playbackSpeed st) (interpolationProgress st) (lastTime st).

Definition setPlaybackSpeed (v : Q) (st : ty) : ty :=
  mk (frameIndex st) (isPlaying st) v (interpolationProgress st) (lastTime st).

Definition setInterpolationProgress (v : Q) (st : ty) : ty :=
  mk (frameIndex st) (isPlaying st) (playbackSpeed st) v (lastTime st).

Definition setLastTime (v : Q) (st : ty) : ty :=
  mk (frameIndex st) (isPlaying st) (playbackSpeed st) (interpolationProgress st) v.

Inductive KeyCode : Type :=
  | Space | ArrowRight | ArrowLeft | ArrowUp | ArrowDown | KeyR | OtherKey.

(** [(raceData?.frames.length || 1) - 1] *)
Definition lastIndexOr0 (rd : option RaceData.ty) : Z :=
  match rd with
  | Some d => (if (frames_length d =? 0)%Z then 1 else frames_length d) - 1
  | None => 1 - 1
  end%Z.

(** [handleKeyDown], keyed on [e.code]. *)
Definition handleKeyDown (rd : option RaceData.ty) (e : KeyCode) (st : ty) : ty :=
  match e with
  | Space => setIsPlaying (negb (isPlaying st)) st
  | ArrowRight =>
      setFrameIndex (Z.min (frameIndex st + 10) (lastIndexOr0 rd)) st
  | ArrowLeft => setFrameIndex (Z.max (frameIndex st - 10) 0) st
  | ArrowUp => setPlaybackSpeed (Qmin (playbackSpeed st * 2) 8) st
  | ArrowDown => setPlaybackSpeed (Qmax (playbackSpeed st / 2) 0.5) st
  | KeyR => setIsPlaying false (setFrameIndex 0%Z st)
  | OtherKey => st
  end.

(** The buttons of the control bar. *)
Definition restartButton (st : ty) : ty := setFrameIndex 0%Z st.

Definition rewindButton (st : ty) : ty :=
  setFrameIndex (Z.max (frameIndex st - 50) 0) st.

Definition playPauseButton (st : ty) : ty :=
  setIsPlaying (negb (isPlaying st)) st.

Definition fastForwardButton (rd : RaceData.ty) (st : ty) : ty :=
  setFrameIndex (Z.min (frameIndex st + 50) (frames_length rd - 1)) st.

Definition speedButton (st : ty) : ty :=
  setPlaybackSpeed
    (if Qeq_bool (playbackSpeed st) 8 then 0.5 else playbackSpeed st * 2) st.

(** The progress bar's [onClick]: [clientX] of the event and the
    [left] and [width] of the bar's bounding rectangle.  The difference,
    the quotient and the product are each rounded to a double before
    [Math.floor] is applied.  [None] stands for a frame index that is not
    finite, as a zero-width rectangle or an overflow produces. *)
Definition progressBarClick (rd : RaceData.ty) (clientX rectLeft rectWidth : Q)
    (st : ty) : option ty :=
  match Binary64.sub clientX rectLeft with
  | Finite offset =>
      match Binary64.div offset rectWidth with
      | Finite percent =>
          match Binary64.mul percent (inject_Z (frames_length rd - 1)) with
          | Finite target => Some (setFrameIndex (Qfloor target) st)
          | _ => None
          end
      | _ => None
      end
  | _ => None
  end.

(** [progress], the width of the progress bar in percent. *)
Definition progress (rd : RaceData.ty) (st : ty) : jsnum :=
  js_scale
    (js_div (inject_Z (frameIndex st)) (inject_Z (frames_length rd - 1)))
    100.

(** [frameInterval = 1000 / (raceData.frameRate * playbackSpeed)] *)
Definition frameInterval (rd : RaceData.ty) (st : ty) : jsnum :=
  js_div 1000 (RaceData.frameRate rd * playbackSpeed st).

(** The updater passed to [setFrameIndex] by [animate]. *)
Definition advance (rd : RaceData.ty) (st : ty) : ty :=
  if (frames_length rd - 1 <=? frameIndex st)%Z
  then setIsPlaying false st
  else setFrameIndex (frameIndex st + 1) st.

(** One call of [animate] with the timestamp [time] of the animation
    frame.  The numerator 1000 is not zero, so [frameInterval] is finite
    or infinite; against an infinite interval the progress is 0 and the
    comparison [delta >= frameInterval] fails. *)
Definition animate (rd : RaceData.ty) (time : Q) (st : ty) : ty :=
  let last := if Qeq_bool (lastTime st) 0 then time else lastTime st in
  let delta := time - last in
  match frameInterval rd st with
  | Finite interval =>
      if Qle_bool interval delta
      then setLastTime time
             (setInterpolationProgress 0 (advance rd (setLastTime last st)))
      else setInterpolationProgress (Qmin (delta / interval) 1)
             (setLastTime last st)
  | _ => setInterpolationProgress 0 (setLastTime last st)
  end.

(** Everything that can happen to the clock once the data is loaded. *)
Inductive Event : Type :=
  | KeyDown (e : KeyCode)
  | RestartClick
  | RewindClick
  | PlayPauseClick
  | FastForwardClick
  | SpeedClick
  | ProgressBarClick (clientX rectLeft rectWidth : Q)
  | AnimationFrame (time : Q).

(** The animation loop only runs while [isPlaying]. *)
Definition step (rd : RaceData.ty) (ev : Event) (st : ty) : option ty :=
  match ev with
  | KeyDown e => Some (handleKeyDown (Some rd) e st)
  | RestartClick => Some (restartButton st)
  | RewindClick => Some (rewindButton st)
  | PlayPauseClick => Some (playPauseButton st)
  | FastForwardClick => Some (fastForwardButton rd st)
  | SpeedClick => Some (speedButton st)
  | ProgressBarClick clientX rectLeft rectWidth =>
      progressBarClick rd clientX rectLeft rectWidth st
  | AnimationFrame time =>
      Some (if isPlaying st then animate rd time st else st)
  end.

(** The three operations that change the speed. *)
Inductive SpeedOp : Type := Doubling | Halving | Cycling.

Definition speedOp (op : SpeedOp) (st : ty) : ty :=
  match op with
  | Doubling => handleKeyDown None ArrowUp st
  | Halving => handleKeyDown None ArrowDown st
  | Cycling => speedButton st
  end.

Definition speedOps (ops : list SpeedOp) (st : ty) : ty :=
  foldl (fun s op => speedOp op s) st ops.

Definition is_keyboard (op : SpeedOp) : bool :=
  match op with Cycling => false | _ => true end.
End Playback.

(** The clock operations as the specification words them. *)
Module PlaybackSpec.
Import Playback.

(** [seek(index)]: clamp to [0, frames.length - 1] and reset the
    interpolation fraction. *)
Definition seek (rd : RaceData.ty) (index : Z) (st : ty) : ty :=
  setInterpolationProgress 0
    (setFrameIndex (Z.max 0 (Z.min index (frames_length rd - 1))) st).

Definition pause (st : ty) : ty := setIsPlaying false st.

(** [restart()] is [seek(0)] followed by [pause()]. *)
Definition restart (rd : RaceData.ty) (st : ty) : ty := pause (seek rd 0%Z st).

(** The frame-index invariant of the clock. *)
Definition in_range (rd : RaceData.ty) (st : ty) : Prop :=
  (0 <= frameIndex st <= frames_length rd - 1)%Z.

Definition speed_in_range (st : ty) : Prop :=
  0.5 <= playbackSpeed st <= 8.
End PlaybackSpec.


(** ** Interpolated driver positions ([drawTrack]) *)

Module Render.
(** What [drawTrack] computes for one driver before the projection to
    canvas coordinates: the interpolated track position and whether the
    dot gets a glow and a label. *)
Record Dot : Type := mkDot {
  code : string;
  interpX : Q;
  interpY : Q;
  emphasised : bool
}.

(** The running position [frame.drivers[code].position] used by the
    comparator ([0] stands in for the lookup of a foreign key, which the
    keys of the frame itself never are). *)
Definition positionOf (frame : Frame.ty) (c : string) : Z :=
  match obj_get (Frame.drivers frame) c with
  | Some pos => DriverPosition.position pos
  | None => 0%Z
  end.

(** [Object.keys(frame.drivers).sort((a, b) =>
      frame.drivers[b].position - frame.drivers[a].position)] *)
Definition sortedDrivers (frame : Frame.ty) : list string :=
  stable_sort (fun a b => (positionOf frame b <=? positionOf frame a)%Z)
    (obj_keys (Frame.drivers frame)).

(** [frames[Math.min(frameIndex + 1, frames.length - 1)]] *)
Definition nextFrame (rd : RaceData.ty) (frameIndex : Z) : option Frame.ty :=
  array_get (RaceData.frames rd) (Z.min (frameIndex + 1) (frames_length rd - 1)).

(** [nextFrame?.drivers[code] || pos] *)
Definition nextPos (next : option Frame.ty) (c : string)
    (pos : DriverPosition.ty) : DriverPosition.ty :=
  match next with
  | Some nf =>
      match obj_get (Frame.drivers nf) c with
      | Some np => np
      | None => pos
      end
  | None => pos
  end.

(** [pos.x + (nextPos.x - pos.x) * interpolationProgress], on one axis. *)
Definition interp (a b progress : Q) : Q := a + (b - a) * progress.

Definition drawDriver (next : option Frame.ty) (progress : Q)
    (selectedDriver : option string) (frame : Frame.ty) (c : string)
    : option Dot :=
  match obj_get (Frame.drivers frame) c with
  | Some pos =>
      let np := nextPos next c pos in
      let isSelected := bool_decide (selectedDriver = Some c) in
      Some (mkDot c
              (interp (DriverPosition.x pos) (DriverPosition.x np) progress)
              (interp (DriverPosition.y pos) (DriverPosition.y np) progress)
              (isSelected || (DriverPosition.position pos <=? 3)%Z))
  | None => None
  end.

(** The driver loop of [drawTrack]; [None] is the early return taken when
    [frames[frameIndex]] does not exist. *)
Definition drawDrivers (rd : RaceData.ty) (frameIndex : Z) (progress : Q)
    (selectedDriver : option string) : option (list Dot) :=
  match array_get (RaceData.frames rd) frameIndex with
  | Some frame =>
      Some (omap (drawDriver (nextFrame rd frameIndex) progress
                    selectedDriver frame)
              (sortedDrivers frame))
  | None => None
  end.

(** The dot drawn for driver [c], if any. *)
Definition dotOf (dots : list Dot) (c : string) : option Dot :=
  List.find (fun d => bool_decide (code d = c)) dots.

Definition interpolated (rd : RaceData.ty) (frameIndex : Z) (progress : Q)
    (selectedDriver : option string) (c : string) : option (Q * Q) :=
  match drawDrivers rd frameIndex progress selectedDriver with
  | Some dots =>
      match dotOf dots c with
      | Some d => Some (interpX d, interpY d)
      | None => None
      end
  | None => None
  end.
End Render.

(** Linear interpolation as the specification words it. *)
Module RenderSpec.
Definition lerp (a b f : Q) : Q := (1 - f) * a + f * b.

(** The raw position of driver [c] in frame [i]. *)
Definition rawPosition (rd : RaceData.ty) (i : Z) (c : string)
    : option (Q * Q) :=
  match array_get (RaceData.frames rd) i with
  | Some frame =>
      match obj_get (Frame.drivers frame) c with
      | Some pos => Some (DriverPosition.x pos, DriverPosition.y pos)
      | None => None
      end
  | None => None
  end.

(** The index of the frame interpolated towards: [min(i + 1, last)]. *)
Definition nextIndex (rd : RaceData.ty) (i : Z) : Z :=
  Z.min (i + 1) (frames_length rd - 1).
End RenderSpec.

(** ** Team radio scheduler *)

Module Radio.
(** [playedRadioClipsRef], [currentRadio], [audioRef] (the clip whose audio
    element is held) and the pending fallback timeouts, each remembered by
    the [clipTimestamp] it captured; all have the same delay, so they
    expire in the order they were set. *)
Record ty : Type := mk {
  played : gset nat;
  currentRadio : option TeamRadioClip.ty;
  audioRef : option TeamRadioClip.ty;
  timers : list Q
}.

Definition initial : ty := mk ∅ None None [].

(** [raceData.frames[frameIndex]?.t || 0] *)
Definition currentTime (rd : RaceData.ty) (frameIndex : Z) : Q :=
  match array_get (RaceData.frames rd) frameIndex with
  | Some frame => Frame.t frame
  | None => 0
  end.

(** [currentTime >= clip.t && currentTime < clip.t + 3] *)
Definition inWindow (now : Q) (clip : TeamRadioClip.ty) : bool :=
  Qle_bool (TeamRadioClip.t clip) now && Qltb now (TeamRadioClip.t clip + 3).

(** The [for] loop of the playback effect from index [i] on: the first
    clip that has not been played and whose window holds [now]. *)
Fixpoint findClip (playedSet : gset nat) (now : Q)
    (clips : list TeamRadioClip.ty) (i : nat)
    : option (nat * TeamRadioClip.ty) :=
  match clips with
  | [] => None
  | clip :: rest =>
      if bool_decide (i ∈ playedSet) then findClip playedSet now rest (S i)
      else if inWindow now clip then Some (i, clip)
      else findClip playedSet now rest (S i)
  end.

(** The team-radio playback effect.  The second component is the index of
    the clip whose audio was started, if one was. *)
Definition playbackEffect (rd : RaceData.ty) (radioEnabled hasInteracted : bool)
    (frameIndex : Z) (st : ty) : ty * option nat :=
  match RaceData.teamRadio rd with
  | Some clips =>
      if negb radioEnabled || bool_decide (length clips = 0%nat) then (st, None)
      else if negb hasInteracted then (st, None)
      else
        match findClip (played st) (currentTime rd frameIndex) clips 0 with
        | Some (i, clip) =>
            (mk ({[i]} ∪ played st) (Some clip) (Some clip)
               (timers st ++ [TeamRadioClip.t clip]),
             Some i)
        | None => (st, None)
        end
  | None => (st, None)
  end.

(** [clip && clip.t > currentTime] for [clip = teamRadio?.[clipIndex]] *)
Definition inFuture (rd : RaceData.ty) (now : Q) (clipIndex : nat) : bool :=
  match RaceData.teamRadio rd with
  | Some clips =>
      match clips !! clipIndex with
      | Some clip => Qltb now (TeamRadioClip.t clip)
      | None => false
      end
  | None => false
  end.

(** The effect that forgets played clips lying in the future. *)
Definition resetEffect (rd : RaceData.ty) (frameIndex : Z) (st : ty) : ty :=
  mk (filter (fun i => inFuture rd (currentTime rd frameIndex) i = false)
        (played st))
     (currentRadio st) (audioRef st) (timers st).

(** A commit of the page after which radio effects run: the values of
    [frameIndex], [radioEnabled] and [hasInteracted] it renders with, and
    whether [frameIndex] is among the values that changed.  The playback
    effect depends on all three (and on the volume); the reset effect only
    on [frameIndex]. *)
Record Commit : Type := mkCommit {
  frameIndex : Z;
  radioEnabled : bool;
  hasInteracted : bool;
  frameIndexChanged : bool
}.

(** A change of the frame index with radio enabled and the user having
    interacted. *)
Definition frameChange (k : Z) : Commit := mkCommit k true true true.

(** The effects of one commit, in the order they are declared. *)
Definition onCommit (rd : RaceData.ty) (c : Commit) (st : ty)
    : ty * option nat :=
  let '(st1, fired) :=
    playbackEffect rd (radioEnabled c) (hasInteracted c) (frameIndex c) st in
  (if frameIndexChanged c then resetEffect rd (frameIndex c) st1 else st1,
   fired).

Definition firedList (fired : option nat) : list nat :=
  match fired with Some i => [i] | None => [] end.

(** A sequence of commits; the list collects the clips started, oldest
    first. *)
Fixpoint run (rd : RaceData.ty) (commits : list Commit) (st : ty)
    : ty * list nat :=
  match commits with
  | [] => (st, [])
  | c :: rest =>
      let '(st1, fired) := onCommit rd c st in
      let '(st2, log) := run rd rest st1 in
      (st2, firedList fired ++ log)
  end.

(** The updater of the fallback timeout:
    [prev => prev?.t === clipTimestamp ? null : prev] *)
Definition fallbackUpdater (clipTimestamp : Q)
    (prev : option TeamRadioClip.ty) : option TeamRadioClip.ty :=
  match prev with
  | Some clip =>
      if Qeq_bool (TeamRadioClip.t clip) clipTimestamp then None else Some clip
  | None => None
  end.

(** The oldest pending fallback timeout expires. *)
Definition timeoutExpires (st : ty) : ty :=
  match timers st with
  | clipTimestamp :: rest =>
      mk (played st) (fallbackUpdater clipTimestamp (currentRadio st))
         (audioRef st) rest
  | [] => st
  end.

(** [audio.onended] *)
Definition audioEnded (st : ty) : ty :=
  mk (played st) None (audioRef st) (timers st).
End Radio.

(** ** Live timing board and driver info panel *)

Module Timing.
Inductive DrsText : Type := ON | OFF.

(** [drs >= 10 ? 'ON' : 'OFF'] *)
Definition drsText (drs : Z) : DrsText :=
  if (10 <=? drs)%Z then ON else OFF.

(** The text of a timing cell: the dash, the word [Leader], a lap time
    ([formatLapTime], [formatSector]) or a gap written as a plus sign
    followed by the number ([`+${...toFixed(3)}s`]); the rounding to three
    decimals is left to the reader of the cell. *)
Inductive Cell : Type :=
  | Dash
  | Leader
  | LapTime (seconds : Q)
  | Plus (seconds : Q).

(** [formatLapTime(v || null)] and [formatSector(v || null)] *)
Definition formatLapTime (seconds : option Q) : Cell :=
  match seconds with
  | Some s => if truthy s then LapTime s else Dash
  | None => Dash
  end.

(** [Object.entries(currentFrame.drivers).sort(([, a], [, b]) =>
      a.position - b.position)], or [[]] without a current frame. *)
Definition sortedDrivers (currentFrame : option Frame.ty)
    : list (string * DriverPosition.ty) :=
  match currentFrame with
  | Some frame =>
      stable_sort
        (fun a b =>
           (DriverPosition.position a.2 <=? DriverPosition.position b.2)%Z)
        (Frame.drivers frame)
  | None => []
  end.

(** [currentFrame?.lap || 1] *)
Definition currentLap (currentFrame : option Frame.ty) : Z :=
  match currentFrame with
  | Some frame => if (Frame.lap frame =? 0)%Z then 1%Z else Frame.lap frame
  | None => 1%Z
  end.

(** [raceData.lapTiming?.[code]] *)
Definition lapDataOf (rd : RaceData.ty) (c : string) : option LapData.ty :=
  match RaceData.lapTiming rd with
  | Some timing => timing !! c
  | None => None
  end.

(** [raceData.lapTiming?.[code]?.laps?.[lap]?.time] *)
Definition lapTimeOf (rd : RaceData.ty) (c : string) (lap : Z) : option Q :=
  match lapDataOf rd c with
  | Some ld =>
      match obj_get (LapData.laps ld) lap with
      | Some entry => LapEntry.time entry
      | None => None
      end
  | None => None
  end.

(** One step of the [forEach] that finds the best lap time. *)
Definition bestLapStep (best : option Q) (l : LapEntry.ty) : option Q :=
  match LapEntry.time l with
  | Some time =>
      if truthy time
         && match best with None => true | Some b => Qltb time b end
      then Some time
      else best
  | None => best
  end.

Definition bestLapTime (lapData : option LapData.ty) : option Q :=
  match lapData with
  | Some ld => foldl bestLapStep None (obj_values (LapData.laps ld))
  | None => None
  end.

(** [a?.time && b?.time ? a.time - b.time : 0] *)
Definition timeDifference (a b : option Q) : Q :=
  match a, b with
  | Some ta, Some tb => if truthy ta && truthy tb then ta - tb else 0
  | _, _ => 0
  end.

(** [d ? `+${Math.abs(d).toFixed(3)}s` : '—'] *)
Definition plusCell (d : Q) : Cell :=
  if truthy d then Plus (Qabs d) else Dash.

(** [x.toFixed(3)] of a number that is not negative, counted in
    thousandths: the integer [n] with [n / 1000] nearest to [x], the
    larger one of two that are equally near. *)
Definition toFixed3 (x : Q) : Z := Qfloor (x * 1000 + (1 # 2)).

Record Row : Type := mkRow {
  row_position : Z;
  row_code : string;
  row_drs : DrsText;
  row_lastLap : Cell;
  row_bestLap : Cell;
  row_interval : Cell;
  row_gap : Cell;
  row_diff : Z
}.

(** The body of [sortedDrivers.map(([code, pos], idx) => ...)] in the
    timing table. *)
Definition timingRow (rd : RaceData.ty) (currentFrame : option Frame.ty)
    (idx : nat) (entry : string * DriverPosition.ty) : Row :=
  let '(c, pos) := entry in
  let sorted := sortedDrivers currentFrame in
  let lapData := lapDataOf rd c in
  let lap := currentLap currentFrame in
  let lastLapTime := lapTimeOf rd c (lap - 1) in
  let gridPos := match lapData with Some ld => LapData.grid_pos ld | None => 0%Z end in
  let leaderLapTime :=
    match sorted !! 0%nat with
    | Some leader => lapTimeOf rd leader.1 (lap - 1)
    | None => None
    end in
  let gapToLeader := timeDifference lastLapTime leaderLapTime in
  let carAheadCode :=
    match idx with
    | O => None
    | S before => fst <$> sorted !! before
    end in
  let carAheadLapTime :=
    match carAheadCode with
    | Some ahead =>
        if decide (ahead = ""%string) then None
        else lapTimeOf rd ahead (lap - 1)
    | None => None
    end in
  let interval := timeDifference lastLapTime carAheadLapTime in
  mkRow (DriverPosition.position pos) c
    (drsText (DriverPosition.drs pos))
    (formatLapTime lastLapTime)
    (formatLapTime (bestLapTime lapData))
    (match idx with O => Dash | S _ => plusCell interval end)
    (match idx with O => Leader | S _ => plusCell gapToLeader end)
    (gridPos - DriverPosition.position pos)%Z.

Definition timingBoard (rd : RaceData.ty) (frameIndex : Z) : list Row :=
  let currentFrame := array_get (RaceData.frames rd) frameIndex in
  imap (timingRow rd currentFrame) (sortedDrivers currentFrame).

(** The floating card of the selected driver. *)
Record Panel : Type := mkPanel {
  panel_speed : Z;
  panel_gear : Z;
  panel_drs : DrsText;
  panel_position : Z
}.

(** [Math.round] *)
Definition round (q : Q) : Z := Qfloor (q + 0.5).

(** Rendered when [selectedDriver && currentFrame?.drivers[selectedDriver]];
    the empty driver code is as falsy as [null]. *)
Definition driverInfoPanel (rd : RaceData.ty) (frameIndex : Z)
    (selectedDriver : option string) : option Panel :=
  match selectedDriver, array_get (RaceData.frames rd) frameIndex with
  | Some c, Some frame =>
      if decide (c = ""%string) then None
      else
        match obj_get (Frame.drivers frame) c with
        | Some pos =>
            Some (mkPanel (round (DriverPosition.speed pos))
                    (DriverPosition.gear pos)
                    (drsText (DriverPosition.drs pos))
                    (DriverPosition.position pos))
        | None => None
        end
  | _, _ => None
  end.
End Timing.

(** The timing figures as the specification words them. *)
Module TimingSpec.
(** The least element of a list of times. *)
Definition minimum (times : list Q) : option Q :=
  match times with
  | [] => None
  | first :: others => Some (foldl Qmin first others)
  end.

(** Best lap so far: the minimum of the non-null lap times of the laps
    reached at the current lap number. *)
Definition bestLapSoFar (laps : list (Z * LapEntry.ty)) (currentLap : Z)
    : option Q :=
  minimum
    (omap (fun entry : Z * LapEntry.ty => LapEntry.time entry.2)
       (filter (fun entry : Z * LapEntry.ty => (entry.1 <= currentLap)%Z) laps)).

(** Gap to leader: last-lap time of the driver minus that of the leader. *)
Definition gapToLeader (driverTime leaderTime : Q) : Q :=
  driverTime - leaderTime.

(** The number a cell shows, read with its sign. *)
Definition shownSeconds (c : Timing.Cell) : option Q :=
  match c with
  | Timing.Plus s => Some s
  | Timing.LapTime s => Some s
  | Timing.Dash | Timing.Leader => None
  end.
End TimingSpec.

(** Side conditions used by the statements about the clock. *)
Module PlaybackFacts.
Import Playback.

(** The pointer of a progress-bar click lies on the bar, whose width is a
    double. *)
Definition pointer_on_bar (ev : Event) : Prop :=
  match ev with
  | ProgressBarClick clientX rectLeft rectWidth =>
      0 < rectWidth /\ Binary64.rounds_to rectWidth rectWidth
      /\ rectLeft <= clientX <= rectLeft + rectWidth
  | _ => True
  end.

(** [delta >= frameInterval] in a call of [animate]. *)
Definition intervalElapsed (rd : RaceData.ty) (time : Q) (st : ty) : bool :=
  let last := if Qeq_bool (lastTime st) 0 then time else lastTime st in
  match frameInterval rd st with
  | Finite interval => Qle_bool interval (time - last)
  | _ => false
  end.

(** The speeds reachable from the initial speed [1]. *)
Definition standard_speed (st : ty) : Prop :=
  playbackSpeed st == 0.5 \/ playbackSpeed st == 1 \/ playbackSpeed st == 2
  \/ playbackSpeed st == 4 \/ playbackSpeed st == 8.
End PlaybackFacts.

(** Side conditions used by the statements about the radio scheduler. *)
Module RadioFacts.
(** The time [now] lies in the window [[t, t + 3)] of a cue with
    timestamp [t]. *)
Definition window (t now : Q) : Prop := t <= now /\ now < t + 3.

(** Clip [i] is the first match of the scan at time [now]: it has not been
    played, its window holds [now], and every clip before it has been
    played or has a window that does not hold [now]. *)
Definition firstMatch (clips : list TeamRadioClip.ty) (playedSet : gset nat)
    (now : Q) (i : nat) : Prop :=
  (i ∉ playedSet)
  /\ (exists clip, clips !! i = Some clip /\ window (TeamRadioClip.t clip) now)
  /\ forall j cj, (j < i)%nat -> clips !! j = Some cj ->
       j ∈ playedSet \/ ~ window (TeamRadioClip.t cj) now.

(** How often clip [i] was started in a log of started clips. *)
Definition fires (i : nat) (log : list nat) : nat := count_occ Nat.eq_dec log i.

(** The time of the frame a commit renders. *)
Definition timeOf (rd : RaceData.ty) (c : Radio.Commit) : Q :=
  Radio.currentTime rd (Radio.frameIndex c).

(** Radio is enabled and the user has interacted. *)
Definition audible (c : Radio.Commit) : Prop :=
  Radio.radioEnabled c = true /\ Radio.hasInteracted c = true.

(** No clip before [i] competes for the time [now]. *)
Definition uncontested (clips : list TeamRadioClip.ty) (now : Q) (i : nat)
    : Prop :=
  forall j cj, (j < i)%nat -> clips !! j = Some cj ->
    ~ window (TeamRadioClip.t cj) now.
End RadioFacts.

(** ** Sample data *)

Module Examples.
Definition emptyFrame (time : Q) (lap : Z) : Frame.ty := Frame.mk time lap [].

(** A session of [n] frames, one every second, without radio or timing. *)
Definition session (n : nat) : RaceData.ty :=
  RaceData.mk 50
    (map (fun k : nat => emptyFrame (inject_Z (Z.of_nat k)) 1) (seq 0 n))
    25 None None.

Definition playingAt (i : Z) (speed : Q) : Playback.ty :=
  Playback.mk i true speed 0 0.

(** A telemetry sample at [(x, y)] with a running position and a DRS code. *)
Definition sample (x y : Q) (position drs : Z) : DriverPosition.ty :=
  DriverPosition.mk x y 0 1 0 2 position 200 7 drs 100 0.

(** Two frames; the second one has lost the second car. *)
Definition twoCars : RaceData.ty :=
  RaceData.mk 50
    [ Frame.mk 0 1 [("VER"%string, sample 0 0 1 12);
                    ("HAM"%string, sample 10 0 2 9)];
      Frame.mk 1 1 [("VER"%string, sample 4 2 1 10)] ]
    25 None None.

Definition lapEntry (time : option Q) : LapEntry.ty :=
  LapEntry.mk time None None None false "SOFT".

(** One frame at lap [lap] with VER leading HAM, and their lap tables. *)
Definition timedSession (lap : Z) (verLaps hamLaps : list (Z * LapEntry.ty))
    : RaceData.ty :=
  RaceData.mk 50
    [ Frame.mk 0 lap [("HAM"%string, sample 10 0 2 9);
                      ("VER"%string, sample 0 0 1 12)] ]
    25 None
    (Some {[ "VER"%string := LapData.mk 1 verLaps;
             "HAM"%string := LapData.mk 2 hamLaps ]}).

(** One frame at lap 6 led by a driver whose code is the empty string,
    with lap 5 timed at 90 for the leader and 92.345 for HAM. *)
Definition namelessLeader : RaceData.ty :=
  RaceData.mk 50
    [ Frame.mk 0 6 [(""%string, sample 0 0 1 12);
                    ("HAM"%string, sample 10 0 2 9)] ]
    25 None
    (Some {[ ""%string := LapData.mk 1 [(5%Z, lapEntry (Some 90))];
             "HAM"%string := LapData.mk 2 [(5%Z, lapEntry (Some 92.345))] ]}).

Definition clipAt (time : Q) (driver : string) : TeamRadioClip.ty :=
  TeamRadioClip.mk time driver 1 "clip.mp3".

(** Frames at the times 99, 100, 101, 102, 103 and 50 (indices 0 to 5)
    and one radio clip at 100. *)
Definition radioSession : RaceData.ty :=
  RaceData.mk 50
    (map (fun time : Q => emptyFrame time 1) [99; 100; 101; 102; 103; 50])
    25 (Some [clipAt 100 "VER"]) None.

(** Two clips of different drivers with the same timestamp. *)
Definition twinClips : RaceData.ty :=
  RaceData.mk 50
    (map (fun time : Q => emptyFrame time 1) [99; 100; 101])
    25 (Some [clipAt 100 "VER"; clipAt 100 "HAM"]) None.

(** The same two clips under frames two seconds apart: only the frame at
    101 lies in their window. *)
Definition contestedClips : RaceData.ty :=
  RaceData.mk 50
    (map (fun time : Q => emptyFrame time 1) [99; 101; 103])
    25 (Some [clipAt 100 "VER"; clipAt 100 "HAM"]) None.
End Examples.

(** ** Runs of the playback clock *)

Module Clock.
(** The animation loop over the timestamps of successive animation
    frames: [animate] is called only while [isPlaying]. *)
Definition ticks (rd : RaceData.ty) (times : list Q) (st : Playback.ty)
    : Playback.ty :=
  foldl
    (fun s time => if Playback.isPlaying s then Playback.animate rd time s else s)
    st times.

(** The timestamp [animate] measures [delta] from. *)
Definition lastTimeOr (time : Q) (st : Playback.ty) : Q :=
  if Qeq_bool (Playback.lastTime st) 0 then time else Playback.lastTime st.

(** The frame index a progress-bar click selects, if it is finite. *)
Definition clickedFrame (rd : RaceData.ty) (clientX rectLeft rectWidth : Q)
    (st : Playback.ty) : option Z :=
  Playback.frameIndex <$> Playback.progressBarClick rd clientX rectLeft rectWidth st.
End Clock.

(** ** Arithmetic on numbers that may be infinite *)

Module JsNum.
Definition neg (v : jsnum) : jsnum :=
  match v with
  | Finite q => Finite (- q)
  | PlusInfinity => MinusInfinity
  | MinusInfinity => PlusInfinity
  | NaN => NaN
  end.

(** [a + b]: opposite infinities cancel to [NaN]. *)
Definition add (a b : jsnum) : jsnum :=
  match a, b with
  | NaN, _ => NaN
  | _, NaN => NaN
  | Finite x, Finite y => Finite (x + y)
  | Finite _, PlusInfinity => PlusInfinity
  | Finite _, MinusInfinity => MinusInfinity
  | PlusInfinity, MinusInfinity => NaN
  | PlusInfinity, _ => PlusInfinity
  | MinusInfinity, PlusInfinity => NaN
  | MinusInfinity, _ => MinusInfinity
  end.

Definition sub (a b : jsnum) : jsnum := add a (neg b).

(** An infinity times the finite number [q]: [NaN] for zero, otherwise
    the infinity with the sign of the product. *)
Definition scaleInfinity (inf : jsnum) (q : Q) : jsnum :=
  if Qeq_bool q 0 then NaN
  else if Qle_bool 0 q then inf
  else neg inf.

Definition mul (a b : jsnum) : jsnum :=
  match a, b with
  | NaN, _ => NaN
  | _, NaN => NaN
  | Finite x, Finite y => Finite (x * y)
  | Finite x, inf => scaleInfinity inf x
  | inf, Finite y => scaleInfinity inf y
  | PlusInfinity, PlusInfinity => PlusInfinity
  | MinusInfinity, MinusInfinity => PlusInfinity
  | PlusInfinity, MinusInfinity => MinusInfinity
  | MinusInfinity, PlusInfinity => MinusInfinity
  end.

(** [a / b]: a finite number over an infinity is zero, an infinity over
    a finite number keeps or flips its sign, an infinity over an infinity
    is [NaN]. *)
Definition quot (a b : jsnum) : jsnum :=
  match a, b with
  | NaN, _ => NaN
  | _, NaN => NaN
  | Finite x, Finite y => js_div x y
  | Finite _, _ => Finite 0
  | inf, Finite y => if Qle_bool 0 y then inf else neg inf
  | _, _ => NaN
  end.

(** [Math.min(a, b)] and [Math.max(a, b)] *)
Definition min (a b : jsnum) : jsnum :=
  match a, b with
  | NaN, _ => NaN
  | _, NaN => NaN
  | MinusInfinity, _ => MinusInfinity
  | _, MinusInfinity => MinusInfinity
  | PlusInfinity, other => other
  | other, PlusInfinity => other
  | Finite x, Finite y => Finite (Qmin x y)
  end.

Definition max (a b : jsnum) : jsnum :=
  match a, b with
  | NaN, _ => NaN
  | _, NaN => NaN
  | PlusInfinity, _ => PlusInfinity
  | _, PlusInfinity => PlusInfinity
  | MinusInfinity, other => other
  | other, MinusInfinity => other
  | Finite x, Finite y => Finite (Qmax x y)
  end.

(** [Math.min(...xs)] and [Math.max(...xs)]; of no argument they are
    [Infinity] and [-Infinity]. *)
Definition minimum (xs : list Q) : jsnum :=
  foldr (fun q acc => min (Finite q) acc) PlusInfinity xs.

Definition maximum (xs : list Q) : jsnum :=
  foldr (fun q acc => max (Finite q) acc) MinusInfinity xs.
End JsNum.

(** ** Projection of the track onto the canvas ([drawTrack]) *)

Module Projection.
(** [raceData.track] *)
Record Track : Type := mkTrack {
  x : list Q;
  y : list Q
}.

(** The [width] and [height] of the canvas element. *)
Record Canvas : Type := mkCanvas {
  width : Q;
  height : Q
}.

Definition padding : Q := 50.

Definition xMin (track : Track) : jsnum := JsNum.minimum (x track).

Definition xMax (track : Track) : jsnum := JsNum.maximum (x track).

Definition yMin (track : Track) : jsnum := JsNum.minimum (y track).

Definition yMax (track : Track) : jsnum := JsNum.maximum (y track).

Definition trackWidth (track : Track) : jsnum :=
  JsNum.sub (xMax track) (xMin track).

Definition trackHeight (track : Track) : jsnum :=
  JsNum.sub (yMax track) (yMin track).

(** [(canvas.width - padding * 2) / trackWidth] *)
Definition scaleX (track : Track) (canvas : Canvas) : jsnum :=
  JsNum.quot (Finite (width canvas - padding * 2)) (trackWidth track).

Definition scaleY (track : Track) (canvas : Canvas) : jsnum :=
  JsNum.quot (Finite (height canvas - padding * 2)) (trackHeight track).

Definition scale (track : Track) (canvas : Canvas) : jsnum :=
  JsNum.min (scaleX track canvas) (scaleY track canvas).

(** [(canvas.width - trackWidth * scale) / 2 - xMin * scale] *)
Definition offsetX (track : Track) (canvas : Canvas) : jsnum :=
  JsNum.sub
    (JsNum.quot
       (JsNum.sub (Finite (width canvas))
          (JsNum.mul (trackWidth track) (scale track canvas)))
       (Finite 2))
    (JsNum.mul (xMin track) (scale track canvas)).

Definition offsetY (track : Track) (canvas : Canvas) : jsnum :=
  JsNum.sub
    (JsNum.quot
       (JsNum.sub (Finite (height canvas))
          (JsNum.mul (trackHeight track) (scale track canvas)))
       (Finite 2))
    (JsNum.mul (yMin track) (scale track canvas)).

(** [v * scale + offsetX] and [v * scale + offsetY] *)
Definition screenX (track : Track) (canvas : Canvas) (v : jsnum) : jsnum :=
  JsNum.add (JsNum.mul v (scale track canvas)) (offsetX track canvas).

Definition screenY (track : Track) (canvas : Canvas) (v : jsnum) : jsnum :=
  JsNum.add (JsNum.mul v (scale track canvas)) (offsetY track canvas).

(** [vs[i]] as an operand of arithmetic: [undefined] behaves as [NaN]. *)
Definition coordinate (vs : list Q) (i : nat) : jsnum :=
  match vs !! i with
  | Some v => Finite v
  | None => NaN
  end.

(** The points the three track outlines pass through: one for every
    index of [track.x]. *)
Definition trackPoints (track : Track) (canvas : Canvas)
    : list (jsnum * jsnum) :=
  imap
    (fun i xi =>
       (screenX track canvas (Finite xi),
        screenY track canvas (coordinate (y track) i)))
    (x track).

(** The DRS zones, as fractions of the point sequence of the track. *)
Definition drsZones : list (Q * Q) := [(0.65, 0.75); (0.88, 0.98)].

(** [Math.floor(zone.start * track.x.length)] and
    [Math.floor(zone.end * track.x.length)] *)
Definition startIdx (n : nat) (zone : Q * Q) : Z :=
  Qfloor (zone.1 * inject_Z (Z.of_nat n)).

Definition endIdx (n : nat) (zone : Q * Q) : Z :=
  Qfloor (zone.2 * inject_Z (Z.of_nat n)).

(** The indices [startIdx, ..., endIdx] the zone's path visits. *)
Definition zoneIndices (n : nat) (zone : Q * Q) : list Z :=
  map (fun k : nat => (startIdx n zone + Z.of_nat k)%Z)
    (seq 0 (Z.to_nat (endIdx n zone - startIdx n zone + 1))).

(** [Math.floor((startIdx + endIdx) / 2)] *)
Definition labelIdx (n : nat) (zone : Q * Q) : Z :=
  Qfloor (inject_Z (startIdx n zone + endIdx n zone) / 2).
End Projection.

(** ** Everything that happens to the radio state *)

Module RadioEvents.
(** A commit that runs the radio effects, the expiry of the oldest
    fallback timeout, or the end of the audio that is playing. *)
Inductive Event : Type :=
  | Committed (c : Radio.Commit)
  | TimeoutExpired
  | AudioEnded.

(** [onended] belongs to the audio element held in [audioRef]; without
    one there is nothing that could end. *)
Definition step (rd : RaceData.ty) (ev : Event) (st : Radio.ty) : Radio.ty :=
  match ev with
  | Committed c => (Radio.onCommit rd c st).1
  | TimeoutExpired => Radio.timeoutExpires st
  | AudioEnded =>
      match Radio.audioRef st with
      | Some _ => Radio.audioEnded st
      | None => st
      end
  end.

Definition steps (rd : RaceData.ty) (evs : list Event) (st : Radio.ty)
    : Radio.ty :=
  foldl (fun s ev => step rd ev s) st evs.
End RadioEvents.

(** ** Telemetry chart data ([telemetryChartData]) *)

Module Telemetry.
(** One point of the three charts. *)
Record Point : Type := mkPoint {
  time : Z;
  speed : Q;
  throttle : Q;
  brake : Q
}.

(** A relative index of [Array.prototype.slice]: a negative index counts
    from the end; the result is clamped to [0, len]. *)
Definition sliceIndex (len i : Z) : Z :=
  if (i <? 0)%Z then Z.max (len + i) 0 else Z.min i len.

(** [xs.slice(start, stop)] *)
Definition array_slice {A : Type} (xs : list A) (start stop : Z) : list A :=
  let len := Z.of_nat (length xs) in
  let from := sliceIndex len start in
  let to := sliceIndex len stop in
  take (Z.to_nat (to - from)) (drop (Z.to_nat from) xs).

(** [v?.field || 0] *)
Definition fieldOr0 (driverData : option DriverPosition.ty)
    (field : DriverPosition.ty -> Q) : Q :=
  match driverData with
  | Some d => field d
  | None => 0
  end.

(** The callback of [map]: the point of the [i]-th frame of the slice. *)
Definition chartPoint (selectedDriver : string) (startIdx : Z) (i : nat)
    (frame : Frame.ty) : Point :=
  let driverData := obj_get (Frame.drivers frame) selectedDriver in
  mkPoint (startIdx + Z.of_nat i)
    (fieldOr0 driverData DriverPosition.speed)
    (fieldOr0 driverData DriverPosition.throttle)
    (fieldOr0 driverData DriverPosition.brake * 100).

(** [telemetryChartData]; the empty driver code is as falsy as [null]. *)
Definition telemetryChartData (raceData : option RaceData.ty)
    (selectedDriver : option string) (frameIndex : Z) : list Point :=
  match raceData, selectedDriver with
  | Some rd, Some c =>
      if decide (c = ""%string) then []
      else
        let startIdx := Z.max 0 (frameIndex - 120) in
        let endIdx := (frameIndex + 1)%Z in
        imap (chartPoint c startIdx)
          (array_slice (RaceData.frames rd) startIdx endIdx)
  | _, _ => []
  end.
End Telemetry.

(** ** The clock display ([formatTime]) *)

Module TimeFormat.
(** [Math.trunc] *)
Definition Qtrunc (q : Q) : Z :=
  if Qle_bool 0 q then Qfloor q else Qceiling q.

(** [a % b] for a non-zero [b]: the remainder has the sign of [a]. *)
Definition js_rem (a b : Q) : Q := a - b * inject_Z (Qtrunc (a / b)).

(** The text [formatTime] returns: hours, minutes and seconds separated
    by colons when the hours are positive, otherwise minutes and seconds;
    minutes (after hours) and seconds are padded to two digits. *)
Inductive TimeText : Type :=
  | HoursMinutesSeconds (hrs mins secs : Z)
  | MinutesSeconds (mins secs : Z).

Definition formatTime (seconds : Q) : TimeText :=
  let hrs := Qfloor (seconds / 3600) in
  let mins := Qfloor (js_rem seconds 3600 / 60) in
  let secs := Qfloor (js_rem seconds 60) in
  if (0 <? hrs)%Z then HoursMinutesSeconds hrs mins secs
  else MinutesSeconds mins secs.

(** The whole seconds a text stands for. *)
Definition secondsOf (text : TimeText) : Z :=
  match text with
  | HoursMinutesSeconds hrs mins secs => (hrs * 3600 + mins * 60 + secs)%Z
  | MinutesSeconds mins secs => (mins * 60 + secs)%Z
  end.

(** Minutes and seconds are clock fields. *)
Definition wellFormed (text : TimeText) : Prop :=
  match text with
  | HoursMinutesSeconds hrs mins secs =>
      (0 < hrs /\ 0 <= mins < 60 /\ 0 <= secs < 60)%Z
  | MinutesSeconds mins secs => (0 <= mins < 60 /\ 0 <= secs < 60)%Z
  end.
End TimeFormat.

(** ** Dragging the driver info panel *)

Module Drag.
Record Point : Type := mkPoint {
  x : Q;
  y : Q
}.

(** [driverInfoPanelPos] (left and bottom of the card), [isDragging] and
    the ref [dragOffset]. *)
Record ty : Type := mk {
  driverInfoPanelPos : Point;
  isDragging : bool;
  dragOffset : Point
}.

Definition initial : ty := mk (mkPoint 32 112) false (mkPoint 0 0).




End Drag.

(* ================================================================== *)
(** * Properties *)
(* ================================================================== *)

(** ** Rational arithmetic helpers *)

Lemma Qeq_bool_false_neq (a b : Q) : Qeq_bool a b = false -> ~ a == b.
Proof. intros H E. apply Qeq_bool_iff in E. congruence. Qed.

Lemma Qle_bool_false_lt (a b : Q) : Qle_bool a b = false -> b < a.
Proof.
  intros H. apply Qnot_le_lt. intros E. apply Qle_bool_iff in E. congruence.
Qed.

Lemma Qltb_lt (a b : Q) : Qltb a b = true <-> a < b.
Proof.
  unfold Qltb. rewrite negb_true_iff. split.
  - apply Qle_bool_false_lt.
  - intros H. destruct (Qle_bool b a) eqn:E; [|done].
    apply Qle_bool_iff in E. lra.
Qed.

Lemma Qltb_ge (a b : Q) : Qltb a b = false <-> b <= a.
Proof.
  unfold Qltb. rewrite negb_false_iff. apply Qle_bool_iff.
Qed.

Lemma truthy_neq (q : Q) : truthy q = true <-> ~ q == 0.
Proof.
  unfold truthy. rewrite negb_true_iff. split.
  - apply Qeq_bool_false_neq.
  - intros H. destruct (Qeq_bool q 0) eqn:E; [|done].
    apply Qeq_bool_iff in E. contradiction.
Qed.

Lemma Qdiv_2 (q : Q) : q / 2 == q * (1 # 2).
Proof. unfold Qdiv. reflexivity. Qed.

(** ** Rounding to binary64 *)

Section Binary64Facts.
Import Binary64.

Lemma two_neq_0 : ~ 2 == 0.
Proof. lra. Qed.

Lemma pow2_pos (e : Z) : 0 < 2 ^ e.
Proof. apply Qpower_0_lt. lra. Qed.

Lemma pow2_add (a b : Z) : 2 ^ (a + b) == 2 ^ a * 2 ^ b.
Proof. apply Qpower_plus, two_neq_0. Qed.

Lemma pow2_succ (a : Z) : 2 ^ (a + 1) == 2 * 2 ^ a.
Proof. rewrite pow2_add. change (2 ^ 1) with 2. ring. Qed.

Lemma pow2_Z (n : Z) : (0 <= n)%Z -> 2 ^ n == inject_Z (2 ^ n).
Proof. intros H. symmetry. now apply (Zpower_Qpower 2). Qed.

Lemma pow2_le (a b : Z) : (a <= b)%Z -> 2 ^ a <= 2 ^ b.
Proof. intros H. apply Qpower_le_compat_l; [exact H | lra]. Qed.

Lemma pow2_lt_inv (a b : Z) : 2 ^ a < 2 ^ b -> (a < b)%Z.
Proof. intros H. apply (Qpower_lt_compat_l_inv 2); [exact H | lra]. Qed.

(** A quotient by a power of two and the product undo each other. *)
Lemma pow2_cancel (q : Q) (e : Z) : q / 2 ^ e * 2 ^ e == q.
Proof. pose proof (pow2_pos e). field. lra. Qed.

Lemma Qabs_fraction (q : Q) :
  Qabs q * inject_Z (Zpos (Qden q)) == inject_Z (Z.abs (Qnum q)).
Proof.
  destruct q as [n d]. unfold Qabs, Qeq, Qmult, inject_Z. cbn. lia.
Qed.

Lemma log2_bounds (n : Z) :
  (0 < n)%Z -> 2 ^ Z.log2 n <= inject_Z n < 2 * 2 ^ Z.log2 n.
Proof.
  intros Hn. pose proof (Z.log2_nonneg n) as H0.
  destruct (Z.log2_spec n Hn) as [Hlo Hhi].
  rewrite <- pow2_succ, !pow2_Z by lia.
  rewrite <- Zle_Qle, <- Zlt_Qlt. unfold Z.succ in Hhi. lia.
Qed.

Lemma exponent_spec (q : Q) :
  ~ q == 0 -> 2 ^ exponent q <= Qabs q < 2 ^ (exponent q + 1).
Proof.
  intros Hq. unfold exponent.
  set (n := Z.abs (Qnum q)). set (d := Zpos (Qden q)).
  assert (Hn : (0 < n)%Z).
  { unfold n. destruct q as [[|p|p] dq]; cbn; try lia.
    exfalso. apply Hq. reflexivity. }
  assert (Hd : (0 < d)%Z) by (unfold d; lia).
  pose proof (Qabs_fraction q) as Hfrac. fold n d in Hfrac.
  destruct (log2_bounds n Hn) as [Hn1 Hn2].
  destruct (log2_bounds d Hd) as [Hd1 Hd2].
  pose proof (pow2_pos (Z.log2 n)) as Ha.
  pose proof (pow2_pos (Z.log2 d)) as Hb.
  pose proof (Qabs_nonneg q) as Hx.
  set (e := (Z.log2 n - Z.log2 d)%Z).
  assert (He : 2 ^ e * 2 ^ Z.log2 d == 2 ^ Z.log2 n).
  { rewrite <- pow2_add. unfold e. now replace (Z.log2 n - Z.log2 d + Z.log2 d)%Z
      with (Z.log2 n) by lia. }
  assert (Hup : Qabs q < 2 * 2 ^ e).
  { pose proof (pow2_pos e). nra. }
  assert (Hlow : 2 ^ e < 2 * Qabs q).
  { pose proof (pow2_pos e). nra. }
  destruct (Qle_bool (2 ^ e) (Qabs q)) eqn:E.
  - apply Qle_bool_iff in E. rewrite pow2_succ. split; [exact E | exact Hup].
  - assert (E' : Qabs q < 2 ^ e).
    { apply Qnot_le_lt. intros H. apply Qle_bool_iff in H. congruence. }
    replace (e - 1 + 1)%Z with e by lia.
    assert (Hh : 2 ^ e == 2 * 2 ^ (e - 1)).
    { rewrite <- pow2_succ. now replace (e - 1 + 1)%Z with e by lia. }
    split; [lra | exact E'].
Qed.

Lemma exponent_unique (q : Q) (k : Z) :
  2 ^ k <= Qabs q < 2 ^ (k + 1) -> exponent q = k.
Proof.
  intros [Hlo Hhi].
  assert (Hq : ~ q == 0).
  { intros E. rewrite E in Hlo. change (Qabs 0) with 0 in Hlo.
    pose proof (pow2_pos k). lra. }
  destruct (exponent_spec q Hq) as [Hlo' Hhi'].
  assert (exponent q < k + 1)%Z by (apply pow2_lt_inv; lra).
  assert (k < exponent q + 1)%Z by (apply pow2_lt_inv; lra).
  lia.
Qed.

Lemma exponent_mono (q1 q2 : Q) :
  0 < q1 -> q1 <= q2 -> (exponent q1 <= exponent q2)%Z.
Proof.
  intros H1 H12.
  destruct (exponent_spec q1) as [Hlo1 _]; [lra|].
  destruct (exponent_spec q2) as [_ Hhi2]; [lra|].
  rewrite Qabs_pos in Hlo1, Hhi2 by lra.
  assert (exponent q1 < exponent q2 + 1)%Z by (apply pow2_lt_inv; lra).
  lia.
Qed.

(** Rounding to the nearest integer. *)
Lemma nearestEven_floor (q : Q) :
  (Qfloor q <= nearestEven q <= Qfloor q + 1)%Z.
Proof.
  unfold nearestEven. destruct (Qcompare _ _); [destruct (Z.even _)| |]; lia.
Qed.

Lemma nearestEven_Z (z : Z) : nearestEven (inject_Z z) = z.
Proof.
  unfold nearestEven. rewrite Qfloor_Z.
  destruct (Qcompare_spec (inject_Z z - inject_Z z) (1 # 2)) as [H|H|H];
    [lra | reflexivity | lra].
Qed.

Lemma nearestEven_mono (q1 q2 : Q) :
  q1 <= q2 -> (nearestEven q1 <= nearestEven q2)%Z.
Proof.
  intros H. pose proof (Qfloor_resp_le _ _ H) as Hf.
  pose proof (nearestEven_floor q1) as B1.
  pose proof (nearestEven_floor q2) as B2.
  destruct (Z.eq_dec (Qfloor q1) (Qfloor q2)) as [E|E]; [|lia].
  unfold nearestEven in *. rewrite <- E in *.
  set (f := Qfloor q1) in *.
  destruct (Qcompare_spec (q1 - inject_Z f) (1 # 2)) as [H1|H1|H1];
    destruct (Qcompare_spec (q2 - inject_Z f) (1 # 2)) as [H2|H2|H2];
    try destruct (Z.even f); try lia; lra.
Qed.

Lemma nearestEven_comp (q1 q2 : Q) :
  q1 == q2 -> nearestEven q1 = nearestEven q2.
Proof.
  intros H.
  pose proof (nearestEven_mono q1 q2 ltac:(lra)).
  pose proof (nearestEven_mono q2 q1 ltac:(lra)). lia.
Qed.

Lemma nearestEven_nonneg (q : Q) : 0 <= q -> (0 <= nearestEven q)%Z.
Proof.
  intros H. rewrite <- (nearestEven_Z 0). now apply nearestEven_mono.
Qed.

(** Rounding of a positive magnitude, before the overflow test. *)
Lemma ulpExponent_mono (q1 q2 : Q) :
  0 < q1 -> q1 <= q2 -> (ulpExponent q1 <= ulpExponent q2)%Z.
Proof.
  intros H1 H12. unfold ulpExponent.
  pose proof (exponent_mono q1 q2 H1 H12). lia.
Qed.

Lemma nearest_nonneg (q : Q) : 0 <= q -> 0 <= nearest q.
Proof.
  intros H. unfold nearest. pose proof (pow2_pos (ulpExponent q)) as Hu.
  assert (0 <= q / 2 ^ ulpExponent q) by (apply Qle_shift_div_l; lra).
  pose proof (nearestEven_nonneg _ H0) as Hn.
  assert (0 <= inject_Z (nearestEven (q / 2 ^ ulpExponent q)))
    by (change 0 with (inject_Z 0); now rewrite <- Zle_Qle).
  nra.
Qed.

(** A power of two that is a multiple of the unit in the last place bounds
    the rounded value as it bounds the number. *)
Lemma nearest_le_pow2 (q : Q) (k : Z) :
  (ulpExponent q <= k)%Z -> q <= 2 ^ k -> nearest q <= 2 ^ k.
Proof.
  intros Hk Hq. unfold nearest. set (u := ulpExponent q) in *.
  pose proof (pow2_pos u) as Hu.
  assert (Hs : 2 ^ k == inject_Z (2 ^ (k - u)) * 2 ^ u).
  { rewrite <- pow2_Z by lia. rewrite <- pow2_add.
    now replace (k - u + u)%Z with k by lia. }
  assert (Hle : q / 2 ^ u <= inject_Z (2 ^ (k - u))).
  { apply Qle_shift_div_r; [exact Hu|]. lra. }
  apply nearestEven_mono in Hle. rewrite nearestEven_Z in Hle.
  rewrite Zle_Qle in Hle. rewrite Hs. nra.
Qed.

Lemma nearest_ge_pow2 (q : Q) (k : Z) :
  (ulpExponent q <= k)%Z -> 2 ^ k <= q -> 2 ^ k <= nearest q.
Proof.
  intros Hk Hq. unfold nearest. set (u := ulpExponent q) in *.
  pose proof (pow2_pos u) as Hu.
  assert (Hs : 2 ^ k == inject_Z (2 ^ (k - u)) * 2 ^ u).
  { rewrite <- pow2_Z by lia. rewrite <- pow2_add.
    now replace (k - u + u)%Z with k by lia. }
  assert (Hle : inject_Z (2 ^ (k - u)) <= q / 2 ^ u).
  { apply Qle_shift_div_l; [exact Hu|]. lra. }
  apply nearestEven_mono in Hle. rewrite nearestEven_Z in Hle.
  rewrite Zle_Qle in Hle. rewrite Hs. nra.
Qed.

Lemma nearest_mono (q1 q2 : Q) :
  0 < q1 -> q1 <= q2 -> nearest q1 <= nearest q2.
Proof.
  intros H1 H12.
  pose proof (ulpExponent_mono q1 q2 H1 H12) as Hu.
  destruct (Z.eq_dec (ulpExponent q1) (ulpExponent q2)) as [E|E].
  - unfold nearest. rewrite E. set (u := ulpExponent q2).
    pose proof (pow2_pos u) as Hp.
    assert (Hle : q1 / 2 ^ u <= q2 / 2 ^ u).
    { apply Qle_shift_div_l; [exact Hp|]. rewrite pow2_cancel. exact H12. }
    apply nearestEven_mono in Hle. rewrite Zle_Qle in Hle. nra.
  - (* the numbers lie in different binades: a power of two separates them *)
    destruct (exponent_spec q1) as [_ Hhi1]; [lra|].
    destruct (exponent_spec q2) as [Hlo2 _]; [lra|].
    rewrite Qabs_pos in Hhi1, Hlo2 by lra.
    pose proof (exponent_mono q1 q2 H1 H12) as He.
    unfold ulpExponent in *.
    assert (Hlt : (exponent q1 < exponent q2)%Z) by lia.
    apply Qle_trans with (2 ^ exponent q2).
    + apply nearest_le_pow2; [unfold ulpExponent; lia|].
      pose proof (pow2_le (exponent q1 + 1) (exponent q2) ltac:(lia)). lra.
    + apply nearest_ge_pow2; [unfold ulpExponent; lia | exact Hlo2].
Qed.

(** Integers below [2^53] are doubles. *)
Lemma nearest_Z (z : Z) :
  (0 < z < 2 ^ 53)%Z -> nearest (inject_Z z) == inject_Z z.
Proof.
  intros [H0 H53].
  assert (Hl : (0 <= Z.log2 z < 53)%Z).
  { split; [apply Z.log2_nonneg|]. apply Z.log2_lt_pow2; lia. }
  assert (He : exponent (inject_Z z) = Z.log2 z).
  { apply exponent_unique. rewrite Qabs_pos
      by (change 0 with (inject_Z 0); rewrite <- Zle_Qle; lia).
    rewrite pow2_succ. apply log2_bounds. exact H0. }
  unfold nearest, ulpExponent. rewrite He.
  replace (Z.max (Z.log2 z - 52) (-1074)) with (- (52 - Z.log2 z))%Z by lia.
  set (k := (52 - Z.log2 z)%Z).
  assert (Hk : (0 <= k)%Z) by (unfold k; lia).
  assert (Hinv : 2 ^ (- k) * 2 ^ k == 1).
  { rewrite <- pow2_add. now replace (- k + k)%Z with 0%Z by lia. }
  pose proof (pow2_pos (- k)) as Hp.
  assert (Hq : inject_Z z / 2 ^ (- k) == inject_Z (z * 2 ^ k)).
  { rewrite inject_Z_mult, <- pow2_Z by exact Hk.
    apply Qmult_inj_r with (z := 2 ^ (- k)); [lra|].
    rewrite pow2_cancel. rewrite <- Qmult_assoc, (Qmult_comm (2 ^ k)), Hinv. ring. }
  rewrite (nearestEven_comp _ _ Hq), nearestEven_Z, inject_Z_mult.
  rewrite <- pow2_Z by exact Hk.
  rewrite <- Qmult_assoc, (Qmult_comm (2 ^ k)), Hinv. ring.
Qed.

Lemma round_zero (q : Q) : q == 0 -> round q = Finite 0.
Proof.
  intros H. unfold round. apply Qeq_bool_iff in H. now rewrite H.
Qed.

Lemma round_pos (q : Q) :
  0 < q ->
  round q = if Qle_bool (2 ^ 1024) (nearest q) then PlusInfinity
            else Finite (nearest q).
Proof.
  intros H. unfold round, roundMagnitude.
  destruct (Qeq_bool q 0) eqn:E; [apply Qeq_bool_iff in E; lra|].
  assert (Hle : Qle_bool 0 q = true) by (apply Qle_bool_iff; lra).
  rewrite Hle. now destruct (Qle_bool (2 ^ 1024) (nearest q)).
Qed.

Lemma round_neg (q : Q) :
  q < 0 ->
  round q = if Qle_bool (2 ^ 1024) (nearest (- q)) then MinusInfinity
            else Finite (- nearest (- q)).
Proof.
  intros H. unfold round, roundMagnitude.
  destruct (Qeq_bool q 0) eqn:E; [apply Qeq_bool_iff in E; lra|].
  destruct (Qle_bool 0 q) eqn:Hle; [apply Qle_bool_iff in Hle; lra|].
  now destruct (Qle_bool (2 ^ 1024) (nearest (- q))).
Qed.

(** A finite result has the sign of the number that was rounded. *)
Lemma round_sign (q r : Q) :
  round q = Finite r -> (0 <= q -> 0 <= r) /\ (q <= 0 -> r <= 0).
Proof.
  intros Hr.
  destruct (Qlt_le_dec 0 q) as [Hp|Hn].
  - rewrite round_pos in Hr by exact Hp.
    destruct (Qle_bool _ _); [discriminate|]. injection Hr as <-.
    pose proof (nearest_nonneg q ltac:(lra)). split; lra.
  - destruct (Qlt_le_dec q 0) as [Hlt|Hge].
    + rewrite round_neg in Hr by exact Hlt.
      destruct (Qle_bool _ _); [discriminate|]. injection Hr as <-.
      pose proof (nearest_nonneg (- q) ltac:(lra)). split; lra.
    + rewrite round_zero in Hr by lra. injection Hr as <-. split; lra.
Qed.

(** Rounding is monotone. *)
Lemma round_mono (q1 q2 r1 r2 : Q) :
  q1 <= q2 -> round q1 = Finite r1 -> round q2 = Finite r2 -> r1 <= r2.
Proof.
  intros H12 H1 H2.
  destruct (Qlt_le_dec 0 q1) as [Hp1|Hn1].
  - (* both positive *)
    rewrite round_pos in H1 by exact Hp1. rewrite round_pos in H2 by lra.
    destruct (Qle_bool _ (nearest q1)); [discriminate|].
    destruct (Qle_bool _ (nearest q2)); [discriminate|].
    injection H1 as <-. injection H2 as <-. now apply nearest_mono.
  - destruct (Qlt_le_dec q2 0) as [Hn2|Hp2].
    + (* both negative *)
      rewrite round_neg in H1 by lra. rewrite round_neg in H2 by exact Hn2.
      destruct (Qle_bool _ (nearest (- q1))); [discriminate|].
      destruct (Qle_bool _ (nearest (- q2))); [discriminate|].
      injection H1 as <-. injection H2 as <-.
      pose proof (nearest_mono (- q2) (- q1) ltac:(lra) ltac:(lra)). lra.
    + destruct (round_sign q1 r1 H1) as [_ Ha].
      destruct (round_sign q2 r2 H2) as [Hb _].
      specialize (Ha Hn1). specialize (Hb Hp2). lra.
Qed.

(** Between zero and a double, the rounded value is finite and lies
    between zero and that double. *)
Lemma round_between (q w : Q) :
  0 <= q <= w -> rounds_to w w ->
  exists r, round q = Finite r /\ 0 <= r <= w.
Proof.
  intros [H0 Hw] (w' & Hrw & Ew).
  destruct (Qlt_le_dec 0 q) as [Hp|Hz].
  - pose proof Hrw as Hrw'.
    rewrite round_pos in Hrw by lra. rewrite round_pos by exact Hp.
    destruct (Qle_bool (2 ^ 1024) (nearest w)) eqn:Eo; [discriminate|].
    injection Hrw as Hnw.
    pose proof (nearest_mono q w Hp Hw) as Hm.
    destruct (Qle_bool (2 ^ 1024) (nearest q)) eqn:Eq.
    + apply Qle_bool_iff in Eq.
      assert (Qle_bool (2 ^ 1024) (nearest w) = true)
        by (apply Qle_bool_iff; lra).
      congruence.
    + eexists. split; [reflexivity|].
      pose proof (nearest_nonneg q H0). rewrite Hnw in Hm. lra.
  - exists 0. rewrite round_zero by lra. split; [reflexivity | lra].
Qed.

Lemma rounds_to_Z (z : Z) :
  (0 <= z < 2 ^ 53)%Z -> rounds_to (inject_Z z) (inject_Z z).
Proof.
  intros [H0 H53]. destruct (Z.eq_dec z 0%Z) as [->|Hz].
  - exists 0. split; [reflexivity | reflexivity].
  - assert (Hp : 0 < inject_Z z)
      by (change 0 with (inject_Z 0); rewrite <- Zlt_Qlt; lia).
    pose proof (nearest_Z z ltac:(lia)) as Hn.
    exists (nearest (inject_Z z)). split; [|exact Hn].
    rewrite round_pos by exact Hp.
    destruct (Qle_bool (2 ^ 1024) (nearest (inject_Z z))) eqn:E;
      [|reflexivity].
    apply Qle_bool_iff in E. rewrite Hn in E.
    rewrite pow2_Z in E by lia. rewrite <- Zle_Qle in E.
    assert (2 ^ 53 < 2 ^ 1024)%Z by (apply Z.pow_lt_mono_r; lia). lia.
Qed.

(** Rounding depends on the value of a number only. *)
Lemma nearest_comp (q1 q2 : Q) :
  0 < q1 -> q1 == q2 -> nearest q1 == nearest q2.
Proof.
  intros H1 E.
  pose proof (nearest_mono q1 q2 H1 ltac:(lra)).
  pose proof (nearest_mono q2 q1 ltac:(lra) ltac:(lra)). lra.
Qed.

Lemma rounds_to_comp (q w : Q) :
  0 <= w -> q == w -> rounds_to w w -> rounds_to q w.
Proof.
  intros H0 E Hw.
  destruct (round_between q w ltac:(lra) Hw) as (r & Hr & Hr0 & Hr1).
  destruct Hw as (w' & Hw' & Ew).
  pose proof (round_mono w q w' r ltac:(lra) Hw' Hr).
  exists r. split; [exact Hr | lra].
Qed.

(** The negative of an integer below [2^53] is a double as well. *)
Lemma rounds_to_opp_Z (q : Q) (z : Z) :
  (0 < z < 2 ^ 53)%Z -> q == - inject_Z z -> rounds_to q (- inject_Z z).
Proof.
  intros Hz E.
  assert (Hp : 0 < inject_Z z)
    by (change 0 with (inject_Z 0); rewrite <- Zlt_Qlt; lia).
  assert (Hn : nearest (- q) == inject_Z z).
  { rewrite (nearest_comp (- q) (inject_Z z)) by lra. now apply nearest_Z. }
  exists (- nearest (- q)). split; [|lra].
  rewrite round_neg by lra.
  destruct (Qle_bool (2 ^ 1024) (nearest (- q))) eqn:Eo; [|reflexivity].
  apply Qle_bool_iff in Eo. rewrite Hn in Eo.
  rewrite pow2_Z in Eo by lia. rewrite <- Zle_Qle in Eo.
  assert (2 ^ 53 < 2 ^ 1024)%Z by (apply Z.pow_lt_mono_r; lia). lia.
Qed.

End Binary64Facts.

(** ** Playback clock *)

Section ClockFacts.
Import Playback PlaybackSpec PlaybackFacts.

Lemma frameIndex_advance (rd : RaceData.ty) (st : ty) :
  in_range rd st ->
  in_range rd (advance rd st)
  /\ (frameIndex st = (frames_length rd - 1)%Z ->
      frameIndex (advance rd st) = frameIndex st
      /\ isPlaying (advance rd st) = false)
  /\ ((frameIndex st < frames_length rd - 1)%Z ->
      frameIndex (advance rd st) = (frameIndex st + 1)%Z
      /\ isPlaying (advance rd st) = isPlaying st).
Proof.
  unfold in_range, advance. intros Hr.
  destruct (frames_length rd - 1 <=? frameIndex st)%Z eqn:E; simpl.
  - apply Z.leb_le in E. repeat split; try lia.
  - apply Z.leb_gt in E. repeat split; try lia.
Qed.

Lemma animate_frameIndex (rd : RaceData.ty) (time : Q) (st : ty) :
  (intervalElapsed rd time st = true ->
   frameIndex (animate rd time st) = frameIndex (advance rd st)
   /\ isPlaying (animate rd time st) = isPlaying (advance rd st)
   /\ interpolationProgress (animate rd time st) == 0)
  /\ (intervalElapsed rd time st = false ->
      frameIndex (animate rd time st) = frameIndex st
      /\ isPlaying (animate rd time st) = isPlaying st).
Proof.
  unfold intervalElapsed, animate, advance.
  destruct (frameInterval rd st) as [iv| | |]; simpl.
  - destruct (Qle_bool iv _); simpl; split; intros H; try discriminate.
    + destruct (frames_length rd - 1 <=? frameIndex st)%Z; simpl;
        repeat split; reflexivity.
    + split; reflexivity.
  - split; [discriminate | intros _; split; reflexivity].
  - split; [discriminate | intros _; split; reflexivity].
  - split; [discriminate | intros _; split; reflexivity].
Qed.

(** The quotient of the click handler for a bar of non-zero width. *)
Lemma div_by_width (offset rectWidth : Q) :
  ~ rectWidth == 0 ->
  Binary64.div offset rectWidth = Binary64.round (offset / rectWidth).
Proof.
  intros Hw. unfold Binary64.div, js_div.
  destruct (Qeq_bool rectWidth 0) eqn:E; [|reflexivity].
  apply Qeq_bool_iff in E. contradiction.
Qed.

Lemma last_index_double (rd : RaceData.ty) :
  (1 <= frames_length rd < 2 ^ 53)%Z ->
  0 <= inject_Z (frames_length rd - 1)
  /\ Binary64.rounds_to (inject_Z (frames_length rd - 1))
       (inject_Z (frames_length rd - 1)).
Proof.
  intros Hlen. split.
  - change 0 with (inject_Z 0). rewrite <- Zle_Qle. lia.
  - apply rounds_to_Z. lia.
Qed.

(** A pointer on the bar selects a frame of the session: no rounding
    takes the fraction below 0 or above 1, nor the product beyond the
    last index. *)
Lemma progressBarClick_on_bar (rd : RaceData.ty) (clientX rectLeft rectWidth : Q)
    (st : ty) :
  (1 <= frames_length rd < 2 ^ 53)%Z ->
  0 < rectWidth -> Binary64.rounds_to rectWidth rectWidth ->
  rectLeft <= clientX <= rectLeft + rectWidth ->
  exists st', progressBarClick rd clientX rectLeft rectWidth st = Some st'
              /\ in_range rd st'.
Proof.
  intros Hlen Hw Hdouble [Hl Hr].
  destruct (last_index_double rd Hlen) as [HN HNd].
  unfold progressBarClick, Binary64.sub, Binary64.mul.
  destruct (round_between (clientX - rectLeft) rectWidth ltac:(lra) Hdouble)
    as (offset & -> & Ho0 & Ho1).
  rewrite div_by_width by lra.
  assert (H1 : Binary64.rounds_to 1 1) by (apply (rounds_to_Z 1); lia).
  destruct (round_between (offset / rectWidth) 1) as (percent & -> & Hp0 & Hp1);
    [split; [apply Qle_shift_div_l | apply Qle_shift_div_r]; lra | exact H1 |].
  destruct (round_between (percent * inject_Z (frames_length rd - 1))
              (inject_Z (frames_length rd - 1)) ltac:(nra) HNd)
    as (target & -> & Ht0 & Ht1).
  eexists; split; [reflexivity|].
  unfold in_range, setFrameIndex; cbn [frameIndex]. split.
  - change 0%Z with (Qfloor (inject_Z 0)). now apply Qfloor_resp_le.
  - rewrite <- (Qfloor_Z (frames_length rd - 1)). now apply Qfloor_resp_le.
Qed.

(** A click at the left edge selects the first frame. *)
Lemma progressBarClick_left (rd : RaceData.ty) (rectLeft rectWidth : Q)
    (st : ty) :
  ~ rectWidth == 0 ->
  progressBarClick rd rectLeft rectLeft rectWidth st
  = Some (setFrameIndex 0%Z st).
Proof.
  intros Hw. unfold progressBarClick, Binary64.sub, Binary64.mul.
  rewrite (round_zero (rectLeft - rectLeft)) by ring.
  rewrite div_by_width by exact Hw.
  rewrite (round_zero (0 / rectWidth)) by (unfold Qdiv; ring).
  rewrite (round_zero (0 * _)) by ring. reflexivity.
Qed.

(** A click whose distance from the left edge is the width of the bar
    selects the last frame. *)
Lemma progressBarClick_right (rd : RaceData.ty) (clientX rectLeft rectWidth : Q)
    (st : ty) :
  (1 <= frames_length rd < 2 ^ 53)%Z ->
  0 < rectWidth -> Binary64.rounds_to rectWidth rectWidth ->
  clientX - rectLeft == rectWidth ->
  progressBarClick rd clientX rectLeft rectWidth st
  = Some (setFrameIndex (frames_length rd - 1)%Z st).
Proof.
  intros Hlen Hw Hdouble Hx.
  destruct (last_index_double rd Hlen) as [HN HNd].
  unfold progressBarClick, Binary64.sub, Binary64.mul.
  destruct (rounds_to_comp (clientX - rectLeft) rectWidth ltac:(lra) Hx Hdouble)
    as (offset & -> & Ho).
  rewrite div_by_width by lra.
  assert (H1 : Binary64.rounds_to 1 1) by (apply (rounds_to_Z 1); lia).
  destruct (rounds_to_comp (offset / rectWidth) 1 ltac:(lra)) as (percent & -> & Hp);
    [rewrite Ho; field; lra | exact H1 |].
  destruct (rounds_to_comp (percent * inject_Z (frames_length rd - 1))
              (inject_Z (frames_length rd - 1)) HN) as (target & -> & Ht);
    [rewrite Hp; ring | exact HNd |].
  rewrite (Qfloor_comp _ _ Ht), Qfloor_Z. reflexivity.
Qed.

(** The selected frame is monotone in the position of the pointer. *)
Lemma progressBarClick_mono (rd : RaceData.ty) (x1 x2 rectLeft rectWidth : Q)
    (st st1 st2 : ty) :
  (1 <= frames_length rd)%Z -> 0 < rectWidth -> x1 <= x2 ->
  progressBarClick rd x1 rectLeft rectWidth st = Some st1 ->
  progressBarClick rd x2 rectLeft rectWidth st = Some st2 ->
  (frameIndex st1 <= frameIndex st2)%Z.
Proof.
  intros Hlen Hw Hx. unfold progressBarClick, Binary64.sub, Binary64.mul.
  destruct (Binary64.round (x1 - rectLeft)) as [o1| | |] eqn:Ho1; try discriminate.
  destruct (Binary64.round (x2 - rectLeft)) as [o2| | |] eqn:Ho2; try discriminate.
  rewrite !div_by_width by lra.
  destruct (Binary64.round (o1 / rectWidth)) as [p1| | |] eqn:Hp1; try discriminate.
  destruct (Binary64.round (o2 / rectWidth)) as [p2| | |] eqn:Hp2; try discriminate.
  destruct (Binary64.round (p1 * _)) as [t1| | |] eqn:Ht1; try discriminate.
  destruct (Binary64.round (p2 * _)) as [t2| | |] eqn:Ht2; try discriminate.
  intros [= <-] [= <-]. cbn [frameIndex setFrameIndex].
  assert (HN : 0 <= inject_Z (frames_length rd - 1))
    by (change 0 with (inject_Z 0); rewrite <- Zle_Qle; lia).
  pose proof (round_mono (x1 - rectLeft) (x2 - rectLeft) o1 o2
                ltac:(lra) Ho1 Ho2) as Ho.
  assert (Hq : o1 / rectWidth <= o2 / rectWidth).
  { apply Qle_shift_div_l; [exact Hw|].
    assert (E : o1 / rectWidth * rectWidth == o1) by (field; lra). lra. }
  pose proof (round_mono _ _ _ _ Hq Hp1 Hp2) as Hp.
  assert (Hm : p1 * inject_Z (frames_length rd - 1)
               <= p2 * inject_Z (frames_length rd - 1)) by nra.
  pose proof (round_mono _ _ _ _ Hm Ht1 Ht2) as Ht.
  now apply Qfloor_resp_le.
Qed.

End ClockFacts.

Section ClockClaims.
Import Playback PlaybackSpec PlaybackFacts.

(** C3: the progress bar's click handler seeks without a clamp, where
    the claim has every seek clamped into [0, frames.length - 1].  A click
    whose [clientX] is 32 pixels left of a bar 1000 pixels wide moves a
    101-frame session to frame -4, and a click at the integer pixel 32 on
    a bar that starts at 32.5 moves it to frame -1; a pointer one bar
    width left of the bar moves any session of at least two frames to the
    negative of its last index, and a pointer one bar width right of the
    bar's right edge to twice the last index.  The seek of the
    specification and the sibling handlers (arrow keys, rewind and
    fast-forward buttons) clamp the same targets. *)
Theorem progress_bar_click_is_not_clamped
    (rd : RaceData.ty) (st : Playback.ty) :
  (frames_length rd = 101%Z ->
   (exists st',
      step rd (ProgressBarClick 0 32 1000) st = Some st'
      /\ frameIndex st' = (-4)%Z /\ ~ in_range rd st'
      /\ frameIndex (seek rd (-4) st) = 0%Z)
   /\ (exists st',
         step rd (ProgressBarClick 32 32.5 1000) st = Some st'
         /\ frameIndex st' = (-1)%Z /\ ~ in_range rd st'))
  /\ ((2 <= frames_length rd < 2 ^ 52)%Z ->
      (exists st',
         step rd (ProgressBarClick 0 1000 1000) st = Some st'
         /\ frameIndex st' = (- (frames_length rd - 1))%Z
         /\ ~ in_range rd st')
      /\ (exists st',
            step rd (ProgressBarClick 2000 0 1000) st = Some st'
            /\ frameIndex st' = (2 * (frames_length rd - 1))%Z
            /\ ~ in_range rd st')
      /\ in_range rd (seek rd (- (frames_length rd - 1)) st)
      /\ in_range rd (seek rd (2 * (frames_length rd - 1)) st))
  /\ (0 <= frameIndex (handleKeyDown (Some rd) ArrowLeft st))%Z
  /\ (0 <= frameIndex (rewindButton st))%Z
  /\ ((1 <= frames_length rd)%Z ->
      (frameIndex (handleKeyDown (Some rd) ArrowRight st)
       <= frames_length rd - 1)%Z
      /\ (frameIndex (fastForwardButton rd st) <= frames_length rd - 1)%Z).
Proof.
  split; [|split; [|split; [|split]]].
  - intros Hlen.
    assert (E : progressBarClick rd 0 32 1000 st = Some (setFrameIndex (-4)%Z st)).
    { unfold progressBarClick. rewrite Hlen. vm_compute. reflexivity. }
    assert (E' : progressBarClick rd 32 32.5 1000 st
                 = Some (setFrameIndex (-1)%Z st)).
    { unfold progressBarClick. rewrite Hlen. vm_compute. reflexivity. }
    split.
    + exists (setFrameIndex (-4)%Z st). cbn [step]. split; [exact E|].
      split; [reflexivity|]. unfold in_range, seek. cbn [frameIndex setFrameIndex
        setInterpolationProgress]. split; lia.
    + exists (setFrameIndex (-1)%Z st). cbn [step]. split; [exact E'|].
      split; [reflexivity|]. unfold in_range. cbn [frameIndex setFrameIndex]. lia.
  - intros Hlen.
    set (N := (frames_length rd - 1)%Z).
    assert (HN : (0 < N < 2 ^ 52)%Z) by (unfold N; lia).
    assert (H52 : (2 ^ 52 < 2 ^ 53)%Z) by (apply Z.pow_lt_mono_r; lia).
    split; [|split; [|split]].
    + cbn [step]. unfold progressBarClick, Binary64.sub, Binary64.mul.
      destruct (rounds_to_opp_Z (0 - 1000) 1000) as (offset & -> & Ho);
        [lia | reflexivity |].
      rewrite div_by_width by lra.
      destruct (rounds_to_opp_Z (offset / 1000) 1) as (percent & -> & Hp);
        [lia | rewrite Ho; reflexivity |].
      fold N.
      destruct (rounds_to_opp_Z (percent * inject_Z N) N) as (target & -> & Ht);
        [lia | rewrite Hp; ring |].
      eexists. split; [reflexivity|]. cbn [frameIndex setFrameIndex].
      rewrite <- inject_Z_opp in Ht. rewrite (Qfloor_comp _ _ Ht), Qfloor_Z.
      split; [reflexivity|]. unfold in_range.
      cbn [frameIndex setFrameIndex]. lia.
    + cbn [step]. unfold progressBarClick, Binary64.sub, Binary64.mul.
      destruct (rounds_to_comp (2000 - 0) 2000) as (offset & -> & Ho);
        [lra | reflexivity | apply (rounds_to_Z 2000); lia |].
      rewrite div_by_width by lra.
      destruct (rounds_to_comp (offset / 1000) 2) as (percent & -> & Hp);
        [lra | rewrite Ho; reflexivity | apply (rounds_to_Z 2); lia |].
      fold N.
      destruct (rounds_to_comp (percent * inject_Z N) (inject_Z (2 * N)))
        as (target & -> & Ht);
        [change 0 with (inject_Z 0); rewrite <- Zle_Qle; lia
        | rewrite Hp, inject_Z_mult; reflexivity
        | apply rounds_to_Z; lia |].
      eexists. split; [reflexivity|]. cbn [frameIndex setFrameIndex].
      rewrite (Qfloor_comp _ _ Ht), Qfloor_Z.
      split; [reflexivity|]. unfold in_range.
      cbn [frameIndex setFrameIndex]. lia.
    + unfold in_range, seek. cbn [frameIndex setFrameIndex
        setInterpolationProgress]. lia.
    + unfold in_range, seek. cbn [frameIndex setFrameIndex
        setInterpolationProgress]. lia.
  - cbn. lia.
  - cbn. lia.
  - intros Hlen.
    assert (Hlast : lastIndexOr0 (Some rd) = (frames_length rd - 1)%Z).
    { unfold lastIndexOr0. destruct (frames_length rd =? 0)%Z eqn:E; [|done].
      apply Z.eqb_eq in E. lia. }
    cbn [handleKeyDown fastForwardButton frameIndex setFrameIndex].
    rewrite Hlast. lia.
Qed.

(** C3 on the 101-frame session in its initial state: the click moves
    the clock to frame -4. *)
Lemma progress_bar_click_witness :
  exists st',
    step (Examples.session 101) (ProgressBarClick 0 32 1000) initial = Some st'
    /\ frameIndex st' = (-4)%Z
    /\ ~ in_range (Examples.session 101) st'.
Proof.
  destruct (progress_bar_click_is_not_clamped (Examples.session 101) initial)
    as (H & _).
  destruct (H eq_refl) as ((st' & Hstep & Hidx & Hout & _) & _).
  exists st'. split; [exact Hstep|]. split; [exact Hidx | exact Hout].
Defined.

(** With at least one frame loaded and the frame index in
    [0, frames.length - 1], every keyboard and button seek, and every
    progress-bar click whose pointer lies on the bar, succeeds and leaves
    the index in that range; the relative seeks land on the clamped
    target; a tick of a running clock whose frame interval has elapsed
    advances by one frame below the last index and, at the last index,
    keeps the index and stops playback. *)
Theorem frame_index_stays_in_range
    (rd : RaceData.ty) (st : Playback.ty) (ev : Event) :
  (1 <= frames_length rd < 2 ^ 53)%Z ->
  in_range rd st ->
  pointer_on_bar ev ->
  exists st',
    step rd ev st = Some st'
    /\ in_range rd st'
    /\ (ev = KeyDown ArrowRight ->
        frameIndex st' = Z.min (frameIndex st + 10) (frames_length rd - 1))
    /\ (ev = KeyDown ArrowLeft ->
        frameIndex st' = Z.max (frameIndex st - 10) 0)
    /\ (ev = FastForwardClick ->
        frameIndex st' = Z.min (frameIndex st + 50) (frames_length rd - 1))
    /\ (ev = RewindClick ->
        frameIndex st' = Z.max (frameIndex st - 50) 0)
    /\ (forall time, ev = AnimationFrame time ->
        isPlaying st = true -> intervalElapsed rd time st = true ->
        if decide (frameIndex st = frames_length rd - 1)%Z
        then frameIndex st' = frameIndex st /\ isPlaying st' = false
        else frameIndex st' = (frameIndex st + 1)%Z /\ isPlaying st' = true).
Proof.
  intros Hlen Hr Hptr.
  assert (Hlast : lastIndexOr0 (Some rd) = (frames_length rd - 1)%Z).
  { unfold lastIndexOr0. destruct (frames_length rd =? 0)%Z eqn:E; [|done].
    apply Z.eqb_eq in E. lia. }
  destruct ev as [e| | | | | |clientX rectLeft rectWidth|time];
    cbn [step pointer_on_bar] in *.
  - (* handleKeyDown *)
    eexists; split; [reflexivity|].
    unfold in_range in *.
    destruct e; cbn [handleKeyDown frameIndex setFrameIndex setIsPlaying
                     setPlaybackSpeed]; rewrite ?Hlast;
      repeat split; try lia; try discriminate;
      intros; congruence.
  - eexists; split; [reflexivity|]. unfold in_range in *.
    cbn. repeat split; try lia; try discriminate.
  - eexists; split; [reflexivity|]. unfold in_range in *.
    cbn. repeat split; try lia; try discriminate.
  - eexists; split; [reflexivity|]. unfold in_range in *.
    cbn. repeat split; try lia; try discriminate.
  - eexists; split; [reflexivity|]. unfold in_range in *.
    cbn [fastForwardButton frameIndex setFrameIndex].
    repeat split; try lia; try discriminate.
  - eexists; split; [reflexivity|]. unfold in_range in *.
    cbn. repeat split; try lia; try discriminate.
  - destruct Hptr as (Hw & Hdouble & Hin).
    destruct (progressBarClick_on_bar rd clientX rectLeft rectWidth st
                Hlen Hw Hdouble Hin)
      as (st' & Hst' & Hr').
    exists st'. repeat split; try discriminate; try apply Hr'. exact Hst'.
  - eexists; split; [reflexivity|].
    destruct (frameIndex_advance rd st Hr) as (Ha & Hsat & Hadv).
    destruct (animate_frameIndex rd time st) as (Hel & Hnot).
    split.
    + destruct (isPlaying st); [|exact Hr].
      destruct (intervalElapsed rd time st).
      * destruct (Hel eq_refl) as (Hf & _). unfold in_range in *. now rewrite Hf.
      * destruct (Hnot eq_refl) as (Hf & _). unfold in_range in *. now rewrite Hf.
    + repeat split; try discriminate.
      intros time' Hev Hplay Hdue. injection Hev as <-.
      rewrite Hplay. destruct (Hel Hdue) as (Hf & Hp & _).
      rewrite Hf, Hp. case_decide as Hd.
      * destruct (Hsat Hd) as [-> ->]. done.
      * unfold in_range in Hr. destruct Hadv as [-> ->]; [lia|]. done.
Qed.

(** A progress-bar click in the middle of the bar of a five-frame
    session. *)
Lemma frame_index_stays_in_range_witness :
  exists st',
    step (Examples.session 5) (ProgressBarClick 532 32 1000)
      (Examples.playingAt 4 1) = Some st'
    /\ in_range (Examples.session 5) st'.
Proof.
  destruct (frame_index_stays_in_range (Examples.session 5)
              (Examples.playingAt 4 1) (ProgressBarClick 532 32 1000))
    as (st' & Hstep & Hrange & _).
  - vm_compute. split; [discriminate | reflexivity].
  - unfold in_range. vm_compute. split; discriminate.
  - cbn [pointer_on_bar]. split; [reflexivity|]. split.
    + eexists. split; vm_compute; reflexivity.
    + split; vm_compute; discriminate.
  - exists st'. split; assumption.
Defined.

(** The saturating tick on a concrete run: the last frame of a five-frame
    session is kept and playback stops. *)
Example tick_at_last_frame :
  let st := animate (Examples.session 5) 60
              (setLastTime 10 (Examples.playingAt 4 1)) in
  frameIndex st = 4%Z /\ isPlaying st = false.
Proof. vm_compute. split; reflexivity. Qed.

Lemma keyboard_speed_in_range (op : SpeedOp) (st : Playback.ty) :
  is_keyboard op = true -> speed_in_range st -> speed_in_range (speedOp op st).
Proof.
  unfold speed_in_range. intros Hk [Hlo Hhi].
  destruct op; try discriminate;
    cbn [speedOp handleKeyDown playbackSpeed setPlaybackSpeed].
  - split; [apply Q.min_glb; lra | apply Q.le_min_r].
  - pose proof (Qdiv_2 (playbackSpeed st)) as Hd.
    split; [apply Q.le_max_r | apply Q.max_lub; lra].
Qed.

Lemma standard_speed_in_range (st : Playback.ty) :
  standard_speed st -> speed_in_range st.
Proof.
  unfold standard_speed, speed_in_range.
  intros [H|[H|[H|[H|H]]]]; rewrite H; split; lra.
Qed.

(** Picks the disjunct of [standard_speed] that linear arithmetic proves. *)
Ltac pick_speed :=
  first [ left; lra | right; left; lra | right; right; left; lra
        | right; right; right; left; lra | right; right; right; right; lra ].

Lemma standard_speed_preserved (op : SpeedOp) (st : Playback.ty) :
  standard_speed st -> standard_speed (speedOp op st).
Proof.
  unfold standard_speed.
  destruct op; cbn [speedOp handleKeyDown speedButton playbackSpeed
                    setPlaybackSpeed]; intros Hs.
  - destruct (Q.min_spec_le (playbackSpeed st * 2) 8) as [[Hc ->]|[Hc ->]];
      destruct Hs as [H|[H|[H|[H|H]]]]; pick_speed.
  - pose proof (Qdiv_2 (playbackSpeed st)) as Hd.
    destruct (Q.max_spec_le (playbackSpeed st / 2) 0.5) as [[Hc ->]|[Hc ->]];
      destruct Hs as [H|[H|[H|[H|H]]]]; pick_speed.
  - destruct (Qeq_bool (playbackSpeed st) 8) eqn:E.
    + left. reflexivity.
    + apply Qeq_bool_false_neq in E.
      destruct Hs as [H|[H|[H|[H|H]]]]; first [contradiction | pick_speed].
Qed.

(** C4, the statement as written fails: from the speed 5, which lies in
    [0.5, 8], one press of the cycling speed button gives 10. *)
Lemma speed_button_leaves_range :
  speed_in_range (Examples.playingAt 0 5)
  /\ playbackSpeed (speedOps [Cycling] (Examples.playingAt 0 5)) == 10
  /\ ~ speed_in_range (speedOps [Cycling] (Examples.playingAt 0 5)).
Proof.
  unfold speed_in_range. cbn. split; [lra|]. split; [reflexivity|].
  intros [_ H]. revert H. vm_compute. congruence.
Qed.

(** C4 (amended): every sequence of keyboard doublings and halvings keeps
    a speed of [0.5, 8] within [0.5, 8]; every sequence of doublings,
    halvings and presses of the cycling button keeps the speed within
    [0.5, 8] when it starts from one of 0.5, 1, 2, 4, 8, the speeds that
    the initial speed 1 can reach. *)
Theorem speed_stays_in_range (ops : list SpeedOp) (st : Playback.ty) :
  (speed_in_range st /\ forallb is_keyboard ops = true) \/ standard_speed st ->
  speed_in_range (speedOps ops st).
Proof.
  unfold speedOps. revert st.
  induction ops as [|op ops IH]; intros st H; cbn [foldl].
  - destruct H as [[H _]|H]; [exact H | now apply standard_speed_in_range].
  - apply IH. destruct H as [[Hr Hk]|Hs].
    + cbn [forallb] in Hk. apply andb_true_iff in Hk as [Hop Hk].
      left. split; [now apply keyboard_speed_in_range | exact Hk].
    + right. now apply standard_speed_preserved.
Qed.

(** The amended C4 applies to the initial clock and a mixed sequence that
    cycles through every speed. *)
Lemma speed_stays_in_range_witness :
  speed_in_range
    (speedOps [Cycling; Cycling; Cycling; Cycling; Doubling; Halving; Cycling]
       initial).
Proof.
  apply speed_stays_in_range. right.
  unfold standard_speed. right; left. reflexivity.
Defined.

(** C5: on a session of exactly one frame the progress percentage is
    computed as [0 / 0 * 100]; the division by [frames.length - 1] is not
    guarded. *)
Theorem progress_one_frame_divides_by_zero
    (rd : RaceData.ty) (st : Playback.ty) :
  frames_length rd = 1%Z -> frameIndex st = 0%Z -> progress rd st = NaN.
Proof.
  intros Hlen Hidx. unfold progress. rewrite Hlen, Hidx. reflexivity.
Qed.

(** C5 on the one-frame session in its initial state. *)
Lemma progress_one_frame_witness :
  progress (Examples.session 1) initial = NaN.
Proof.
  apply progress_one_frame_divides_by_zero; reflexivity.
Defined.

(** Sessions of any other length, the empty one included, give a finite
    percentage. *)
Lemma progress_finite (rd : RaceData.ty) (st : Playback.ty) :
  frames_length rd <> 1%Z -> is_finite (progress rd st) = true.
Proof.
  intros Hlen. unfold progress, js_div.
  destruct (Qeq_bool (inject_Z (frames_length rd - 1)) 0) eqn:E; [|reflexivity].
  apply Qeq_bool_iff in E. unfold Qeq in E. cbn in E. lia.
Qed.

(** C9: the restart button resets the frame index and leaves [isPlaying]
    as it is, whereas the R key, like [seek(0)] followed by [pause()],
    also stops playback; on a running clock the button therefore differs
    from [seek(0)] followed by [pause()]. *)
Theorem restart_button_does_not_pause (rd : RaceData.ty) (st : Playback.ty) :
  (frameIndex (handleKeyDown (Some rd) KeyR st) = frameIndex (restart rd st)
   /\ isPlaying (handleKeyDown (Some rd) KeyR st) = isPlaying (restart rd st))
  /\ frameIndex (restartButton st) = 0%Z
  /\ isPlaying (restartButton st) = isPlaying st
  /\ isPlaying (restart rd st) = false
  /\ isPlaying (restartButton (Examples.playingAt 5 1)) = true.
Proof.
  cbn. repeat split; lia.
Qed.

End ClockClaims.

(** ** Sorting and object lookups *)

Section SortFacts.
Context {A : Type} (leb : A -> A -> bool).

Lemma elem_of_sort_insert (a x : A) (l : list A) :
  x ∈ sort_insert leb a l <-> x = a \/ x ∈ l.
Proof.
  induction l as [|b l IH]; cbn [sort_insert].
  - rewrite elem_of_cons. reflexivity.
  - destruct (leb a b).
    + rewrite elem_of_cons. reflexivity.
    + rewrite !elem_of_cons, IH. tauto.
Qed.

Lemma elem_of_stable_sort (x : A) (l : list A) :
  x ∈ stable_sort leb l <-> x ∈ l.
Proof.
  unfold stable_sort. induction l as [|a l IH]; cbn [foldr].
  - reflexivity.
  - rewrite elem_of_sort_insert, elem_of_cons, IH. reflexivity.
Qed.

Lemma length_sort_insert (a : A) (l : list A) :
  length (sort_insert leb a l) = S (length l).
Proof.
  induction l as [|b l IH]; cbn [sort_insert]; [reflexivity|].
  destruct (leb a b); cbn [length]; [reflexivity | now rewrite IH].
Qed.
End SortFacts.

Lemma obj_get_elem_of {V : Type} (o : list (string * V)) (k : string) (v : V) :
  obj_get o k = Some v -> (k, v) ∈ o.
Proof.
  induction o as [|[k' v'] o IH]; cbn [obj_get]; [discriminate|].
  case_decide as Hk.
  - intros [= ->]. subst. apply elem_of_cons. now left.
  - intros H. apply elem_of_cons. right. now apply IH.
Qed.

Lemma obj_get_key {V : Type} (o : list (string * V)) (k : string) (v : V) :
  obj_get o k = Some v -> k ∈ obj_keys o.
Proof.
  intros H. apply obj_get_elem_of in H. unfold obj_keys.
  apply list_elem_of_fmap. exists (k, v). split; [reflexivity | exact H].
Qed.

(** ** Interpolated driver positions *)

Section RenderFacts.
Import Render RenderSpec.

Lemma interp_lerp (a b f : Q) : interp a b f == lerp a b f.
Proof. unfold interp, lerp. ring. Qed.

Lemma interp_start (a b : Q) : interp a b 0 == a.
Proof. unfold interp. ring. Qed.

Lemma interp_hold (a f : Q) : interp a a f == a.
Proof. unfold interp. ring. Qed.

(** Close to the end of the interval the interpolated coordinate is
    close to the coordinate of the next frame. *)
Lemma interp_near_end (a b eps : Q) :
  0 < eps ->
  exists delta, 0 < delta
    /\ forall f, 1 - delta < f < 1 -> Qabs (interp a b f - b) < eps.
Proof.
  intros Heps.
  pose proof (Qabs_nonneg (a - b)) as HM.
  set (M := Qabs (a - b)) in *.
  assert (HD : ~ M + 1 == 0) by lra.
  exists (eps / (M + 1)).
  pose proof (Qmult_div_r eps (M + 1) HD) as Hmul.
  set (delta := eps / (M + 1)) in *.
  assert (Hdelta : 0 < delta).
  { destruct (Qlt_le_dec 0 delta) as [|Hle]; [assumption|]. nra. }
  split; [exact Hdelta|].
  intros f [Hlo Hhi].
  assert (E : interp a b f - b == (a - b) * (1 - f)) by (unfold interp; ring).
  rewrite E, Qabs_Qmult. fold M.
  rewrite (Qabs_pos (1 - f)) by lra.
  nra.
Qed.

Lemma drawDriver_code (next : option Frame.ty) (f : Q) (sel : option string)
    (frame : Frame.ty) (c : string) (d : Dot) :
  drawDriver next f sel frame c = Some d -> code d = c.
Proof.
  unfold drawDriver. destruct (obj_get (Frame.drivers frame) c); [|discriminate].
  intros [= <-]. reflexivity.
Qed.

Lemma dotOf_omap (draw : string -> option Dot) (keys : list string) (c : string) :
  (forall k d, draw k = Some d -> code d = k) ->
  c ∈ keys ->
  dotOf (omap draw keys) c = draw c.
Proof.
  intros Hcode. unfold dotOf.
  induction keys as [|k keys IH]; intros Hin.
  - now apply elem_of_nil in Hin.
  - cbn [omap list_omap]. destruct (decide (k = c)) as [->|Hne].
    + destruct (draw c) as [d|] eqn:Hd.
      * cbn [List.find]. rewrite bool_decide_eq_true_2 by eauto. reflexivity.
      * clear IH Hin. induction keys as [|k' keys IH']; [reflexivity|].
        cbn [omap list_omap]. destruct (draw k') as [d'|] eqn:Hd'; [|exact IH'].
        cbn [List.find]. case_bool_decide as Hc; [|exact IH'].
        pose proof (Hcode _ _ Hd') as Hk'. congruence.
    + apply elem_of_cons in Hin as [->|Hin]; [contradiction|].
      destruct (draw k) as [d|] eqn:Hd; [|now apply IH].
      cbn [List.find]. rewrite bool_decide_eq_false_2; [now apply IH|].
      apply Hcode in Hd. congruence.
Qed.

Lemma interpolated_eq (rd : RaceData.ty) (i : Z) (f : Q) (sel : option string)
    (c : string) (frame : Frame.ty) (pos : DriverPosition.ty) :
  array_get (RaceData.frames rd) i = Some frame ->
  obj_get (Frame.drivers frame) c = Some pos ->
  interpolated rd i f sel c =
    Some (interp (DriverPosition.x pos)
            (DriverPosition.x (nextPos (nextFrame rd i) c pos)) f,
          interp (DriverPosition.y pos)
            (DriverPosition.y (nextPos (nextFrame rd i) c pos)) f).
Proof.
  intros Hframe Hpos. unfold interpolated, drawDrivers. rewrite Hframe.
  rewrite dotOf_omap.
  - unfold drawDriver. rewrite Hpos. reflexivity.
  - intros k d. apply drawDriver_code.
  - unfold sortedDrivers. apply elem_of_stable_sort.
    eapply obj_get_key. exact Hpos.
Qed.

Lemma nextPos_present (rd : RaceData.ty) (i : Z) (c : string)
    (pos : DriverPosition.ty) (q : Q * Q) :
  rawPosition rd (nextIndex rd i) c = Some q ->
  (DriverPosition.x (nextPos (nextFrame rd i) c pos),
   DriverPosition.y (nextPos (nextFrame rd i) c pos)) = q.
Proof.
  unfold rawPosition, nextPos, nextFrame, nextIndex.
  destruct (array_get _ _) as [nf|]; [|discriminate].
  destruct (obj_get _ _) as [np|]; [|discriminate].
  now intros [= <-].
Qed.

Lemma nextPos_absent (rd : RaceData.ty) (i : Z) (c : string)
    (pos : DriverPosition.ty) :
  rawPosition rd (nextIndex rd i) c = None ->
  nextPos (nextFrame rd i) c pos = pos.
Proof.
  unfold rawPosition, nextPos, nextFrame, nextIndex.
  destruct (array_get _ _) as [nf|]; [|reflexivity].
  destruct (obj_get _ _) as [np|]; [discriminate | reflexivity].
Qed.

End RenderFacts.

Section RenderClaims.
Import Render RenderSpec.

(** C1: for a valid frame index [i] and a driver [c] with a sample [pos]
    in frame [i], the position drawn at fraction [f] is the linear
    interpolation between [pos] and the driver's sample in frame
    [min(i + 1, last)]; it is the raw position of frame [i] at [f = 0];
    it comes arbitrarily close to the raw position of the next frame as
    [f] approaches 1 from below; and when the driver has no sample in the
    next frame the position of frame [i] is held for every [f]. *)
Theorem interpolated_position_is_lerp
    (rd : RaceData.ty) (i : Z) (c : string)
    (frame : Frame.ty) (pos : DriverPosition.ty) :
  array_get (RaceData.frames rd) i = Some frame ->
  obj_get (Frame.drivers frame) c = Some pos ->
  exists nx ny : Q,
    (* the position drawn, for every fraction and selection *)
    (forall f sel,
        interpolated rd i f sel c =
          Some (interp (DriverPosition.x pos) nx f,
                interp (DriverPosition.y pos) ny f))
    /\ (forall f,
        interp (DriverPosition.x pos) nx f == lerp (DriverPosition.x pos) nx f
        /\ interp (DriverPosition.y pos) ny f == lerp (DriverPosition.y pos) ny f)
    (* the target is the sample of frame min(i+1, last), or [pos] itself *)
    /\ (forall q, rawPosition rd (nextIndex rd i) c = Some q -> (nx, ny) = q)
    /\ (rawPosition rd (nextIndex rd i) c = None ->
        nx = DriverPosition.x pos /\ ny = DriverPosition.y pos)
    (* f = 0 *)
    /\ (interp (DriverPosition.x pos) nx 0 == DriverPosition.x pos
        /\ interp (DriverPosition.y pos) ny 0 == DriverPosition.y pos)
    (* f -> 1 *)
    /\ (forall eps, 0 < eps ->
        exists delta, 0 < delta /\
          forall f, 1 - delta < f < 1 ->
            Qabs (interp (DriverPosition.x pos) nx f - nx) < eps
            /\ Qabs (interp (DriverPosition.y pos) ny f - ny) < eps)
    (* driver absent from the next frame *)
    /\ (rawPosition rd (nextIndex rd i) c = None ->
        forall f,
          interp (DriverPosition.x pos) nx f == DriverPosition.x pos
          /\ interp (DriverPosition.y pos) ny f == DriverPosition.y pos).
Proof.
  intros Hframe Hpos.
  exists (DriverPosition.x (nextPos (nextFrame rd i) c pos)),
         (DriverPosition.y (nextPos (nextFrame rd i) c pos)).
  split; [intros f sel; now apply (interpolated_eq rd i f sel c frame pos)|].
  split; [intros f; split; apply interp_lerp|].
  split; [intros q; apply nextPos_present|].
  split; [intros Habs; now rewrite (nextPos_absent rd i c pos Habs)|].
  split; [split; apply interp_start|].
  split.
  - intros eps Heps.
    destruct (interp_near_end (DriverPosition.x pos)
                (DriverPosition.x (nextPos (nextFrame rd i) c pos)) eps Heps)
      as (dx & Hdx & Hx).
    destruct (interp_near_end (DriverPosition.y pos)
                (DriverPosition.y (nextPos (nextFrame rd i) c pos)) eps Heps)
      as (dy & Hdy & Hy).
    exists (Qmin dx dy). split; [now apply Q.min_glb_lt|].
    intros f [Hlo Hhi].
    pose proof (Q.le_min_l dx dy). pose proof (Q.le_min_r dx dy).
    split; [apply Hx | apply Hy]; split; lra.
  - intros Habs f. rewrite (nextPos_absent rd i c pos Habs).
    split; apply interp_hold.
Qed.

(** C1 applies to the first frame of the two-car session: the leading car
    is half way to its next sample at [f = 1/2]. *)
Lemma interpolated_position_witness :
  exists nx ny : Q,
    interpolated Examples.twoCars 0 (1 # 2) None "VER" =
      Some (interp 0 nx (1 # 2), interp 0 ny (1 # 2))
    /\ (nx, ny) = (4, 2).
Proof.
  destruct (interpolated_position_is_lerp Examples.twoCars 0 "VER"
              (Frame.mk 0 1 [("VER"%string, Examples.sample 0 0 1 12);
                             ("HAM"%string, Examples.sample 10 0 2 9)])
              (Examples.sample 0 0 1 12))
    as (nx & ny & Hdraw & _ & Hnext & _).
  - reflexivity.
  - reflexivity.
  - exists nx, ny. split; [apply Hdraw | apply Hnext; reflexivity].
Defined.

(** The car that is missing from the next frame stays where it is. *)
Example absent_driver_held :
  interpolated Examples.twoCars 0 (3 # 4) None "HAM" = Some (10 + (10 - 10) * (3 # 4), 0 + (0 - 0) * (3 # 4)).
Proof. reflexivity. Qed.

End RenderClaims.

(** ** Team radio scheduler *)

Section RadioFactsProofs.
Import Radio RadioFacts.

Lemma inWindow_spec (now : Q) (clip : TeamRadioClip.ty) :
  inWindow now clip = true
  <-> TeamRadioClip.t clip <= now < TeamRadioClip.t clip + 3.
Proof.
  unfold inWindow. rewrite andb_true_iff, Qle_bool_iff, Qltb_lt. reflexivity.
Qed.

Lemma inWindow_window (now : Q) (clip : TeamRadioClip.ty) :
  inWindow now clip = true <-> window (TeamRadioClip.t clip) now.
Proof. apply inWindow_spec. Qed.

Lemma inWindow_outside (now : Q) (clip : TeamRadioClip.ty) :
  inWindow now clip = false <-> ~ window (TeamRadioClip.t clip) now.
Proof.
  rewrite <- inWindow_window. destruct (inWindow now clip); split;
    congruence.
Qed.

(** The first match, as the scan of the playback effect tests it. *)
Lemma firstMatch_scan (clips : list TeamRadioClip.ty) (playedSet : gset nat)
    (now : Q) (i : nat) :
  firstMatch clips playedSet now i
  <-> (i ∉ playedSet)
      /\ (exists clip, clips !! i = Some clip /\ inWindow now clip = true)
      /\ forall j cj, (j < i)%nat -> clips !! j = Some cj ->
           j ∈ playedSet \/ inWindow now cj = false.
Proof.
  unfold firstMatch. split.
  - intros (Hn & (clip & Hc & Hw) & Hearlier). split; [exact Hn|]. split.
    + exists clip. split; [exact Hc|]. now apply inWindow_window.
    + intros j cj Hj Hcj. destruct (Hearlier j cj Hj Hcj) as [H|H];
        [now left | right; now apply inWindow_outside].
  - intros (Hn & (clip & Hc & Hw) & Hearlier). split; [exact Hn|]. split.
    + exists clip. split; [exact Hc|]. now apply inWindow_window.
    + intros j cj Hj Hcj. destruct (Hearlier j cj Hj Hcj) as [H|H];
        [now left | right; now apply inWindow_outside].
Qed.

Lemma findClip_Some (playedSet : gset nat) (now : Q)
    (clips : list TeamRadioClip.ty) (base i : nat) (clip : TeamRadioClip.ty) :
  findClip playedSet now clips base = Some (i, clip) ->
  exists k, i = (base + k)%nat
    /\ clips !! k = Some clip
    /\ (i ∉ playedSet)
    /\ inWindow now clip = true
    /\ forall j cj, (j < k)%nat -> clips !! j = Some cj ->
         (base + j)%nat ∈ playedSet \/ inWindow now cj = false.
Proof.
  revert base. induction clips as [|c clips IH]; intros base; cbn [findClip].
  - discriminate.
  - case_bool_decide as Hp.
    + intros H. destruct (IH _ H) as (k & -> & Hk & Hn & Hw & Hearlier).
      exists (S k). split; [lia|]. split; [exact Hk|]. split; [exact Hn|].
      split; [exact Hw|].
      intros [|j] cj Hj Hcj.
      * injection Hcj as <-. left. now rewrite Nat.add_0_r.
      * replace (base + S j)%nat with (S base + j)%nat by lia.
        apply (Hearlier j cj); [lia | exact Hcj].
    + destruct (inWindow now c) eqn:Hw.
      * intros [= <- <-]. exists 0%nat. rewrite Nat.add_0_r.
        repeat split; try done. intros j cj Hj. lia.
      * intros H. destruct (IH _ H) as (k & -> & Hk & Hn & Hw' & Hearlier).
        exists (S k). split; [lia|]. split; [exact Hk|]. split; [exact Hn|].
        split; [exact Hw'|].
        intros [|j] cj Hj Hcj.
        -- injection Hcj as <-. now right.
        -- replace (base + S j)%nat with (S base + j)%nat by lia.
           apply (Hearlier j cj); [lia | exact Hcj].
Qed.

Lemma findClip_first (playedSet : gset nat) (now : Q)
    (clips : list TeamRadioClip.ty) (base k : nat) (clip : TeamRadioClip.ty) :
  clips !! k = Some clip ->
  (base + k)%nat ∉ playedSet ->
  inWindow now clip = true ->
  (forall j cj, (j < k)%nat -> clips !! j = Some cj ->
     (base + j)%nat ∈ playedSet \/ inWindow now cj = false) ->
  findClip playedSet now clips base = Some ((base + k)%nat, clip).
Proof.
  revert base k. induction clips as [|c clips IH]; intros base k Hk Hn Hw Hearlier.
  - discriminate.
  - cbn [findClip]. destruct k as [|k].
    + injection Hk as ->. rewrite Nat.add_0_r in *.
      rewrite bool_decide_eq_false_2 by exact Hn. now rewrite Hw.
    + assert (Hrest : findClip playedSet now clips (S base)
                      = Some ((base + S k)%nat, clip)).
      { replace (base + S k)%nat with (S base + k)%nat in * by lia.
        apply IH; [exact Hk | exact Hn | exact Hw |].
        intros j cj Hj Hcj.
        replace (S base + j)%nat with (base + S j)%nat by lia.
        apply (Hearlier (S j) cj); [lia | exact Hcj]. }
      destruct (Hearlier 0%nat c ltac:(lia) eq_refl) as [Hp|Hout].
      * rewrite Nat.add_0_r in Hp. now rewrite bool_decide_eq_true_2.
      * rewrite Hout. now case_bool_decide.
Qed.

Lemma elem_of_resetEffect (rd : RaceData.ty) (k : Z) (st : Radio.ty) (i : nat) :
  i ∈ played (resetEffect rd k st)
  <-> i ∈ played st /\ inFuture rd (currentTime rd k) i = false.
Proof.
  unfold resetEffect. cbn [played]. rewrite elem_of_filter. tauto.
Qed.

Lemma inFuture_clip (rd : RaceData.ty) (clips : list TeamRadioClip.ty)
    (now : Q) (i : nat) (clip : TeamRadioClip.ty) :
  RaceData.teamRadio rd = Some clips -> clips !! i = Some clip ->
  inFuture rd now i = Qltb now (TeamRadioClip.t clip).
Proof. intros Hr Hi. unfold inFuture. now rewrite Hr, Hi. Qed.

(** What the playback effect does when it runs unguarded. *)
Lemma playbackEffect_fired (rd : RaceData.ty) (clips : list TeamRadioClip.ty)
    (k : Z) (st : Radio.ty) (i : nat) :
  RaceData.teamRadio rd = Some clips ->
  (playbackEffect rd true true k st).2 = Some i
  <-> firstMatch clips (played st) (currentTime rd k) i.
Proof.
  intros Hr. rewrite firstMatch_scan.
  unfold playbackEffect. rewrite Hr. cbn [negb orb].
  case_bool_decide as Hlen.
  - destruct clips; [|discriminate]. cbn. split; [discriminate|].
    intros (_ & (clip & Hc & _) & _). discriminate.
  - destruct (findClip _ _ _ _) as [[i' clip']|] eqn:Hf; cbn [snd].
    + apply findClip_Some in Hf as (k' & -> & Hk & Hn & Hw & Hearlier).
      cbn [Nat.add] in *. split.
      * intros [= <-]. split; [exact Hn|]. split; [eauto|]. exact Hearlier.
      * intros (Hn' & (clip & Hc & Hw') & Hearlier').
        destruct (Nat.lt_trichotomy k' i) as [Hlt|[->|Hgt]]; [|reflexivity|].
        -- destruct (Hearlier' k' clip' Hlt Hk); [contradiction | congruence].
        -- destruct (Hearlier i clip Hgt Hc); [contradiction | congruence].
    + split; [discriminate|].
      intros (Hn' & (clip & Hc & Hw') & Hearlier').
      rewrite (findClip_first (played st) (currentTime rd k) clips 0 i clip
                 Hc Hn' Hw' Hearlier') in Hf. discriminate.
Qed.

Lemma playbackEffect_state (rd : RaceData.ty) (en inter : bool) (k : Z)
    (st : Radio.ty) :
  match (playbackEffect rd en inter k st).2 with
  | Some i =>
      played (playbackEffect rd en inter k st).1 = {[i]} ∪ played st
      /\ (i ∉ played st)
      /\ exists clips clip,
           RaceData.teamRadio rd = Some clips /\ clips !! i = Some clip
           /\ inWindow (currentTime rd k) clip = true
           /\ currentRadio (playbackEffect rd en inter k st).1 = Some clip
  | None => (playbackEffect rd en inter k st).1 = st
  end.
Proof.
  unfold playbackEffect. destruct (RaceData.teamRadio rd) as [clips|]; [|done].
  destruct (negb en || _); [done|]. destruct (negb inter); [done|].
  destruct (findClip _ _ _ _) as [[i clip]|] eqn:Hf; [|done].
  apply findClip_Some in Hf as (k' & -> & Hk & Hn & Hw & _).
  cbn. split; [done|]. split; [done|]. eauto 6.
Qed.

Lemma onCommit_fired (rd : RaceData.ty) (c : Commit) (st : Radio.ty) :
  (onCommit rd c st).2
  = (playbackEffect rd (radioEnabled c) (hasInteracted c) (frameIndex c) st).2.
Proof.
  unfold onCommit. now destruct (playbackEffect rd _ _ _ st).
Qed.

Lemma playbackEffect_gated (rd : RaceData.ty) (en inter : bool) (k : Z)
    (st : Radio.ty) :
  en && inter = false -> (playbackEffect rd en inter k st).2 = None.
Proof.
  unfold playbackEffect. destruct (RaceData.teamRadio rd); [|done].
  destruct en, inter; try discriminate; intros _; cbn [negb orb];
    try reflexivity; now case_bool_decide.
Qed.

(** The played set after a commit holds nothing but what it held before
    and the clip the commit started. *)
Lemma onCommit_played_from (rd : RaceData.ty) (c : Commit) (st : Radio.ty)
    (i : nat) :
  i ∈ played (onCommit rd c st).1 ->
  i ∈ played st \/ (onCommit rd c st).2 = Some i.
Proof.
  unfold onCommit.
  pose proof (playbackEffect_state rd (radioEnabled c) (hasInteracted c)
                (frameIndex c) st) as Hs.
  destruct (playbackEffect rd _ _ _ st) as [st1 fired]. cbn [fst snd] in *.
  intros Hin.
  assert (Hin1 : i ∈ played st1).
  { destruct (frameIndexChanged c); [|exact Hin].
    now apply elem_of_resetEffect in Hin as [Hin _]. }
  destruct fired as [j|]; [|subst; now left].
  destruct Hs as (Hpl & _). rewrite Hpl in Hin1.
  apply elem_of_union in Hin1 as [Hj|Hold]; [|now left].
  apply elem_of_singleton in Hj as ->. now right.
Qed.

(** A played clip whose timestamp is not in the future stays played and
    is not started again. *)
Lemma onCommit_keeps (rd : RaceData.ty) (clips : list TeamRadioClip.ty)
    (c : Commit) (st : Radio.ty) (i : nat) (clip : TeamRadioClip.ty) :
  RaceData.teamRadio rd = Some clips -> clips !! i = Some clip ->
  TeamRadioClip.t clip <= timeOf rd c ->
  i ∈ played st ->
  i ∈ played (onCommit rd c st).1 /\ (onCommit rd c st).2 <> Some i.
Proof.
  intros Hr Hi Ht Hp. unfold onCommit, timeOf in *.
  pose proof (playbackEffect_state rd (radioEnabled c) (hasInteracted c)
                (frameIndex c) st) as Hs.
  destruct (playbackEffect rd _ _ _ st) as [st1 fired]. cbn [fst snd] in *.
  assert (Hp1 : i ∈ played st1).
  { destruct fired as [j|]; [|now subst].
    destruct Hs as (Hpl & _). rewrite Hpl. apply elem_of_union. now right. }
  split.
  - destruct (frameIndexChanged c); [|exact Hp1].
    apply elem_of_resetEffect. split; [exact Hp1|].
    rewrite (inFuture_clip rd clips _ i clip Hr Hi). now apply Qltb_ge.
  - destruct fired as [j|]; [|discriminate].
    destruct Hs as (_ & Hn & _). intros [= ->]. contradiction.
Qed.

(** A clip started by a commit is in the played set after it and is the
    announced clip. *)
Lemma onCommit_fired_played (rd : RaceData.ty) (c : Commit) (st : Radio.ty)
    (i : nat) :
  (onCommit rd c st).2 = Some i ->
  i ∈ played (onCommit rd c st).1
  /\ exists clips clip,
       RaceData.teamRadio rd = Some clips /\ clips !! i = Some clip
       /\ currentRadio (onCommit rd c st).1 = Some clip.
Proof.
  unfold onCommit.
  pose proof (playbackEffect_state rd (radioEnabled c) (hasInteracted c)
                (frameIndex c) st) as Hs.
  destruct (playbackEffect rd _ _ _ st) as [st1 fired]. cbn [fst snd] in *.
  intros ->. destruct Hs as (Hpl & Hn & clips & clip & Hr & Hi & Hw & Hcur).
  assert (Hp1 : i ∈ played st1).
  { rewrite Hpl. apply elem_of_union. left. now apply elem_of_singleton. }
  split.
  - destruct (frameIndexChanged c); [|exact Hp1].
    apply elem_of_resetEffect. split; [exact Hp1|].
    rewrite (inFuture_clip rd clips _ i clip Hr Hi). apply Qltb_ge.
    now apply inWindow_spec in Hw as [Hw _].
  - exists clips, clip. split; [exact Hr|]. split; [exact Hi|].
    now destruct (frameIndexChanged c).
Qed.

(** Moving the clock strictly before a clip's timestamp re-arms it. *)
Lemma onCommit_rearms (rd : RaceData.ty) (clips : list TeamRadioClip.ty)
    (c : Commit) (st : Radio.ty) (i : nat) (clip : TeamRadioClip.ty) :
  RaceData.teamRadio rd = Some clips -> clips !! i = Some clip ->
  frameIndexChanged c = true ->
  timeOf rd c < TeamRadioClip.t clip ->
  i ∉ played (onCommit rd c st).1.
Proof.
  intros Hr Hi Hc Ht. unfold onCommit, timeOf in *. rewrite Hc.
  destruct (playbackEffect rd _ _ _ st) as [st1 fired]. cbn [fst].
  rewrite elem_of_resetEffect, (inFuture_clip rd clips _ i clip Hr Hi).
  intros [_ H]. apply Qltb_ge in H. lra.
Qed.

Lemma run_app (rd : RaceData.ty) (cs1 cs2 : list Commit) (st : Radio.ty) :
  run rd (cs1 ++ cs2) st =
    ((run rd cs2 (run rd cs1 st).1).1,
     (run rd cs1 st).2 ++ (run rd cs2 (run rd cs1 st).1).2).
Proof.
  revert st. induction cs1 as [|c cs1 IH]; intros st.
  - cbn. now destruct (run rd cs2 st).
  - cbn [app run]. destruct (onCommit rd c st) as [st1 fired].
    rewrite IH. destruct (run rd cs1 st1) as [st2 log]. cbn [fst snd].
    now rewrite app_assoc.
Qed.

Lemma run_cons (rd : RaceData.ty) (c : Commit) (cs : list Commit)
    (st : Radio.ty) :
  run rd (c :: cs) st =
    ((run rd cs (onCommit rd c st).1).1,
     firedList (onCommit rd c st).2 ++ (run rd cs (onCommit rd c st).1).2).
Proof.
  cbn [run]. destruct (onCommit rd c st) as [st1 fired].
  cbn [fst snd]. destruct (run rd cs st1) as [st2 log]. reflexivity.
Qed.

Lemma fires_app (i : nat) (l1 l2 : list nat) :
  fires i (l1 ++ l2) = (fires i l1 + fires i l2)%nat.
Proof. unfold fires. apply count_occ_app. Qed.

Lemma fires_firedList (i : nat) (fired : option nat) :
  fires i (firedList fired) = if decide (fired = Some i) then 1%nat else 0%nat.
Proof.
  unfold fires. destruct fired as [j|]; cbn.
  - destruct (Nat.eq_dec j i) as [->|Hne]; case_decide; congruence.
  - now case_decide.
Qed.

Section OneClip.
Variables (rd : RaceData.ty) (clips : list TeamRadioClip.ty) (i : nat)
          (clip : TeamRadioClip.ty).
Hypothesis Hradio : RaceData.teamRadio rd = Some clips.
Hypothesis Hclip : clips !! i = Some clip.

(** The commits of a forward sweep: none shows a time before the clip's
    timestamp. *)
Let forward (cs : list Commit) : Prop :=
  forall c, c ∈ cs -> TeamRadioClip.t clip <= timeOf rd c.

Lemma forward_tail (c : Commit) (cs : list Commit) :
  forward (c :: cs) -> TeamRadioClip.t clip <= timeOf rd c /\ forward cs.
Proof.
  intros H. split; [apply H; apply elem_of_cons; now left|].
  intros c' Hc'. apply H. apply elem_of_cons. now right.
Qed.

(** While the clock stays at or after the timestamp of a played clip, the
    clip stays played and is never started. *)
Lemma run_played_silent (cs : list Commit) (st : Radio.ty) :
  forward cs -> i ∈ played st ->
  i ∈ played (run rd cs st).1 /\ fires i (run rd cs st).2 = 0%nat.
Proof.
  revert st. induction cs as [|c cs IH]; intros st Hcs Hp.
  - cbn. done.
  - apply forward_tail in Hcs as [Hc Hcs]. rewrite run_cons. cbn [fst snd].
    destruct (onCommit_keeps rd clips c st i clip Hradio Hclip Hc Hp)
      as [Hp1 Hn1].
    destruct (IH (onCommit rd c st).1 Hcs Hp1) as [Hp2 Hc2].
    split; [exact Hp2|].
    rewrite fires_app, fires_firedList, Hc2. now case_decide.
Qed.

(** Over a forward sweep a clip that was not played is started at most
    once, and not at all if it is not played at the end. *)
Lemma run_forward (cs : list Commit) (st : Radio.ty) :
  forward cs -> i ∉ played st ->
  (fires i (run rd cs st).2 <= 1)%nat
  /\ (i ∉ played (run rd cs st).1 -> fires i (run rd cs st).2 = 0%nat).
Proof.
  revert st. induction cs as [|c cs IH]; intros st Hcs Hp.
  - cbn. split; [lia | done].
  - apply forward_tail in Hcs as [Hc Hcs].
    rewrite run_cons. cbn [fst snd]. rewrite fires_app, fires_firedList.
    case_decide as Hf.
    + destruct (onCommit_fired_played rd c st i Hf) as [Hp1 _].
      destruct (run_played_silent cs (onCommit rd c st).1 Hcs Hp1) as [Hp2 Hc2].
      rewrite Hc2. split; [lia | contradiction].
    + destruct (decide (i ∈ played (onCommit rd c st).1)) as [Hp1|Hp1].
      * destruct (onCommit_played_from rd c st i Hp1); contradiction.
      * destruct (IH (onCommit rd c st).1 Hcs Hp1) as [Hle Hz].
        split; [lia | exact Hz].
Qed.

Lemma run_at_most_once (cs : list Commit) (st : Radio.ty) :
  forward cs -> (fires i (run rd cs st).2 <= 1)%nat.
Proof.
  intros Hcs. destruct (decide (i ∈ played st)) as [Hp|Hp].
  - destruct (run_played_silent cs st Hcs Hp) as [_ ->]. lia.
  - now destruct (run_forward cs st Hcs Hp).
Qed.

Lemma onCommit_first_match (c : Commit) (st : Radio.ty) :
  audible c ->
  (onCommit rd c st).2 = Some i
  <-> firstMatch clips (played st) (timeOf rd c) i.
Proof.
  intros [Hen Hin]. rewrite onCommit_fired, Hen, Hin.
  now apply playbackEffect_fired.
Qed.

(** A forward sweep in which the clip is the first match at some commit
    starts it exactly once. *)
Lemma run_exactly_once (pre post : list Commit) (c : Commit) (st : Radio.ty) :
  forward (pre ++ c :: post) ->
  audible c ->
  firstMatch clips (played (run rd pre st).1) (timeOf rd c) i ->
  fires i (run rd (pre ++ c :: post) st).2 = 1%nat.
Proof.
  intros Hcs Haud Hfirst.
  assert (Hpre : forward pre).
  { intros c' Hc'. apply Hcs. apply elem_of_app. now left. }
  assert (Hpost : forward post).
  { intros c' Hc'. apply Hcs. apply elem_of_app. right.
    apply elem_of_cons. now right. }
  rewrite run_app. cbn [fst snd]. rewrite fires_app, run_cons. cbn [snd].
  rewrite fires_app, fires_firedList.
  set (st1 := (run rd pre st).1) in *.
  assert (Hzero : fires i (run rd pre st).2 = 0%nat).
  { destruct Hfirst as [Hn _].
    destruct (decide (i ∈ played st)) as [Hp|Hp].
    - destruct (run_played_silent pre st Hpre Hp) as [Hp' _]. contradiction.
    - destruct (run_forward pre st Hpre Hp) as [_ Hz]. now apply Hz. }
  assert (Hf : (onCommit rd c st1).2 = Some i)
    by now apply onCommit_first_match.
  destruct (onCommit_fired_played rd c st1 i Hf) as [Hp1 _].
  destruct (run_played_silent post (onCommit rd c st1).1 Hpost Hp1)
    as [_ Hsilent].
  rewrite Hzero, Hsilent. rewrite decide_True by exact Hf. reflexivity.
Qed.

(** A forward sweep that reaches the window of a clip nobody contests
    there starts the clip exactly once. *)
Lemma run_uncontested (cs : list Commit) (st : Radio.ty) :
  forward cs -> i ∉ played st ->
  (exists c, c ∈ cs /\ audible c
             /\ window (TeamRadioClip.t clip) (timeOf rd c)
             /\ uncontested clips (timeOf rd c) i) ->
  fires i (run rd cs st).2 = 1%nat.
Proof.
  revert st. induction cs as [|c cs IH]; intros st Hcs Hp (w & Hw & Haud & Hin & Hun).
  - now apply elem_of_nil in Hw.
  - apply forward_tail in Hcs as [Hc Hcs].
    rewrite run_cons. cbn [fst snd]. rewrite fires_app, fires_firedList.
    case_decide as Hf.
    + destruct (onCommit_fired_played rd c st i Hf) as [Hp1 _].
      destruct (run_played_silent cs (onCommit rd c st).1 Hcs Hp1) as [_ ->].
      reflexivity.
    + assert (Hp1 : i ∉ played (onCommit rd c st).1).
      { intros Hp1. destruct (onCommit_played_from rd c st i Hp1); contradiction. }
      apply elem_of_cons in Hw as [->|Hw].
      * exfalso. apply Hf. apply onCommit_first_match; [exact Haud|].
        split; [exact Hp|]. split; [eauto|].
        intros j cj Hj Hcj. right. now apply (Hun j cj).
      * rewrite IH; [reflexivity | exact Hcs | exact Hp1 |].
        exists w. split; [exact Hw|]. split; [exact Haud|].
        split; [exact Hin | exact Hun].
Qed.

(** A commit that starts the clip is audible, shows a time inside the
    clip's window and finds the clip not played. *)
Lemma onCommit_fired_window (c : Commit) (st : Radio.ty) :
  (onCommit rd c st).2 = Some i ->
  audible c
  /\ window (TeamRadioClip.t clip) (timeOf rd c)
  /\ (i ∉ played st).
Proof.
  intros Hf. rewrite onCommit_fired in Hf. split.
  - unfold audible.
    destruct (radioEnabled c) eqn:Hen, (hasInteracted c) eqn:Hin;
      try (split; reflexivity);
      rewrite playbackEffect_gated in Hf by reflexivity; discriminate.
  - pose proof (playbackEffect_state rd (radioEnabled c) (hasInteracted c)
                  (frameIndex c) st) as Hs.
    rewrite Hf in Hs. destruct Hs as (_ & Hn & clips' & clip' & Hr' & Hi' & Hw & _).
    split; [|exact Hn].
    assert (clip' = clip) as -> by congruence.
    now apply inWindow_window.
Qed.

(** A run none of whose audible commits shows a time inside the window
    never starts the clip. *)
Lemma run_outside_window (cs : list Commit) (st : Radio.ty) :
  (forall c, c ∈ cs -> audible c ->
             ~ window (TeamRadioClip.t clip) (timeOf rd c)) ->
  fires i (run rd cs st).2 = 0%nat.
Proof.
  revert st. induction cs as [|c cs IH]; intros st Hout.
  - reflexivity.
  - rewrite run_cons. cbn [fst snd]. rewrite fires_app, fires_firedList.
    rewrite IH by (intros c' Hc'; apply Hout; apply elem_of_cons; now right).
    case_decide as Hf; [|reflexivity].
    destruct (onCommit_fired_window c st Hf) as (Haud & Hw & _).
    exfalso. apply (Hout c); [apply elem_of_cons; now left | exact Haud | exact Hw].
Qed.

End OneClip.

End RadioFactsProofs.

Section RadioClaims.
Import Radio RadioFacts.

(** C2, the statement as written fails for a cue that shares its window
    with an earlier cue.  In [contestedClips] the clock sweeps forward
    over the times 99, 101 and 103, radio enabled and the user having
    interacted; the frame at 101 lies in the window [[100, 103)] of both
    clips; the first clip is started there, and the second clip is never
    started, because a commit starts one clip at most and the next
    commit is past the window. *)
Lemma contested_cue_never_starts :
  RaceData.teamRadio Examples.contestedClips
    = Some [Examples.clipAt 100 "VER"; Examples.clipAt 100 "HAM"]
  /\ map (timeOf Examples.contestedClips) (map frameChange [0; 1; 2]%Z)
     = [99; 101; 103]
  /\ Forall audible (map frameChange [0; 1; 2]%Z)
  /\ 100 <= 101 < 100 + 3
  /\ (run Examples.contestedClips (map frameChange [0; 1; 2]%Z)
        Radio.initial).2 = [0%nat]
  /\ fires 1 (run Examples.contestedClips (map frameChange [0; 1; 2]%Z)
                Radio.initial).2 = 0%nat.
Proof.
  split; [reflexivity|]. split; [reflexivity|].
  split; [repeat constructor|]. split; [lra|].
  split; vm_compute; reflexivity.
Qed.

(** C2 (amended): a commit starts clip [i] exactly when radio is
    enabled, the user has interacted and [i] is the first clip, in index
    order, that has not been played and whose window [[t, t + 3)] holds
    the current time; a commit that starts the clip shows a time [now]
    with [t <= now < t + 3], marks the clip played and announces it; a
    commit starts at most one clip.  Over a forward sweep (commits
    whose times never fall before [t]) the clip is started at most once;
    it is not started at all by commits whose times lie outside the
    window; it is started exactly once when at some commit of the sweep
    it is the first match, which is the case when the sweep starts with
    the clip not played and some commit shows a time in the window that
    no earlier clip's window holds.  A change of the frame index to a
    time strictly before [t] removes the clip from the played set, after
    which a commit inside the window starts it again. *)
Theorem radio_cue_fires_once_and_rearms
    (rd : RaceData.ty) (clips : list TeamRadioClip.ty) (i : nat)
    (clip : TeamRadioClip.ty) :
  RaceData.teamRadio rd = Some clips ->
  clips !! i = Some clip ->
  (* first match wins *)
  (forall st c, audible c ->
      ((onCommit rd c st).2 = Some i
       <-> firstMatch clips (played st) (timeOf rd c) i))
  (* a commit that starts the clip lies in the window [t, t + 3) *)
  /\ (forall st c,
        (onCommit rd c st).2 = Some i ->
        audible c
        /\ TeamRadioClip.t clip <= timeOf rd c < TeamRadioClip.t clip + 3
        /\ (i ∉ played st)
        /\ i ∈ played (onCommit rd c st).1
        /\ currentRadio (onCommit rd c st).1 = Some clip)
  (* at most one clip per commit *)
  /\ (forall st c, (length (firedList (onCommit rd c st).2) <= 1)%nat)
  (* a forward sweep starts the clip at most once *)
  /\ (forall st cs,
        (forall c, c ∈ cs -> TeamRadioClip.t clip <= timeOf rd c) ->
        (fires i (run rd cs st).2 <= 1)%nat)
  (* commits outside the window never start it *)
  /\ (forall st cs,
        (forall c, c ∈ cs -> audible c ->
           ~ (TeamRadioClip.t clip <= timeOf rd c < TeamRadioClip.t clip + 3)) ->
        fires i (run rd cs st).2 = 0%nat)
  (* exactly once when the clip is the first match at some commit *)
  /\ (forall st pre c post,
        (forall c', c' ∈ pre ++ c :: post ->
                    TeamRadioClip.t clip <= timeOf rd c') ->
        audible c ->
        firstMatch clips (played (run rd pre st).1) (timeOf rd c) i ->
        fires i (run rd (pre ++ c :: post) st).2 = 1%nat)
  (* in particular when the window is reached uncontested *)
  /\ (forall st cs,
        (forall c, c ∈ cs -> TeamRadioClip.t clip <= timeOf rd c) ->
        i ∉ played st ->
        (exists c, c ∈ cs /\ audible c
                   /\ TeamRadioClip.t clip <= timeOf rd c
                      < TeamRadioClip.t clip + 3
                   /\ uncontested clips (timeOf rd c) i) ->
        fires i (run rd cs st).2 = 1%nat)
  (* re-arming *)
  /\ (forall st c,
        frameIndexChanged c = true ->
        timeOf rd c < TeamRadioClip.t clip ->
        i ∉ played (onCommit rd c st).1)
  (* and starting again *)
  /\ (forall st c1 c2,
        frameIndexChanged c1 = true ->
        timeOf rd c1 < TeamRadioClip.t clip ->
        audible c2 ->
        TeamRadioClip.t clip <= timeOf rd c2 < TeamRadioClip.t clip + 3 ->
        uncontested clips (timeOf rd c2) i ->
        (onCommit rd c2 (onCommit rd c1 st).1).2 = Some i).
Proof.
  intros Hr Hi.
  split; [|split; [|split; [|split; [|split; [|split; [|split; [|split]]]]]]].
  - intros st c Haud. now apply onCommit_first_match.
  - intros st c Hf.
    destruct (onCommit_fired_window rd clips i clip Hr Hi c st Hf)
      as (Haud & Hw & Hn).
    destruct (onCommit_fired_played rd c st i Hf)
      as (Hp & clips' & clip' & Hr' & Hi' & Hcur).
    split; [exact Haud|]. split; [exact Hw|]. split; [exact Hn|].
    split; [exact Hp|]. congruence.
  - intros st c. destruct ((onCommit rd c st).2); cbn; lia.
  - intros st cs. now apply (run_at_most_once rd clips i clip).
  - intros st cs. now apply (run_outside_window rd clips i clip).
  - intros st pre c post. now apply (run_exactly_once rd clips i clip).
  - intros st cs. now apply (run_uncontested rd clips i clip).
  - intros st c. now apply (onCommit_rearms rd clips c st i clip).
  - intros st c1 c2 Hc1 Hbefore Haud Hw Hun.
    apply (onCommit_first_match rd clips i Hr c2 _ Haud).
    split; [now apply (onCommit_rearms rd clips c1 st i clip)|].
    split; [eauto|]. intros j cj Hj Hcj. right. now apply (Hun j cj).
Qed.

(** C2 (amended) applies to the session with one clip at 100: the change
    to the frame at 100 starts it, and the later change to the frame at
    50 re-arms it. *)
Lemma radio_cue_witness :
  (onCommit Examples.radioSession (frameChange 1) Radio.initial).2 = Some 0%nat
  /\ 0%nat ∉ played (onCommit Examples.radioSession (frameChange 5)
                       (onCommit Examples.radioSession (frameChange 1)
                          Radio.initial).1).1.
Proof.
  destruct (radio_cue_fires_once_and_rearms Examples.radioSession
              [Examples.clipAt 100 "VER"] 0 (Examples.clipAt 100 "VER")
              eq_refl eq_refl) as (Hfire & _ & _ & _ & _ & _ & _ & Hrearm & _).
  split.
  - apply (Hfire Radio.initial (frameChange 1) (conj eq_refl eq_refl)).
    split; [apply not_elem_of_empty|].
    split; [exists (Examples.clipAt 100 "VER"); split; [reflexivity|]|].
    + change (100 <= 100 < 100 + 3). lra.
    + intros j cj Hj. lia.
  - apply Hrearm; [reflexivity|]. vm_compute. reflexivity.
Defined.

(** The scenario of the specification: the clock sweeps 99, 100, ..., 103,
    jumps back to 50 and sweeps forward again.  The clip at 100 is started
    once in the first sweep and once more in the replay. *)
Example radio_sweep_and_replay :
  (run Examples.radioSession (map frameChange [0; 1; 2; 3; 4]%Z)
     Radio.initial).2 = [0%nat]
  /\ (run Examples.radioSession
        (map frameChange [0; 1; 2; 3; 4; 5; 0; 1; 2; 3; 4]%Z)
        Radio.initial).2 = [0%nat; 0%nat].
Proof. split; vm_compute; reflexivity. Qed.

(** C10, the statement as written fails when two clips share a
    timestamp: after the first clip of [twinClips] is started at frame 1
    and the second at frame 2, the announced clip is the second one, a
    clip different from the first, and the first clip's timeout clears
    it. *)
Lemma timeout_clears_twin_clip :
  let st := (run Examples.twinClips (map frameChange [1; 2]%Z)
              Radio.initial).1 in
  currentRadio st = Some (Examples.clipAt 100 "HAM")
  /\ Examples.clipAt 100 "HAM" <> Examples.clipAt 100 "VER"
  /\ head (timers st) = Some (TeamRadioClip.t (Examples.clipAt 100 "VER"))
  /\ currentRadio (timeoutExpires st) = None.
Proof.
  vm_compute. repeat split; try reflexivity. discriminate.
Qed.

(** C10 (amended): the fallback timeout of a clip clears the announced
    clip exactly when that clip's timestamp equals the timestamp the
    timeout captured; an announced clip with a different timestamp is
    left unchanged, and nothing else of the state changes. *)
Theorem fallback_timeout_by_timestamp
    (st : Radio.ty) (clipTimestamp : Q) (rest : list Q)
    (announced : TeamRadioClip.ty) :
  timers st = clipTimestamp :: rest ->
  currentRadio st = Some announced ->
  (TeamRadioClip.t announced == clipTimestamp ->
   currentRadio (timeoutExpires st) = None)
  /\ (~ TeamRadioClip.t announced == clipTimestamp ->
      currentRadio (timeoutExpires st) = Some announced)
  /\ played (timeoutExpires st) = played st
  /\ audioRef (timeoutExpires st) = audioRef st
  /\ timers (timeoutExpires st) = rest.
Proof.
  intros Ht Hc. unfold timeoutExpires. rewrite Ht, Hc. cbn.
  destruct (Qeq_bool (TeamRadioClip.t announced) clipTimestamp) eqn:E.
  - apply Qeq_bool_iff in E. repeat split; try reflexivity. contradiction.
  - apply Qeq_bool_false_neq in E. repeat split; try reflexivity. contradiction.
Qed.

(** The amended C10 applies to a clip at 100 announced while the timeout
    of a clip at 90 expires: the announcement stays. *)
Lemma fallback_timeout_witness :
  currentRadio
    (timeoutExpires
       (Radio.mk {[0%nat; 1%nat]} (Some (Examples.clipAt 100 "VER"))
          (Some (Examples.clipAt 100 "VER")) [90; 100]))
  = Some (Examples.clipAt 100 "VER").
Proof.
  destruct (fallback_timeout_by_timestamp
              (Radio.mk {[0%nat; 1%nat]} (Some (Examples.clipAt 100 "VER"))
                 (Some (Examples.clipAt 100 "VER")) [90; 100])
              90 [100] (Examples.clipAt 100 "VER") eq_refl eq_refl)
    as (_ & Hkeep & _).
  apply Hkeep. vm_compute. discriminate.
Defined.

End RadioClaims.

(** ** Live timing board *)

Section TimingFacts.
Import Timing.

Lemma drsText_ON (d : Z) : drsText d = ON <-> (10 <= d)%Z.
Proof.
  unfold drsText. destruct (10 <=? d)%Z eqn:E.
  - apply Z.leb_le in E. tauto.
  - apply Z.leb_gt in E. split; [discriminate | lia].
Qed.

(** A row of the board is [timingRow] applied to an entry of the current
    frame. *)
Lemma timingBoard_lookup (rd : RaceData.ty) (frameIndex : Z) (idx : nat)
    (row : Row) :
  timingBoard rd frameIndex !! idx = Some row ->
  exists frame c pos,
    array_get (RaceData.frames rd) frameIndex = Some frame
    /\ sortedDrivers (Some frame) !! idx = Some (c, pos)
    /\ (c, pos) ∈ Frame.drivers frame
    /\ row = timingRow rd (Some frame) idx (c, pos).
Proof.
  unfold timingBoard. rewrite list_lookup_imap.
  destruct (array_get (RaceData.frames rd) frameIndex) as [frame|] eqn:Hf.
  - destruct (sortedDrivers (Some frame) !! idx) as [[c pos]|] eqn:Hs;
      [|discriminate].
    intros [= <-]. exists frame, c, pos. repeat split; try done.
    apply list_elem_of_lookup_2 in Hs. cbn [sortedDrivers] in Hs.
    now apply elem_of_stable_sort in Hs.
  - cbn. discriminate.
Qed.

Lemma timingBoard_complete (rd : RaceData.ty) (frameIndex : Z)
    (frame : Frame.ty) (c : string) (pos : DriverPosition.ty) :
  array_get (RaceData.frames rd) frameIndex = Some frame ->
  (c, pos) ∈ Frame.drivers frame ->
  exists idx, timingBoard rd frameIndex !! idx
              = Some (timingRow rd (Some frame) idx (c, pos)).
Proof.
  intros Hf Hin. unfold timingBoard. rewrite Hf.
  assert (Hs : (c, pos) ∈ sortedDrivers (Some frame))
    by (cbn [sortedDrivers]; now apply elem_of_stable_sort).
  apply list_elem_of_lookup in Hs as [idx Hidx].
  exists idx. now rewrite list_lookup_imap, Hidx.
Qed.

Lemma row_drs_timingRow rd cf idx c pos :
  row_drs (timingRow rd cf idx (c, pos)) = drsText (DriverPosition.drs pos).
Proof. reflexivity. Qed.

Lemma row_code_timingRow rd cf idx c pos :
  row_code (timingRow rd cf idx (c, pos)) = c.
Proof. reflexivity. Qed.

Lemma row_bestLap_timingRow rd cf idx c pos :
  row_bestLap (timingRow rd cf idx (c, pos))
  = formatLapTime (bestLapTime (lapDataOf rd c)).
Proof. reflexivity. Qed.

Lemma row_gap_timingRow rd cf idx c pos :
  row_gap (timingRow rd cf idx (c, pos))
  = match idx with
    | O => Leader
    | S _ =>
        plusCell
          (timeDifference (lapTimeOf rd c (currentLap cf - 1))
             (match sortedDrivers cf !! 0%nat with
              | Some leader => lapTimeOf rd leader.1 (currentLap cf - 1)
              | None => None
              end))
    end.
Proof. reflexivity. Qed.

(** The fold that finds the best lap: its result is a non-zero time of
    the list (or the accumulator) that no other non-zero time undercuts. *)
Lemma bestLap_fold (ls : list LapEntry.ty) (acc : option Q) :
  (foldl bestLapStep acc ls = None
   <-> acc = None
       /\ forall l time, l ∈ ls -> LapEntry.time l = Some time -> time == 0)
  /\ (forall m, foldl bestLapStep acc ls = Some m ->
        (acc = Some m
         \/ exists l, l ∈ ls /\ LapEntry.time l = Some m /\ ~ m == 0)
        /\ (forall a, acc = Some a -> m <= a)
        /\ (forall l time, l ∈ ls -> LapEntry.time l = Some time ->
              ~ time == 0 -> m <= time)).
Proof.
  revert acc. induction ls as [|l ls IH]; intros acc; cbn [foldl].
  - split.
    + split; [intros ->; split; [done|] | tauto].
      intros l time Hl. now apply elem_of_nil in Hl.
    + intros m ->. split; [now left|]. split.
      * intros a [= ->]. lra.
      * intros l time Hl. now apply elem_of_nil in Hl.
  - destruct (IH (bestLapStep acc l)) as [Hnone Hsome]. clear IH.
    assert (Hstep :
      (bestLapStep acc l = acc
       /\ forall time, LapEntry.time l = Some time -> ~ time == 0 ->
            exists a, acc = Some a /\ a <= time)
      \/ (exists time, LapEntry.time l = Some time /\ ~ time == 0
            /\ bestLapStep acc l = Some time
            /\ forall a, acc = Some a -> time < a)).
    { unfold bestLapStep. destruct (LapEntry.time l) as [time|]; [|left; done].
      destruct (truthy time) eqn:Ht; cbn [andb].
      - apply truthy_neq in Ht. destruct acc as [a|].
        + destruct (Qltb time a) eqn:Hlt.
          * right. exists time. repeat split; try done.
            intros a' [= <-]. now apply Qltb_lt.
          * left. split; [done|]. intros time' [= <-] _.
            exists a. split; [done|]. now apply Qltb_ge.
        + right. exists time. repeat split; try done.
      - left. split; [done|]. intros time' [= <-] Hne.
        apply truthy_neq in Hne. congruence. }
    destruct Hstep as [[Heq Hge]|(time & Ht & Hne & Hs & Hlt)].
    { (* the entry does not improve on the accumulator *)
      rewrite Heq in *. split.
      + rewrite Hnone. split.
        * intros [Hacc Hall]. split; [exact Hacc|].
          intros l' time Hl' Htime. apply elem_of_cons in Hl' as [->|Hl'].
          -- destruct (Qeq_dec time 0) as [|Hne]; [done|].
             destruct (Hge time Htime Hne) as (a & Ha & _). congruence.
          -- eauto.
        * intros [Hacc Hall]. split; [exact Hacc|].
          intros l' time Hl'. apply Hall. apply elem_of_cons. now right.
      + intros m Hm. destruct (Hsome m Hm) as (Hfrom & Hacc & Hall).
        split; [|split].
        * destruct Hfrom as [|(l' & Hl' & Hrest)]; [now left|].
          right. exists l'. split; [apply elem_of_cons; now right | exact Hrest].
        * exact Hacc.
        * intros l' time Hl' Htime Hne.
          apply elem_of_cons in Hl' as [->|Hl']; [|eauto].
          destruct (Hge time Htime Hne) as (a & Ha & Hle).
          specialize (Hacc a Ha). lra. }
    { (* the entry becomes the best time *)
      rewrite Hs in *. split.
      + rewrite Hnone. split.
        * intros [Hacc _]. discriminate.
        * intros [_ Hall]. exfalso. apply Hne. apply (Hall l time); [|exact Ht].
          apply elem_of_cons. now left.
      + intros m Hm. destruct (Hsome m Hm) as (Hfrom & Hacc & Hall).
        specialize (Hacc time eq_refl).
        split; [|split].
        * right. destruct Hfrom as [[= <-]|(l' & Hl' & Hrest)].
          -- exists l. split; [apply elem_of_cons; now left | done].
          -- exists l'. split; [apply elem_of_cons; now right | exact Hrest].
        * intros a Ha. specialize (Hlt a Ha). lra.
        * intros l' time' Hl' Htime Hne'.
          apply elem_of_cons in Hl' as [->|Hl']; [|eauto].
          rewrite Ht in Htime. injection Htime as <-. exact Hacc. }
Qed.

End TimingFacts.

Section TimingClaims.
Import Timing.

(** C8: in every row of the timing board and in the driver info panel
    the DRS text is ON exactly when the [drs] code of the driver's sample
    in the current frame is at least 10; every sample of the current
    frame has such a row; the panel is rendered exactly when a driver
    with a non-empty code is selected and has a sample in the current
    frame, and then shows that sample; 9 reads OFF and 10 reads ON. *)
Theorem drs_on_iff_at_least_10 (rd : RaceData.ty) (frameIndex : Z) :
  (forall idx row,
      timingBoard rd frameIndex !! idx = Some row ->
      exists frame pos,
        array_get (RaceData.frames rd) frameIndex = Some frame
        /\ (row_code row, pos) ∈ Frame.drivers frame
        /\ (row_drs row = ON <-> (10 <= DriverPosition.drs pos)%Z))
  /\ (forall frame c pos,
        array_get (RaceData.frames rd) frameIndex = Some frame ->
        (c, pos) ∈ Frame.drivers frame ->
        exists idx row,
          timingBoard rd frameIndex !! idx = Some row
          /\ row_code row = c
          /\ (row_drs row = ON <-> (10 <= DriverPosition.drs pos)%Z))
  /\ (forall selectedDriver panel,
        driverInfoPanel rd frameIndex selectedDriver = Some panel
        <-> exists c frame pos,
              selectedDriver = Some c /\ c <> ""%string
              /\ array_get (RaceData.frames rd) frameIndex = Some frame
              /\ obj_get (Frame.drivers frame) c = Some pos
              /\ panel = mkPanel (round (DriverPosition.speed pos))
                           (DriverPosition.gear pos)
                           (drsText (DriverPosition.drs pos))
                           (DriverPosition.position pos))
  /\ (forall c frame pos,
        c <> ""%string ->
        array_get (RaceData.frames rd) frameIndex = Some frame ->
        obj_get (Frame.drivers frame) c = Some pos ->
        exists panel,
          driverInfoPanel rd frameIndex (Some c) = Some panel
          /\ (panel_drs panel = ON <-> (10 <= DriverPosition.drs pos)%Z))
  /\ (forall c panel,
        driverInfoPanel rd frameIndex (Some c) = Some panel ->
        exists frame pos,
          array_get (RaceData.frames rd) frameIndex = Some frame
          /\ obj_get (Frame.drivers frame) c = Some pos
          /\ (panel_drs panel = ON <-> (10 <= DriverPosition.drs pos)%Z))
  /\ drsText 9 = OFF
  /\ drsText 10 = ON.
Proof.
  assert (Hpanel : forall selectedDriver panel,
            driverInfoPanel rd frameIndex selectedDriver = Some panel
            <-> exists c frame pos,
                  selectedDriver = Some c /\ c <> ""%string
                  /\ array_get (RaceData.frames rd) frameIndex = Some frame
                  /\ obj_get (Frame.drivers frame) c = Some pos
                  /\ panel = mkPanel (round (DriverPosition.speed pos))
                               (DriverPosition.gear pos)
                               (drsText (DriverPosition.drs pos))
                               (DriverPosition.position pos)).
  { intros sel panel. unfold driverInfoPanel. split.
    - destruct sel as [c|]; [|discriminate].
      destruct (array_get (RaceData.frames rd) frameIndex) as [frame|];
        [|discriminate].
      case_decide as Hc; [discriminate|].
      destruct (obj_get (Frame.drivers frame) c) as [pos|] eqn:Hpos;
        [|discriminate].
      intros [= <-]. exists c, frame, pos. repeat split; done.
    - intros (c & frame & pos & -> & Hc & -> & Hpos & ->).
      rewrite decide_False by exact Hc. now rewrite Hpos. }
  split; [|split; [|split; [exact Hpanel|split; [|split; [|split; reflexivity]]]]].
  - intros idx row Hrow.
    destruct (timingBoard_lookup rd frameIndex idx row Hrow)
      as (frame & c & pos & Hf & _ & Hin & ->).
    exists frame, pos. rewrite row_code_timingRow, row_drs_timingRow.
    split; [exact Hf|]. split; [exact Hin|]. apply drsText_ON.
  - intros frame c pos Hf Hin.
    destruct (timingBoard_complete rd frameIndex frame c pos Hf Hin)
      as [idx Hidx].
    exists idx, (timingRow rd (Some frame) idx (c, pos)).
    split; [exact Hidx|]. split; [reflexivity|].
    rewrite row_drs_timingRow. apply drsText_ON.
  - intros c frame pos Hc Hf Hpos. eexists. split.
    + apply Hpanel. exists c, frame, pos. repeat split; done.
    + cbn [panel_drs]. apply drsText_ON.
  - intros c panel Hp. apply Hpanel in Hp
      as (c' & frame & pos & [= <-] & _ & Hf & Hpos & ->).
    exists frame, pos. split; [exact Hf|]. split; [exact Hpos|].
    cbn [panel_drs]. apply drsText_ON.
Qed.

(** C8 on the two-car session: with HAM selected the panel is rendered
    and its DRS text follows HAM's code 9. *)
Lemma drs_panel_witness :
  exists panel,
    driverInfoPanel Examples.twoCars 0 (Some "HAM"%string) = Some panel
    /\ (panel_drs panel = ON <-> (10 <= 9)%Z).
Proof.
  destruct (drs_on_iff_at_least_10 Examples.twoCars 0)
    as (_ & _ & _ & H & _).
  apply (H "HAM"%string
           (Frame.mk 0 1 [("VER"%string, Examples.sample 0 0 1 12);
                          ("HAM"%string, Examples.sample 10 0 2 9)])
           (Examples.sample 10 0 2 9)); [discriminate | reflexivity | reflexivity].
Defined.

(** The panel of the two-car session: ON for VER (code 12), OFF for HAM
    (code 9), and no panel for the empty code or without a selection. *)
Example drs_panel_of_two_cars :
  driverInfoPanel Examples.twoCars 0 (Some "VER"%string)
    = Some (mkPanel 200 7 ON 1)
  /\ driverInfoPanel Examples.twoCars 0 (Some "HAM"%string)
     = Some (mkPanel 200 7 OFF 2)
  /\ driverInfoPanel Examples.twoCars 0 (Some ""%string) = None
  /\ driverInfoPanel Examples.twoCars 0 None = None.
Proof. repeat split; reflexivity. Qed.

(** The two-car session shows both texts: VER (code 12) is ON, HAM
    (code 9) is OFF. *)
Example drs_cells_of_two_cars :
  map (fun row => (row_code row, row_drs row))
    (timingBoard Examples.twoCars 0)
  = [("VER"%string, ON); ("HAM"%string, OFF)].
Proof. reflexivity. Qed.

(** C6, the statement as written fails: at lap 2 the board shows VER's
    best lap as 90, the time of lap 5, which has not been reached; the
    minimum over the laps reached so far is 95. *)
Lemma best_lap_counts_future_laps :
  exists row,
    timingBoard
      (Examples.timedSession 2
         [(1%Z, Examples.lapEntry (Some 95)); (5%Z, Examples.lapEntry (Some 90))]
         []) 0 !! 0%nat = Some row
    /\ row_code row = "VER"%string
    /\ row_bestLap row = LapTime 90
    /\ formatLapTime
         (TimingSpec.bestLapSoFar
            [(1%Z, Examples.lapEntry (Some 95)); (5%Z, Examples.lapEntry (Some 90))]
            2) = LapTime 95
    /\ ~ 90 == 95.
Proof.
  eexists. split; [vm_compute; reflexivity|].
  split; [reflexivity|]. split; [reflexivity|]. split; [reflexivity|].
  intros H. vm_compute in H. discriminate H.
Qed.

(** C6 (amended): for a driver with a lap-timing table the displayed best
    lap is the minimum of the non-null, non-zero lap times of all laps of
    the table, whatever the lap of the current frame; it is the dash when
    the table holds no such time. *)
Theorem best_lap_is_table_minimum
    (rd : RaceData.ty) (frameIndex : Z) (idx : nat) (row : Row)
    (ld : LapData.ty) :
  timingBoard rd frameIndex !! idx = Some row ->
  lapDataOf rd (row_code row) = Some ld ->
  exists best : option Q,
    row_bestLap row = formatLapTime best
    /\ (best = None ->
        row_bestLap row = Dash
        /\ forall k l time, (k, l) ∈ LapData.laps ld ->
             LapEntry.time l = Some time -> time == 0)
    /\ (forall m, best = Some m ->
        row_bestLap row = LapTime m
        /\ (exists k l, (k, l) ∈ LapData.laps ld
                        /\ LapEntry.time l = Some m /\ ~ m == 0)
        /\ (forall k l time, (k, l) ∈ LapData.laps ld ->
              LapEntry.time l = Some time -> ~ time == 0 -> m <= time)).
Proof.
  intros Hrow Hld.
  destruct (timingBoard_lookup rd frameIndex idx row Hrow)
    as (frame & c & pos & Hf & _ & Hin & ->).
  rewrite row_code_timingRow in Hld. rewrite row_bestLap_timingRow, Hld.
  exists (bestLapTime (Some ld)). split; [reflexivity|].
  cbn [bestLapTime].
  destruct (bestLap_fold (obj_values (LapData.laps ld)) None) as [Hnone Hsome].
  assert (Hval : forall k l, (k, l) ∈ LapData.laps ld ->
                             l ∈ obj_values (LapData.laps ld)).
  { intros k l Hkl. unfold obj_values. apply list_elem_of_fmap.
    exists (k, l). split; [reflexivity | exact Hkl]. }
  split.
  - intros Hb. rewrite Hb. split; [reflexivity|].
    apply Hnone in Hb as [_ Hall]. intros k l time Hkl. apply Hall. eauto.
  - intros m Hb. rewrite Hb.
    destruct (Hsome m Hb) as ([Habs|(l & Hl & Ht & Hne)] & _ & Hall);
      [discriminate|].
    split.
    + cbn [formatLapTime]. apply truthy_neq in Hne. now rewrite Hne.
    + split.
      * unfold obj_values in Hl. apply list_elem_of_fmap in Hl as ([k l'] & -> & Hkl).
        exists k, l'. repeat split; assumption.
      * intros k l' time Hkl. apply Hall. eauto.
Qed.

(** The amended C6 applies to VER's row at lap 2: the best lap is the 90
    of lap 5. *)
Lemma best_lap_witness :
  exists best : option Q,
    row_bestLap
      (timingRow
         (Examples.timedSession 2
            [(1%Z, Examples.lapEntry (Some 95));
             (5%Z, Examples.lapEntry (Some 90))] [])
         (Some (Frame.mk 0 2 [("HAM"%string, Examples.sample 10 0 2 9);
                              ("VER"%string, Examples.sample 0 0 1 12)]))
         0 ("VER"%string, Examples.sample 0 0 1 12))
    = formatLapTime best
    /\ best = Some 90.
Proof.
  destruct (best_lap_is_table_minimum
              (Examples.timedSession 2
                 [(1%Z, Examples.lapEntry (Some 95));
                  (5%Z, Examples.lapEntry (Some 90))] [])
              0 0
              (timingRow
                 (Examples.timedSession 2
                    [(1%Z, Examples.lapEntry (Some 95));
                     (5%Z, Examples.lapEntry (Some 90))] [])
                 (Some (Frame.mk 0 2 [("HAM"%string, Examples.sample 10 0 2 9);
                                      ("VER"%string, Examples.sample 0 0 1 12)]))
                 0 ("VER"%string, Examples.sample 0 0 1 12))
              (LapData.mk 1 [(1%Z, Examples.lapEntry (Some 95));
                             (5%Z, Examples.lapEntry (Some 90))]))
    as (best & Hcell & Hnone & Hsome).
  - reflexivity.
  - reflexivity.
  - exists best. split; [exact Hcell|].
    destruct best as [m|].
    + destruct (Hsome m eq_refl) as (Hm & _). now injection Hm as <-.
    + destruct (Hnone eq_refl) as (Hd & _). discriminate Hd.
Defined.

(** C7, the statement as written fails: HAM, second on track, lapped in
    90 while the leader VER lapped in 92.345; the difference of the two
    times is -2.345 and the cell shows +2.345. *)
Lemma gap_to_leader_drops_sign :
  exists row shown,
    timingBoard
      (Examples.timedSession 6
         [(5%Z, Examples.lapEntry (Some 92.345))]
         [(5%Z, Examples.lapEntry (Some 90))]) 0 !! 1%nat = Some row
    /\ row_code row = "HAM"%string
    /\ lapTimeOf
         (Examples.timedSession 6
            [(5%Z, Examples.lapEntry (Some 92.345))]
            [(5%Z, Examples.lapEntry (Some 90))]) "HAM" 5 = Some 90
    /\ lapTimeOf
         (Examples.timedSession 6
            [(5%Z, Examples.lapEntry (Some 92.345))]
            [(5%Z, Examples.lapEntry (Some 90))]) "VER" 5 = Some 92.345
    /\ TimingSpec.shownSeconds (row_gap row) = Some shown
    /\ shown == 2.345
    /\ ~ shown == TimingSpec.gapToLeader 90 92.345.
Proof.
  eexists. eexists. split; [vm_compute; reflexivity|].
  split; [reflexivity|]. split; [reflexivity|]. split; [reflexivity|].
  split; [reflexivity|]. split; [reflexivity|].
  intros H. vm_compute in H. discriminate H.
Qed.

(** C7 (amended): for a non-leader row whose driver and the leader both
    have a non-zero last-lap time at lap - 1, the two being different, the
    gap cell is a plus sign followed by the absolute value of the
    driver's time minus the leader's time, which is that difference
    itself when the driver was slower; the first row shows [Leader]. *)
Theorem gap_to_leader_is_absolute_difference
    (rd : RaceData.ty) (frameIndex : Z) (idx : nat) (row : Row)
    (leader : string * DriverPosition.ty) (a b : Q) :
  timingBoard rd frameIndex !! S idx = Some row ->
  sortedDrivers (array_get (RaceData.frames rd) frameIndex) !! 0%nat
    = Some leader ->
  lapTimeOf rd (row_code row)
    (currentLap (array_get (RaceData.frames rd) frameIndex) - 1) = Some a ->
  lapTimeOf rd leader.1
    (currentLap (array_get (RaceData.frames rd) frameIndex) - 1) = Some b ->
  ~ a == 0 -> ~ b == 0 -> ~ a == b ->
  row_gap row = Plus (Qabs (TimingSpec.gapToLeader a b))
  /\ (b <= a ->
      Qabs (TimingSpec.gapToLeader a b) == TimingSpec.gapToLeader a b)
  /\ (forall first,
        timingBoard rd frameIndex !! 0%nat = Some first ->
        row_gap first = Leader).
Proof.
  intros Hrow Hleader Ha Hb Ha0 Hb0 Hab.
  destruct (timingBoard_lookup rd frameIndex (S idx) row Hrow)
    as (frame & c & pos & Hf & _ & _ & ->).
  rewrite Hf in *. rewrite row_code_timingRow in Ha.
  split; [|split].
  - rewrite row_gap_timingRow, Hleader, Ha, Hb.
    unfold timeDifference, plusCell, TimingSpec.gapToLeader.
    apply truthy_neq in Ha0, Hb0. rewrite Ha0, Hb0. cbn [andb].
    assert (Hd : truthy (a - b) = true) by (apply truthy_neq; lra).
    now rewrite Hd.
  - intros Hle. unfold TimingSpec.gapToLeader. apply Qabs_pos. lra.
  - intros first Hfirst.
    destruct (timingBoard_lookup rd frameIndex 0 first Hfirst)
      as (frame' & c' & pos' & _ & _ & _ & ->).
    reflexivity.
Qed.

(** The amended C7 applies to the example of the specification: the
    driver lapped in 92.345, the leader in 90, the lap is 6. *)
Lemma gap_to_leader_witness :
  row_gap
    (timingRow
       (Examples.timedSession 6
          [(5%Z, Examples.lapEntry (Some 90))]
          [(5%Z, Examples.lapEntry (Some 92.345))])
       (Some (Frame.mk 0 6 [("HAM"%string, Examples.sample 10 0 2 9);
                            ("VER"%string, Examples.sample 0 0 1 12)]))
       1 ("HAM"%string, Examples.sample 10 0 2 9))
  = Plus (Qabs (TimingSpec.gapToLeader 92.345 90)).
Proof.
  apply (gap_to_leader_is_absolute_difference
           (Examples.timedSession 6
              [(5%Z, Examples.lapEntry (Some 90))]
              [(5%Z, Examples.lapEntry (Some 92.345))])
           0 0 _ ("VER"%string, Examples.sample 0 0 1 12) 92.345 90).
  - reflexivity.
  - reflexivity.
  - reflexivity.
  - reflexivity.
  - intros H. vm_compute in H. discriminate H.
  - intros H. vm_compute in H. discriminate H.
  - intros H. vm_compute in H. discriminate H.
Defined.

(** In that example the cell reads +2.345 and the leader's row reads
    Leader. *)
Example gap_cells_of_spec_example :
  map row_gap
    (timingBoard
       (Examples.timedSession 6
          [(5%Z, Examples.lapEntry (Some 90))]
          [(5%Z, Examples.lapEntry (Some 92.345))]) 0)
  = [Leader; Plus (Qabs (92.345 - 90))]
  /\ Qabs (92.345 - 90) == 2.345.
Proof. split; reflexivity. Qed.

End TimingClaims.

(* ================================================================== *)
(** * Further properties of the page *)
(* ================================================================== *)

(** ** More rational arithmetic *)

Lemma Qfloor_unique (q : Q) (z : Z) :
  inject_Z z <= q -> q < inject_Z (z + 1) -> Qfloor q = z.
Proof.
  intros Hlo Hhi.
  pose proof (Qfloor_resp_le _ _ Hlo) as H1. rewrite Qfloor_Z in H1.
  pose proof (Qfloor_le q) as H2.
  assert (H3 : inject_Z (Qfloor q) < inject_Z (z + 1)) by lra.
  rewrite <- Zlt_Qlt in H3. lia.
Qed.

Lemma Qfloor_bounds (q : Q) :
  inject_Z (Qfloor q) <= q /\ q < inject_Z (Qfloor q) + 1.
Proof.
  split; [apply Qfloor_le|].
  pose proof (Qlt_floor q) as H. rewrite inject_Z_plus in H. exact H.
Qed.

Lemma js_div_pos (a b : Q) : 0 < b -> js_div a b = Finite (a / b).
Proof.
  intros Hb. unfold js_div. destruct (Qeq_bool b 0) eqn:E; [|reflexivity].
  apply Qeq_bool_iff in E. lra.
Qed.

Lemma Qdiv_pos_bounds (a b : Q) :
  0 < b -> (0 <= a -> 0 <= a / b) /\ (forall c, a < c * b -> a / b < c)
           /\ (forall c, c * b <= a -> c <= a / b)
           /\ (forall c, a <= c * b -> a / b <= c).
Proof.
  intros Hb. repeat split.
  - intros Ha. apply Qle_shift_div_l; lra.
  - intros c Hc. apply Qlt_shift_div_r; lra.
  - intros c Hc. apply Qle_shift_div_l; lra.
  - intros c Hc. apply Qle_shift_div_r; lra.
Qed.

(** ** More on the playback clock *)

Section ClockRuns.
Import Playback PlaybackSpec PlaybackFacts Clock.

Lemma frameInterval_pos (rd : RaceData.ty) (st : Playback.ty) :
  0 < RaceData.frameRate rd * playbackSpeed st ->
  exists interval, frameInterval rd st = Finite interval
    /\ 0 < interval
    /\ interval * (RaceData.frameRate rd * playbackSpeed st) == 1000.
Proof.
  intros Hp. unfold frameInterval. rewrite js_div_pos by exact Hp.
  set (rate := RaceData.frameRate rd * playbackSpeed st) in *.
  eexists. split; [reflexivity|]. split.
  - apply Qlt_shift_div_l; lra.
  - field. lra.
Qed.

(** After a call of [animate] the interpolation progress lies in [0, 1),
    provided the clock runs at a positive rate and time does not run
    backwards. *)
Theorem animate_progress_in_unit_interval
    (rd : RaceData.ty) (time : Q) (st : Playback.ty) :
  0 < RaceData.frameRate rd * playbackSpeed st ->
  lastTimeOr time st <= time ->
  0 <= interpolationProgress (animate rd time st) < 1.
Proof.
  intros Hp Ht. unfold lastTimeOr in Ht.
  destruct (frameInterval_pos rd st Hp) as (iv & Hiv & Hpos & _).
  unfold animate. rewrite Hiv.
  set (last := if Qeq_bool (lastTime st) 0 then time else lastTime st) in *.
  destruct (Qle_bool iv (time - last)) eqn:E.
  - cbn [interpolationProgress setLastTime setInterpolationProgress]. lra.
  - apply Qle_bool_false_lt in E.
    cbn [interpolationProgress setLastTime setInterpolationProgress].
    destruct (Qdiv_pos_bounds (time - last) iv Hpos) as (H0 & H1 & _).
    assert (Hq : 0 <= (time - last) / iv) by (apply H0; lra).
    assert (Hq1 : (time - last) / iv < 1) by (apply H1; lra).
    split.
    + apply Q.min_glb; lra.
    + apply Q.min_lt_iff. now left.
Qed.

Lemma animate_progress_witness :
  0 <= interpolationProgress
         (animate (Examples.session 5) 30
            (setLastTime 10 (Examples.playingAt 2 1))) < 1.
Proof.
  apply animate_progress_in_unit_interval.
  - vm_compute. reflexivity.
  - vm_compute. discriminate.
Defined.

Lemma animate_index_step (rd : RaceData.ty) (time : Q) (st : Playback.ty) :
  (frameIndex st <= frameIndex (animate rd time st) <= frameIndex st + 1)%Z
  /\ (frameIndex (animate rd time st)
      <= Z.max (frameIndex st) (frames_length rd - 1))%Z.
Proof.
  destruct (animate_frameIndex rd time st) as [Hyes Hno].
  destruct (intervalElapsed rd time st).
  - destruct (Hyes eq_refl) as (-> & _). unfold advance.
    destruct (frames_length rd - 1 <=? frameIndex st)%Z eqn:E;
      cbn [frameIndex setIsPlaying setFrameIndex].
    + lia.
    + apply Z.leb_gt in E. lia.
  - destruct (Hno eq_refl) as (-> & _). lia.
Qed.

(** During playback the frame index never moves backwards: over any
    sequence of animation frames it grows by at most one per frame and
    never passes the last index (or where it started, if that was
    beyond); a paused clock is not moved at all. *)
Theorem ticks_monotone (rd : RaceData.ty) (times : list Q) (st : Playback.ty) :
  (frameIndex st <= frameIndex (ticks rd times st)
   <= frameIndex st + Z.of_nat (length times))%Z
  /\ (frameIndex (ticks rd times st)
      <= Z.max (frameIndex st) (frames_length rd - 1))%Z
  /\ (isPlaying st = false -> ticks rd times st = st).
Proof.
  unfold ticks. revert st. induction times as [|time times IH]; intros st.
  - cbn. repeat split; lia.
  - cbn [foldl length]. destruct (isPlaying st) eqn:Hplay.
    + destruct (IH (animate rd time st)) as (H1 & H2 & _).
      destruct (animate_index_step rd time st) as (H3 & H4).
      repeat split; try lia; discriminate.
    + destruct (IH st) as (H1 & H2 & H3).
      repeat split; try lia; intros _; now apply H3.
Qed.

(** A running clock with a remembered timestamp advances exactly when
    the time since that timestamp, scaled by frame rate and speed, has
    reached 1000 ms; it then remembers the new timestamp, and otherwise
    leaves frame index and timestamp alone. *)
Theorem animate_advances_on_interval
    (rd : RaceData.ty) (time : Q) (st : Playback.ty) :
  0 < RaceData.frameRate rd * playbackSpeed st ->
  (1000 <= (time - lastTimeOr time st)
           * (RaceData.frameRate rd * playbackSpeed st) ->
   frameIndex (animate rd time st) = frameIndex (advance rd st)
   /\ isPlaying (animate rd time st) = isPlaying (advance rd st)
   /\ lastTime (animate rd time st) = time)
  /\ ((time - lastTimeOr time st)
      * (RaceData.frameRate rd * playbackSpeed st) < 1000 ->
      frameIndex (animate rd time st) = frameIndex st
      /\ isPlaying (animate rd time st) = isPlaying st
      /\ lastTime (animate rd time st) = lastTimeOr time st).
Proof.
  intros Hp. unfold lastTimeOr.
  destruct (frameInterval_pos rd st Hp) as (iv & Hiv & Hpos & Hmul).
  unfold animate. rewrite Hiv.
  set (last := if Qeq_bool (lastTime st) 0 then time else lastTime st) in *.
  set (rate := RaceData.frameRate rd * playbackSpeed st) in *.
  destruct (Qle_bool iv (time - last)) eqn:E.
  - apply Qle_bool_iff in E. split.
    + intros _.
      unfold advance, setLastTime, setInterpolationProgress, setIsPlaying,
        setFrameIndex.
      cbn [frameIndex isPlaying lastTime playbackSpeed interpolationProgress].
      destruct (frames_length rd - 1 <=? frameIndex st)%Z;
        repeat split; reflexivity.
    + intros Hlt. exfalso. nra.
  - apply Qle_bool_false_lt in E. split.
    + intros Hge. exfalso. nra.
    + intros _. repeat split; reflexivity.
Qed.

Lemma animate_advances_witness :
  frameIndex (animate (Examples.session 5) 60
                (setLastTime 10 (Examples.playingAt 2 2))) = 3%Z.
Proof.
  destruct (animate_advances_on_interval (Examples.session 5) 60
              (setLastTime 10 (Examples.playingAt 2 2))) as [Hadv _].
  - vm_compute. reflexivity.
  - destruct Hadv as (-> & _); [vm_compute; discriminate | reflexivity].
Defined.

End ClockRuns.

Section ClockRoundTrips.
Import Playback PlaybackSpec PlaybackFacts Clock.

(** Doubling then halving the speed, and halving then doubling it, give
    back the speed one started from, except where the first key press ran
    into its limit: from above 4 the pair ends at 4, from below 1 it ends
    at 1. *)
Theorem speed_keys_round_trip
    (rd : option RaceData.ty) (st : Playback.ty) :
  speed_in_range st ->
  playbackSpeed (handleKeyDown rd ArrowDown (handleKeyDown rd ArrowUp st))
    == Qmin (playbackSpeed st) 4
  /\ playbackSpeed (handleKeyDown rd ArrowUp (handleKeyDown rd ArrowDown st))
    == Qmax (playbackSpeed st) 1.
Proof.
  unfold speed_in_range. intros [Hlo Hhi].
  cbn [handleKeyDown playbackSpeed setPlaybackSpeed].
  set (s := playbackSpeed st) in *. split.
  - pose proof (Qdiv_2 (Qmin (s * 2) 8)) as Hd.
    destruct (Q.min_spec_le (s * 2) 8) as [[H1 H2]|[H1 H2]];
      destruct (Q.max_spec_le (Qmin (s * 2) 8 / 2) 0.5) as [[H3 H4]|[H3 H4]];
      destruct (Q.min_spec_le s 4) as [[H5 H6]|[H5 H6]]; lra.
  - pose proof (Qdiv_2 s) as Hd.
    destruct (Q.max_spec_le (s / 2) 0.5) as [[H1 H2]|[H1 H2]];
      destruct (Q.min_spec_le (Qmax (s / 2) 0.5 * 2) 8) as [[H3 H4]|[H3 H4]];
      destruct (Q.max_spec_le s 1) as [[H5 H6]|[H5 H6]]; lra.
Qed.

Lemma speed_keys_round_trip_witness :
  playbackSpeed
    (handleKeyDown None ArrowDown
       (handleKeyDown None ArrowUp (Examples.playingAt 0 2)))
  == Qmin 2 4.
Proof.
  destruct (speed_keys_round_trip None (Examples.playingAt 0 2)) as [H _].
  - unfold speed_in_range. cbn. split; vm_compute; discriminate.
  - exact H.
Defined.

Lemma speedButton_double (st : Playback.ty) :
  ~ playbackSpeed st == 8 ->
  playbackSpeed (speedButton st) == playbackSpeed st * 2.
Proof.
  intros H. cbn [speedButton playbackSpeed setPlaybackSpeed].
  destruct (Qeq_bool (playbackSpeed st) 8) eqn:E; [|reflexivity].
  apply Qeq_bool_iff in E. contradiction.
Qed.

Lemma speedButton_wrap (st : Playback.ty) :
  playbackSpeed st == 8 -> playbackSpeed (speedButton st) == 0.5.
Proof.
  intros H. cbn [speedButton playbackSpeed setPlaybackSpeed].
  apply Qeq_bool_iff in H. rewrite H. reflexivity.
Qed.

(** Records what one press of the speed button does to [st]. *)
Ltac press st :=
  let H := fresh "Hpress" in
  first
    [ assert (H : playbackSpeed (speedButton st) == playbackSpeed st * 2)
        by (apply speedButton_double; lra)
    | assert (H : playbackSpeed (speedButton st) == 0.5)
        by (apply speedButton_wrap; lra) ].

(** The speed button cycles with period five: from any of the speeds
    0.5, 1, 2, 4, 8 five presses lead back to the same speed, and fewer
    presses do not. *)
Theorem speed_button_cycles (st : Playback.ty) :
  standard_speed st ->
  playbackSpeed (speedOps (repeat Cycling 5) st) == playbackSpeed st
  /\ forall n, (0 < n < 5)%nat ->
       ~ playbackSpeed (speedOps (repeat Cycling n) st) == playbackSpeed st.
Proof.
  unfold standard_speed, speedOps. intros Hs.
  destruct Hs as [H|[H|[H|[H|H]]]];
    press st; press (speedButton st); press (speedButton (speedButton st));
    press (speedButton (speedButton (speedButton st)));
    press (speedButton (speedButton (speedButton (speedButton st))));
    (split;
     [ cbn [repeat foldl speedOp]; lra
     | intros n Hn; destruct n as [|[|[|[|[|n]]]]]; try lia;
       cbn [repeat foldl speedOp]; lra ]).
Qed.

Lemma speed_button_cycles_witness :
  playbackSpeed (speedOps (repeat Cycling 5) initial) == playbackSpeed initial.
Proof.
  destruct (speed_button_cycles initial) as [H _]; [|exact H].
  unfold standard_speed. right; left. reflexivity.
Defined.

(** A step forward followed by a step back returns to the frame one
    started from unless the step forward was cut short by the end of the
    session, and likewise for a step back followed by a step forward at
    the start; this holds for the arrow keys (10 frames) and for the
    rewind and fast-forward buttons (50 frames). *)
Theorem seek_steps_round_trip (rd : RaceData.ty) (st : Playback.ty) :
  in_range rd st ->
  frameIndex (handleKeyDown (Some rd) ArrowLeft
                (handleKeyDown (Some rd) ArrowRight st))
    = Z.min (frameIndex st) (Z.max (frames_length rd - 1 - 10) 0)
  /\ frameIndex (handleKeyDown (Some rd) ArrowRight
                   (handleKeyDown (Some rd) ArrowLeft st))
    = Z.max (frameIndex st) (Z.min 10 (frames_length rd - 1))
  /\ frameIndex (rewindButton (fastForwardButton rd st))
    = Z.min (frameIndex st) (Z.max (frames_length rd - 1 - 50) 0)
  /\ frameIndex (fastForwardButton rd (rewindButton st))
    = Z.max (frameIndex st) (Z.min 50 (frames_length rd - 1)).
Proof.
  unfold in_range. intros Hr.
  assert (Hlast : lastIndexOr0 (Some rd) = (frames_length rd - 1)%Z).
  { unfold lastIndexOr0. destruct (frames_length rd =? 0)%Z eqn:E; [|done].
    apply Z.eqb_eq in E. lia. }
  cbn [handleKeyDown rewindButton fastForwardButton frameIndex setFrameIndex].
  rewrite Hlast. repeat split; lia.
Qed.

Lemma seek_steps_round_trip_witness :
  frameIndex (handleKeyDown (Some (Examples.session 101)) ArrowLeft
                (handleKeyDown (Some (Examples.session 101)) ArrowRight
                   (Examples.playingAt 40 1)))
  = Z.min 40 (Z.max (frames_length (Examples.session 101) - 1 - 10) 0).
Proof.
  destruct (seek_steps_round_trip (Examples.session 101)
              (Examples.playingAt 40 1)) as [H _]; [|exact H].
  unfold in_range. vm_compute. split; discriminate.
Defined.

Lemma last_index_pos (rd : RaceData.ty) :
  (2 <= frames_length rd)%Z -> 0 < inject_Z (frames_length rd - 1).
Proof.
  intros H. change 0 with (inject_Z 0). rewrite <- Zlt_Qlt. lia.
Qed.

(** For a session of at least two frames the progress percentage of an
    in-range frame index is a number between 0 and 100 proportional to
    the index (0 at the first frame, 100 at the last). *)
Theorem progress_percentage_bounds (rd : RaceData.ty) (st : Playback.ty) :
  (2 <= frames_length rd)%Z ->
  in_range rd st ->
  exists p, progress rd st = Finite p
    /\ p * inject_Z (frames_length rd - 1) == 100 * inject_Z (frameIndex st)
    /\ 0 <= p <= 100.
Proof.
  unfold in_range. intros Hlen [H0 H1].
  pose proof (last_index_pos rd Hlen) as HN.
  unfold progress. rewrite js_div_pos by exact HN. cbn [js_scale].
  set (N := inject_Z (frames_length rd - 1)) in *.
  assert (Hi0 : 0 <= inject_Z (frameIndex st))
    by (change 0 with (inject_Z 0); now rewrite <- Zle_Qle).
  assert (Hi1 : inject_Z (frameIndex st) <= N)
    by (unfold N; now rewrite <- Zle_Qle).
  eexists. split; [reflexivity|]. split; [field; lra|].
  destruct (Qdiv_pos_bounds (inject_Z (frameIndex st)) N HN)
    as (Ha & _ & _ & Hb).
  specialize (Ha Hi0). specialize (Hb 1). split; [nra|].
  assert (inject_Z (frameIndex st) / N <= 1) by (apply Hb; lra). lra.
Qed.

Lemma progress_percentage_witness :
  exists p, progress (Examples.session 5) (Examples.playingAt 2 1) = Finite p
            /\ p == 50.
Proof.
  destruct (progress_percentage_bounds (Examples.session 5)
              (Examples.playingAt 2 1)) as (p & Hp & Hmul & _).
  - vm_compute. discriminate.
  - unfold in_range. vm_compute. split; discriminate.
  - exists p. split; [exact Hp|].
    change (inject_Z (frames_length (Examples.session 5) - 1)) with 4 in Hmul.
    change (inject_Z (frameIndex (Examples.playingAt 2 1))) with 2 in Hmul.
    lra.
Defined.

(** A click on a progress bar whose width is a positive double, in a
    session of at least one frame: at the left edge it selects the first
    frame; at a distance from the left edge equal to the width of the bar
    it selects the last frame; anywhere on the bar it selects a frame of
    the session; and a click further right never selects an earlier
    frame.  All of this holds for the rounded arithmetic of the handler. *)
Theorem progress_bar_click_edges_and_order
    (rd : RaceData.ty) (st : Playback.ty) (rectLeft rectWidth : Q) :
  (1 <= frames_length rd < 2 ^ 53)%Z ->
  0 < rectWidth ->
  Binary64.rounds_to rectWidth rectWidth ->
  clickedFrame rd rectLeft rectLeft rectWidth st = Some 0%Z
  /\ (forall clientX,
        clientX - rectLeft == rectWidth ->
        clickedFrame rd clientX rectLeft rectWidth st
        = Some (frames_length rd - 1)%Z)
  /\ (forall clientX,
        rectLeft <= clientX <= rectLeft + rectWidth ->
        exists f,
          clickedFrame rd clientX rectLeft rectWidth st = Some f
          /\ (0 <= f <= frames_length rd - 1)%Z)
  /\ (forall x1 x2 f1 f2, x1 <= x2 ->
        clickedFrame rd x1 rectLeft rectWidth st = Some f1 ->
        clickedFrame rd x2 rectLeft rectWidth st = Some f2 ->
        (f1 <= f2)%Z).
Proof.
  intros Hlen Hw Hdouble. unfold clickedFrame.
  split; [|split; [|split]].
  - rewrite progressBarClick_left by lra. reflexivity.
  - intros clientX Hx.
    rewrite (progressBarClick_right rd clientX rectLeft rectWidth st
               Hlen Hw Hdouble Hx). reflexivity.
  - intros clientX Hx.
    destruct (progressBarClick_on_bar rd clientX rectLeft rectWidth st
                Hlen Hw Hdouble Hx) as (st' & -> & Hr).
    exists (frameIndex st'). split; [reflexivity | exact Hr].
  - intros x1 x2 f1 f2 Hx H1 H2.
    destruct (progressBarClick rd x1 rectLeft rectWidth st) as [st1|] eqn:E1;
      [|discriminate].
    destruct (progressBarClick rd x2 rectLeft rectWidth st) as [st2|] eqn:E2;
      [|discriminate].
    cbn in H1, H2. injection H1 as <-. injection H2 as <-.
    apply (progressBarClick_mono rd x1 x2 rectLeft rectWidth st st1 st2);
      [lia | exact Hw | exact Hx | exact E1 | exact E2].
Qed.

Lemma progress_bar_click_edges_witness :
  clickedFrame (Examples.session 5) (32 + 1000) 32 1000
    (Examples.playingAt 2 1) = Some 4%Z.
Proof.
  destruct (progress_bar_click_edges_and_order (Examples.session 5)
              (Examples.playingAt 2 1) 32 1000) as (_ & H & _).
  - vm_compute. split; [discriminate | reflexivity].
  - reflexivity.
  - eexists. split; vm_compute; reflexivity.
  - apply H. ring.
Defined.

(** Rounding can cost a frame: 290 pixels into a bar of 1000 pixels the
    handler computes [0.29 * 100] as a double just below 29 and selects
    frame 28 of a 101-frame session, where the exact product is 29. *)
Example progress_bar_click_rounds_down :
  clickedFrame (Examples.session 101) 290 0 1000 Playback.initial = Some 28%Z
  /\ Qfloor ((290 - 0) / 1000 * inject_Z (frames_length (Examples.session 101) - 1))
     = 29%Z.
Proof. split; vm_compute; reflexivity. Qed.

End ClockRoundTrips.

(** ** Projection of the track onto the canvas *)

Section ProjectionFacts.
Import Projection.

Lemma minimum_spec (xs : list Q) :
  xs <> [] ->
  exists m, JsNum.minimum xs = Finite m
    /\ (exists v, v ∈ xs /\ v == m)
    /\ forall v, v ∈ xs -> m <= v.
Proof.
  induction xs as [|v xs IH]; [done|]. intros _.
  destruct xs as [|v' xs].
  - exists v. split; [reflexivity|]. split.
    + exists v. split; [apply elem_of_cons; now left | reflexivity].
    + intros u Hu. apply elem_of_cons in Hu as [->|Hu]; [lra|].
      now apply elem_of_nil in Hu.
  - destruct IH as (m & Hm & (w & Hw & Hwm) & Hle); [done|].
    exists (Qmin v m). split.
    + change (JsNum.minimum (v :: v' :: xs))
        with (JsNum.min (Finite v) (JsNum.minimum (v' :: xs))).
      now rewrite Hm.
    + split.
      * destruct (Q.min_spec_le v m) as [[_ E]|[_ E]].
        -- exists v. split; [apply elem_of_cons; now left | now rewrite E].
        -- exists w. split; [apply elem_of_cons; now right | now rewrite E].
      * intros u Hu. pose proof (Q.le_min_l v m). pose proof (Q.le_min_r v m).
        apply elem_of_cons in Hu as [->|Hu]; [lra|].
        specialize (Hle u Hu). lra.
Qed.

Lemma maximum_spec (xs : list Q) :
  xs <> [] ->
  exists m, JsNum.maximum xs = Finite m
    /\ (exists v, v ∈ xs /\ v == m)
    /\ forall v, v ∈ xs -> v <= m.
Proof.
  induction xs as [|v xs IH]; [done|]. intros _.
  destruct xs as [|v' xs].
  - exists v. split; [reflexivity|]. split.
    + exists v. split; [apply elem_of_cons; now left | reflexivity].
    + intros u Hu. apply elem_of_cons in Hu as [->|Hu]; [lra|].
      now apply elem_of_nil in Hu.
  - destruct IH as (m & Hm & (w & Hw & Hwm) & Hle); [done|].
    exists (Qmax v m). split.
    + change (JsNum.maximum (v :: v' :: xs))
        with (JsNum.max (Finite v) (JsNum.maximum (v' :: xs))).
      now rewrite Hm.
    + split.
      * destruct (Q.max_spec_le v m) as [[_ E]|[_ E]].
        -- exists w. split; [apply elem_of_cons; now right | now rewrite E].
        -- exists v. split; [apply elem_of_cons; now left | now rewrite E].
      * intros u Hu. pose proof (Q.le_max_l v m). pose proof (Q.le_max_r v m).
        apply elem_of_cons in Hu as [->|Hu]; [lra|].
        specialize (Hle u Hu). lra.
Qed.

(** The extent of a list of coordinates that holds two different values. *)
Lemma extent_spec (vs : list Q) (a b : Q) :
  a ∈ vs -> b ∈ vs -> a < b ->
  exists lo hi, JsNum.minimum vs = Finite lo /\ JsNum.maximum vs = Finite hi
    /\ lo < hi /\ forall v, v ∈ vs -> lo <= v <= hi.
Proof.
  intros Ha Hb Hab.
  assert (Hne : vs <> []) by (intros ->; now apply elem_of_nil in Ha).
  destruct (minimum_spec vs Hne) as (lo & Hlo & _ & Hlo').
  destruct (maximum_spec vs Hne) as (hi & Hhi & _ & Hhi').
  exists lo, hi. split; [exact Hlo|]. split; [exact Hhi|].
  pose proof (Hlo' a Ha). pose proof (Hhi' b Hb).
  split; [lra|]. intros v Hv. split; [now apply Hlo' | now apply Hhi'].
Qed.

(** One axis of the projection: with a positive extent [hi - lo], a
    positive scale [s] that does not stretch the extent beyond the
    canvas side [side] less the padding, every coordinate lands between
    the paddings and the extent is centred. *)
Lemma axis_fit (lo hi side s v : Q) :
  lo <= v <= hi -> 0 < s -> (hi + - lo) * s <= side - 100 ->
  50 <= v * s + ((side + - ((hi + - lo) * s)) / 2 + - (lo * s)) <= side - 50.
Proof.
  intros [H1 H2] Hs Hfit.
  rewrite (Qdiv_2 (side + - ((hi + - lo) * s))).
  split; nra.
Qed.

Lemma axis_centred (lo hi side s : Q) :
  (lo * s + ((side + - ((hi + - lo) * s)) / 2 + - (lo * s)))
  + (hi * s + ((side + - ((hi + - lo) * s)) / 2 + - (lo * s))) == side.
Proof. field. Qed.

(** For a track that is not degenerate (two different x values, two
    different y values) on a canvas larger than the padding, the scale
    is one positive number for both axes, every point of the track is
    drawn at least 50 pixels inside the canvas on every side, the track
    is centred on both axes, and it fills the padded canvas along at
    least one axis. *)
Theorem track_fits_canvas
    (track : Track) (canvas : Canvas) (ax bx ay by_ : Q) :
  ax ∈ x track -> bx ∈ x track -> ax < bx ->
  ay ∈ y track -> by_ ∈ y track -> ay < by_ ->
  100 < width canvas -> 100 < height canvas ->
  exists s ox oy x0 x1 y0 y1,
    scale track canvas = Finite s /\ 0 < s
    /\ offsetX track canvas = Finite ox
    /\ offsetY track canvas = Finite oy
    /\ (forall v, v ∈ x track ->
          screenX track canvas (Finite v) = Finite (v * s + ox)
          /\ 50 <= v * s + ox <= width canvas - 50)
    /\ (forall v, v ∈ y track ->
          screenY track canvas (Finite v) = Finite (v * s + oy)
          /\ 50 <= v * s + oy <= height canvas - 50)
    /\ (forall i p yi,
          trackPoints track canvas !! i = Some p -> y track !! i = Some yi ->
          exists px py, p = (Finite px, Finite py)
            /\ 50 <= px <= width canvas - 50
            /\ 50 <= py <= height canvas - 50)
    /\ xMin track = Finite x0 /\ xMax track = Finite x1
    /\ yMin track = Finite y0 /\ yMax track = Finite y1
    /\ (x0 * s + ox) + (x1 * s + ox) == width canvas
    /\ (y0 * s + oy) + (y1 * s + oy) == height canvas
    /\ ((x1 - x0) * s == width canvas - 100
        \/ (y1 - y0) * s == height canvas - 100).
Proof.
  intros Hax Hbx Habx Hay Hby Haby Hw Hh.
  destruct (extent_spec (x track) ax bx Hax Hbx Habx)
    as (x0 & x1 & Hx0 & Hx1 & Hxlt & Hxin).
  destruct (extent_spec (y track) ay by_ Hay Hby Haby)
    as (y0 & y1 & Hy0 & Hy1 & Hylt & Hyin).
  assert (Htw : trackWidth track = Finite (x1 + - x0))
    by (unfold trackWidth, xMax, xMin; now rewrite Hx0, Hx1).
  assert (Hth : trackHeight track = Finite (y1 + - y0))
    by (unfold trackHeight, yMax, yMin; now rewrite Hy0, Hy1).
  set (sx := (width canvas - padding * 2) / (x1 + - x0)).
  set (sy := (height canvas - padding * 2) / (y1 + - y0)).
  assert (Hs : scale track canvas = Finite (Qmin sx sy)).
  { unfold scale, scaleX, scaleY. rewrite Htw, Hth. cbn [JsNum.quot].
    rewrite !js_div_pos by lra. reflexivity. }
  assert (Hsx : sx * (x1 + - x0) == width canvas - 100).
  { unfold sx, padding. field. lra. }
  assert (Hsy : sy * (y1 + - y0) == height canvas - 100).
  { unfold sy, padding. field. lra. }
  assert (Hsxpos : 0 < sx).
  { unfold sx, padding. apply Qlt_shift_div_l; lra. }
  assert (Hsypos : 0 < sy).
  { unfold sy, padding. apply Qlt_shift_div_l; lra. }
  set (s := Qmin sx sy) in *.
  assert (Hspos : 0 < s) by (now apply Q.min_glb_lt).
  assert (Hs1 : s <= sx) by apply Q.le_min_l.
  assert (Hs2 : s <= sy) by apply Q.le_min_r.
  assert (Hox : offsetX track canvas
                = Finite ((width canvas + - ((x1 + - x0) * s)) / 2 + - (x0 * s))).
  { unfold offsetX, xMin. rewrite Htw, Hs, Hx0.
    cbn [JsNum.mul JsNum.sub JsNum.add JsNum.neg JsNum.quot].
    rewrite js_div_pos by lra. reflexivity. }
  assert (Hoy : offsetY track canvas
                = Finite ((height canvas + - ((y1 + - y0) * s)) / 2 + - (y0 * s))).
  { unfold offsetY, yMin. rewrite Hth, Hs, Hy0.
    cbn [JsNum.mul JsNum.sub JsNum.add JsNum.neg JsNum.quot].
    rewrite js_div_pos by lra. reflexivity. }
  eexists s, _, _, x0, x1, y0, y1.
  split; [exact Hs|]. split; [exact Hspos|].
  split; [exact Hox|]. split; [exact Hoy|].
  assert (Hfx : forall v, v ∈ x track ->
            screenX track canvas (Finite v)
            = Finite (v * s + ((width canvas + - ((x1 + - x0) * s)) / 2
                               + - (x0 * s)))
            /\ 50 <= v * s + ((width canvas + - ((x1 + - x0) * s)) / 2
                              + - (x0 * s)) <= width canvas - 50).
  { intros v Hv. split.
    + unfold screenX. rewrite Hs, Hox. reflexivity.
    + apply axis_fit; [now apply Hxin | exact Hspos | nra]. }
  assert (Hfy : forall v, v ∈ y track ->
            screenY track canvas (Finite v)
            = Finite (v * s + ((height canvas + - ((y1 + - y0) * s)) / 2
                               + - (y0 * s)))
            /\ 50 <= v * s + ((height canvas + - ((y1 + - y0) * s)) / 2
                              + - (y0 * s)) <= height canvas - 50).
  { intros v Hv. split.
    + unfold screenY. rewrite Hs, Hoy. reflexivity.
    + apply axis_fit; [now apply Hyin | exact Hspos | nra]. }
  split; [exact Hfx|]. split; [exact Hfy|]. split.
  - intros i p yi Hp Hyi. unfold trackPoints in Hp.
    rewrite list_lookup_imap in Hp.
    destruct (x track !! i) as [xi|] eqn:Hxi; [|discriminate].
    apply (inj Some) in Hp. subst p. unfold coordinate. rewrite Hyi.
    destruct (Hfx xi) as [-> Hbx']; [now apply list_elem_of_lookup_2 in Hxi|].
    destruct (Hfy yi) as [-> Hby']; [now apply list_elem_of_lookup_2 in Hyi|].
    eexists _, _. split; [reflexivity|]. split; assumption.
  - unfold xMin, xMax, yMin, yMax.
    split; [exact Hx0|]. split; [exact Hx1|].
    split; [exact Hy0|]. split; [exact Hy1|].
    split; [apply axis_centred|]. split; [apply axis_centred|].
    destruct (Q.min_spec_le sx sy) as [[_ E]|[_ E]]; fold s in E.
    + left. rewrite E. lra.
    + right. rewrite E. lra.
Qed.

Lemma track_fits_canvas_witness :
  exists s, scale (mkTrack [0; 400; 400; 0] [0; 0; 100; 100])
              (mkCanvas 900 500) = Finite s
            /\ 0 < s.
Proof.
  destruct (track_fits_canvas (mkTrack [0; 400; 400; 0] [0; 0; 100; 100])
              (mkCanvas 900 500) 0 400 0 100)
    as (s & ox & oy & x0 & x1 & y0 & y1 & Hs & Hpos & _).
  - cbn. apply elem_of_cons. now left.
  - cbn. apply elem_of_cons. right. apply elem_of_cons. now left.
  - vm_compute. reflexivity.
  - cbn. apply elem_of_cons. now left.
  - cbn. do 2 (apply elem_of_cons; right). apply elem_of_cons. now left.
  - vm_compute. reflexivity.
  - vm_compute. reflexivity.
  - vm_compute. reflexivity.
  - exists s. split; assumption.
Defined.

(** Without any track point the bounding box is infinite: the scale
    degenerates to zero and the offsets are not numbers. *)
Example empty_track_scale :
  scale (mkTrack [] []) (mkCanvas 900 500) = Finite 0
  /\ offsetX (mkTrack [] []) (mkCanvas 900 500) = NaN
  /\ offsetY (mkTrack [] []) (mkCanvas 900 500) = NaN.
Proof. repeat split; reflexivity. Qed.

Lemma zone_floor_bounds (a b : Q) (n : nat) :
  0 <= a -> a <= b -> b < 1 -> (1 <= n)%nat ->
  (0 <= Qfloor (a * inject_Z (Z.of_nat n))
   <= Qfloor (b * inject_Z (Z.of_nat n)))%Z
  /\ (Qfloor (b * inject_Z (Z.of_nat n)) <= Z.of_nat n - 1)%Z.
Proof.
  intros Ha Hab Hb Hn.
  assert (HN : 1 <= inject_Z (Z.of_nat n)).
  { change 1 with (inject_Z 1). rewrite <- Zle_Qle. lia. }
  set (N := inject_Z (Z.of_nat n)) in *.
  split; [split|].
  - change 0%Z with (Qfloor (inject_Z 0)). apply Qfloor_resp_le.
    change (inject_Z 0) with 0. nra.
  - apply Qfloor_resp_le. nra.
  - destruct (Qfloor_bounds (b * N)) as [Hlo _].
    assert (H : inject_Z (Qfloor (b * N)) < inject_Z (Z.of_nat n))
      by (fold N; nra).
    rewrite <- Zlt_Qlt in H. lia.
Qed.

(** On a track with at least one point both DRS zones are non-empty
    index ranges inside the point sequence: every index of a zone's path
    and the index of its label address an existing point; with at least
    eight points the first zone ends before the second one starts. *)
Theorem drs_zone_indices_in_bounds (n : nat) (zone : Q * Q) :
  (1 <= n)%nat ->
  zone ∈ drsZones ->
  (0 <= startIdx n zone <= endIdx n zone)%Z
  /\ (endIdx n zone < Z.of_nat n)%Z
  /\ (forall i, i ∈ zoneIndices n zone ->
        (startIdx n zone <= i <= endIdx n zone)%Z /\ (0 <= i < Z.of_nat n)%Z)
  /\ (startIdx n zone <= labelIdx n zone <= endIdx n zone)%Z
  /\ ((8 <= n)%nat ->
      (endIdx n (0.65, 0.75)%Q < startIdx n (0.88, 0.98)%Q)%Z).
Proof.
  intros Hn Hzone.
  assert (Hb : (0 <= startIdx n zone <= endIdx n zone)%Z
               /\ (endIdx n zone <= Z.of_nat n - 1)%Z).
  { unfold drsZones in Hzone.
    apply elem_of_cons in Hzone as [->|Hzone];
      [|apply elem_of_cons in Hzone as [->|Hzone];
        [|now apply elem_of_nil in Hzone]];
      unfold startIdx, endIdx; cbn [fst snd];
      apply zone_floor_bounds; try exact Hn; lra. }
  destruct Hb as [Hse Hend].
  split; [exact Hse|]. split; [lia|]. split; [|split].
  - intros i Hi. unfold zoneIndices in Hi.
    apply list_elem_of_fmap in Hi as (k & -> & Hk).
    apply elem_of_seq in Hk. lia.
  - unfold labelIdx.
    set (m := (startIdx n zone + endIdx n zone)%Z) in *.
    destruct (Qfloor_bounds (inject_Z m / 2)) as [Hlo Hhi].
    pose proof (Qdiv_2 (inject_Z m)) as Hd.
    set (f := Qfloor (inject_Z m / 2)) in *.
    assert (H1 : inject_Z (2 * f) <= inject_Z m)
      by (rewrite inject_Z_mult; change (inject_Z 2) with 2; lra).
    assert (H2 : inject_Z m < inject_Z (2 * f + 2))
      by (rewrite inject_Z_plus, inject_Z_mult; change (inject_Z 2) with 2; lra).
    rewrite <- Zle_Qle in H1. rewrite <- Zlt_Qlt in H2. lia.
  - intros H8. unfold startIdx, endIdx. cbn [fst snd].
    assert (HN : 8 <= inject_Z (Z.of_nat n)).
    { change 8 with (inject_Z 8). rewrite <- Zle_Qle. lia. }
    set (N := inject_Z (Z.of_nat n)) in *.
    destruct (Qfloor_bounds (0.75 * N)) as [Hlo _].
    set (f := Qfloor (0.75 * N)) in *.
    assert (H : inject_Z (f + 1) <= 0.88 * N)
      by (rewrite inject_Z_plus; change (inject_Z 1) with 1; lra).
    apply Qfloor_resp_le in H. rewrite Qfloor_Z in H. lia.
Qed.

Lemma drs_zone_indices_witness :
  (0 <= startIdx 200 (0.88, 0.98)%Q <= endIdx 200 (0.88, 0.98)%Q)%Z
  /\ (endIdx 200 (0.88, 0.98)%Q < Z.of_nat 200)%Z.
Proof.
  destruct (drs_zone_indices_in_bounds 200 (0.88, 0.98)) as (H1 & H2 & _).
  - lia.
  - unfold drsZones. apply elem_of_cons. right. apply elem_of_cons. now left.
  - split; assumption.
Defined.

(** For an empty point sequence the zone's path still visits index 0,
    which does not exist. *)
Example drs_zone_on_empty_track :
  zoneIndices 0 (0.65, 0.75) = [0%Z].
Proof. reflexivity. Qed.

End ProjectionFacts.

(** ** Order of drawing and of the timing rows *)

Section SortOrder.
Context {A : Type} (leb : A -> A -> bool).
Hypothesis leb_total : forall a b, leb a b = true \/ leb b a = true.
Hypothesis leb_trans :
  forall a b c, leb a b = true -> leb b c = true -> leb a c = true.

Lemma sort_insert_perm (a : A) (l : list A) : sort_insert leb a l ≡ₚ a :: l.
Proof.
  induction l as [|b l IH]; cbn [sort_insert]; [reflexivity|].
  destruct (leb a b); [reflexivity|].
  rewrite IH. apply perm_swap.
Qed.

Lemma stable_sort_perm (l : list A) : stable_sort leb l ≡ₚ l.
Proof.
  unfold stable_sort. induction l as [|a l IH]; cbn [foldr]; [reflexivity|].
  now rewrite sort_insert_perm, IH.
Qed.

Lemma sort_insert_sorted (a : A) (l : list A) :
  StronglySorted (fun u v => leb u v = true) l ->
  StronglySorted (fun u v => leb u v = true) (sort_insert leb a l).
Proof.
  induction 1 as [|b l Hl IH Hb]; cbn [sort_insert].
  - constructor; constructor.
  - destruct (leb a b) eqn:E.
    + constructor; [now constructor|].
      constructor; [exact E|].
      eapply Forall_impl; [exact Hb|]. intros c Hc. now apply (leb_trans a b c).
    + constructor; [exact IH|].
      apply Forall_forall. intros c Hc.
      apply elem_of_sort_insert in Hc as [->|Hc].
      * destruct (leb_total a b) as [H|H]; [congruence | exact H].
      * rewrite Forall_forall in Hb. now apply Hb.
Qed.

Lemma stable_sort_sorted (l : list A) :
  StronglySorted (fun u v => leb u v = true) (stable_sort leb l).
Proof.
  unfold stable_sort. induction l as [|a l IH]; cbn [foldr].
  - constructor.
  - now apply sort_insert_sorted.
Qed.
End SortOrder.

Lemma sorted_lookup {A : Type} (R : A -> A -> Prop) (l : list A)
    (i j : nat) (a b : A) :
  StronglySorted R l -> (i < j)%nat ->
  l !! i = Some a -> l !! j = Some b -> R a b.
Proof.
  intros Hs. revert i j. induction Hs as [|c l Hl IH Hc]; intros i j Hij Hi Hj.
  - discriminate.
  - destruct j as [|j]; [lia|]. cbn in Hj. destruct i as [|i].
    + injection Hi as ->. rewrite Forall_forall in Hc. apply Hc.
      now apply list_elem_of_lookup_2 in Hj.
    + cbn in Hi. apply (IH i j); [lia | exact Hi | exact Hj].
Qed.

Lemma obj_get_of_key {V : Type} (o : list (string * V)) (k : string) :
  k ∈ obj_keys o -> is_Some (obj_get o k).
Proof.
  unfold obj_keys. induction o as [|[k' v] o IH]; cbn [map obj_get fst].
  - intros H. now apply elem_of_nil in H.
  - intros H. case_decide as Hk; [eauto|].
    apply elem_of_cons in H as [->|H]; [contradiction | now apply IH].
Qed.

Section DrawOrder.
Import Render.

Lemma drawDriver_of_key (next : option Frame.ty) (f : Q) (sel : option string)
    (frame : Frame.ty) (k : string) :
  k ∈ obj_keys (Frame.drivers frame) ->
  exists d, drawDriver next f sel frame k = Some d
    /\ code d = k
    /\ emphasised d
       = (bool_decide (sel = Some k) || (positionOf frame k <=? 3)%Z).
Proof.
  intros Hk. apply obj_get_of_key in Hk as [pos Hpos].
  unfold drawDriver, positionOf. rewrite Hpos.
  eexists. split; [reflexivity|]. split; reflexivity.
Qed.

Lemma codes_of_drawn (next : option Frame.ty) (f : Q) (sel : option string)
    (frame : Frame.ty) (keys : list string) :
  (forall k, k ∈ keys -> k ∈ obj_keys (Frame.drivers frame)) ->
  code <$> omap (drawDriver next f sel frame) keys = keys.
Proof.
  induction keys as [|k keys IH]; intros Hin; [reflexivity|].
  cbn [omap list_omap].
  destruct (drawDriver_of_key next f sel frame k) as (d & -> & Hc & _).
  { apply Hin. apply elem_of_cons. now left. }
  cbn [fmap list_fmap]. rewrite Hc. f_equal. apply IH.
  intros k' Hk'. apply Hin. apply elem_of_cons. now right.
Qed.

(** Every driver of the current frame is drawn exactly once, in the
    order of non-increasing running position, so that no dot is drawn
    after (on top of) the dot of a driver placed better; a dot is
    emphasised exactly when its driver is selected or runs in the first
    three positions. *)
Theorem draw_order_leader_on_top
    (rd : RaceData.ty) (frameIndex : Z) (progress : Q)
    (selectedDriver : option string) (dots : list Dot) :
  drawDrivers rd frameIndex progress selectedDriver = Some dots ->
  exists frame,
    array_get (RaceData.frames rd) frameIndex = Some frame
    /\ code <$> dots ≡ₚ obj_keys (Frame.drivers frame)
    /\ (forall i j di dj, (i < j)%nat ->
          dots !! i = Some di -> dots !! j = Some dj ->
          (positionOf frame (code dj) <= positionOf frame (code di))%Z)
    /\ (forall top d, last dots = Some top -> d ∈ dots ->
          (positionOf frame (code top) <= positionOf frame (code d))%Z)
    /\ (forall d, d ∈ dots ->
          emphasised d = true
          <-> selectedDriver = Some (code d)
              \/ (positionOf frame (code d) <= 3)%Z).
Proof.
  unfold drawDrivers.
  destruct (array_get (RaceData.frames rd) frameIndex) as [frame|];
    [|discriminate].
  intros H. apply (inj Some) in H. exists frame. split; [reflexivity|].
  set (next := nextFrame rd frameIndex) in *.
  set (leb := fun a b : string => (positionOf frame b <=? positionOf frame a)%Z).
  assert (Hkeys : forall k, k ∈ sortedDrivers frame ->
                            k ∈ obj_keys (Frame.drivers frame)).
  { intros k Hk. now apply elem_of_stable_sort in Hk. }
  assert (Hcodes : code <$> dots = sortedDrivers frame).
  { rewrite <- H. now apply codes_of_drawn. }
  assert (Hsorted : StronglySorted (fun u v => leb u v = true)
                      (sortedDrivers frame)).
  { apply stable_sort_sorted; unfold leb.
    - intros a b. rewrite !Z.leb_le. lia.
    - intros a b c. rewrite !Z.leb_le. lia. }
  assert (Horder : forall i j di dj, (i < j)%nat ->
            dots !! i = Some di -> dots !! j = Some dj ->
            (positionOf frame (code dj) <= positionOf frame (code di))%Z).
  { intros i j di dj Hij Hi Hj.
    assert (Hi' : sortedDrivers frame !! i = Some (code di))
      by (rewrite <- Hcodes, list_lookup_fmap, Hi; reflexivity).
    assert (Hj' : sortedDrivers frame !! j = Some (code dj))
      by (rewrite <- Hcodes, list_lookup_fmap, Hj; reflexivity).
    pose proof (sorted_lookup _ _ i j _ _ Hsorted Hij Hi' Hj') as Hle.
    unfold leb in Hle. now apply Z.leb_le in Hle. }
  split; [|split; [exact Horder|split]].
  - rewrite Hcodes. unfold sortedDrivers. apply stable_sort_perm.
  - intros top d Htop Hd. rewrite last_lookup in Htop.
    apply list_elem_of_lookup in Hd as [i Hi].
    pose proof (lookup_lt_Some _ _ _ Hi) as Hlt.
    destruct (decide (i = pred (length dots))) as [->|Hne].
    + rewrite Hi in Htop. injection Htop as ->. lia.
    + apply (Horder i (pred (length dots)) d top); [lia | exact Hi | exact Htop].
  - intros d Hd. rewrite <- H in Hd.
    apply list_elem_of_omap in Hd as (k & Hk & Hdraw).
    destruct (drawDriver_of_key next progress selectedDriver frame k (Hkeys k Hk))
      as (d' & Hd' & Hc & He).
    rewrite Hdraw in Hd'. injection Hd' as <-. rewrite He, Hc.
    rewrite orb_true_iff, bool_decide_eq_true, Z.leb_le. reflexivity.
Qed.

Lemma draw_order_witness :
  exists frame,
    array_get (RaceData.frames Examples.twoCars) 0 = Some frame
    /\ code <$> [mkDot "HAM" (interp 10 10 0) (interp 0 0 0) true;
                 mkDot "VER" (interp 0 4 0) (interp 0 2 0) true]
       ≡ₚ obj_keys (Frame.drivers frame).
Proof.
  destruct (draw_order_leader_on_top Examples.twoCars 0 0 None
              [mkDot "HAM" (interp 10 10 0) (interp 0 0 0) true;
               mkDot "VER" (interp 0 4 0) (interp 0 2 0) true])
    as (frame & Hf & Hperm & _).
  - reflexivity.
  - exists frame. split; assumption.
Defined.

End DrawOrder.

Section BoardOrder.
Import Timing.

Lemma timingBoard_summary (rd : RaceData.ty) (frameIndex : Z) :
  (fun row => (row_code row, row_position row)) <$> timingBoard rd frameIndex
  = (fun entry : string * DriverPosition.ty =>
       (entry.1, DriverPosition.position entry.2))
    <$> sortedDrivers (array_get (RaceData.frames rd) frameIndex).
Proof.
  unfold timingBoard. apply list_eq. intros i.
  rewrite !list_lookup_fmap, list_lookup_imap.
  destruct (sortedDrivers _ !! i) as [[c pos]|]; reflexivity.
Qed.

(** The timing board has one row for every driver of the current frame,
    carrying the driver's code and running position, in the order of
    non-decreasing running position; without a current frame it has no
    row. *)
Theorem timing_board_sorted_by_position (rd : RaceData.ty) (frameIndex : Z) :
  (forall frame,
      array_get (RaceData.frames rd) frameIndex = Some frame ->
      (fun row => (row_code row, row_position row)) <$> timingBoard rd frameIndex
      ≡ₚ (fun entry : string * DriverPosition.ty =>
            (entry.1, DriverPosition.position entry.2))
         <$> Frame.drivers frame)
  /\ (forall i j ri rj, (i < j)%nat ->
        timingBoard rd frameIndex !! i = Some ri ->
        timingBoard rd frameIndex !! j = Some rj ->
        (row_position ri <= row_position rj)%Z)
  /\ (array_get (RaceData.frames rd) frameIndex = None ->
      timingBoard rd frameIndex = []).
Proof.
  set (leb := fun a b : string * DriverPosition.ty =>
                (DriverPosition.position a.2 <=? DriverPosition.position b.2)%Z).
  split; [|split].
  - intros frame Hf. rewrite timingBoard_summary, Hf. cbn [sortedDrivers].
    apply fmap_Permutation. apply stable_sort_perm.
  - intros i j ri rj Hij Hi Hj.
    destruct (timingBoard_lookup rd frameIndex i ri Hi)
      as (frame & ci & pi & Hf & Hsi & _ & ->).
    destruct (timingBoard_lookup rd frameIndex j rj Hj)
      as (frame' & cj & pj & Hf' & Hsj & _ & ->).
    rewrite Hf in Hf'. injection Hf' as <-.
    assert (Hsorted : StronglySorted (fun u v => leb u v = true)
                        (sortedDrivers (Some frame))).
    { cbn [sortedDrivers]. apply stable_sort_sorted; unfold leb.
      - intros a b. rewrite !Z.leb_le. lia.
      - intros a b c. rewrite !Z.leb_le. lia. }
    pose proof (sorted_lookup _ _ i j _ _ Hsorted Hij Hsi Hsj) as Hle.
    unfold leb in Hle. now apply Z.leb_le in Hle.
  - intros Hf. unfold timingBoard. rewrite Hf. reflexivity.
Qed.

End BoardOrder.

(** ** More on the timing board *)

Section TimingCells.
Import Timing.

Lemma row_lastLap_timingRow rd cf idx c pos :
  row_lastLap (timingRow rd cf idx (c, pos))
  = formatLapTime (lapTimeOf rd c (currentLap cf - 1)).
Proof. reflexivity. Qed.

Lemma row_interval_timingRow rd cf idx c pos :
  row_interval (timingRow rd cf idx (c, pos))
  = match idx with
    | O => Dash
    | S before =>
        plusCell
          (timeDifference (lapTimeOf rd c (currentLap cf - 1))
             (match fst <$> sortedDrivers cf !! before with
              | Some ahead =>
                  if decide (ahead = ""%string) then None
                  else lapTimeOf rd ahead (currentLap cf - 1)
              | None => None
              end))
    end.
Proof. destruct idx; reflexivity. Qed.

Lemma row_diff_timingRow rd cf idx c pos :
  row_diff (timingRow rd cf idx (c, pos))
  = ((match lapDataOf rd c with
      | Some ld => LapData.grid_pos ld
      | None => 0
      end) - DriverPosition.position pos)%Z.
Proof. reflexivity. Qed.

Lemma row_position_timingRow rd cf idx c pos :
  row_position (timingRow rd cf idx (c, pos)) = DriverPosition.position pos.
Proof. reflexivity. Qed.

Lemma lapTimeOf_no_table (rd : RaceData.ty) (c : string) (lap : Z) :
  lapDataOf rd c = None -> lapTimeOf rd c lap = None.
Proof. intros H. unfold lapTimeOf. now rewrite H. Qed.

Lemma timeDifference_None_r (a : option Q) : timeDifference a None = 0.
Proof. destruct a; reflexivity. Qed.


(** A driver without a lap table (no [lapTiming] at all, or no entry for
    the driver's code) gets a row of sentinels: dashes for last lap, best
    lap and interval, a dash for the gap unless the row is the first
    one, which reads [Leader]; the position difference is computed
    against grid position 0. *)
Theorem row_without_lap_table
    (rd : RaceData.ty) (frameIndex : Z) (idx : nat) (row : Row) :
  timingBoard rd frameIndex !! idx = Some row ->
  lapDataOf rd (row_code row) = None ->
  row_lastLap row = Dash
  /\ row_bestLap row = Dash
  /\ row_interval row = Dash
  /\ row_gap row = (if decide (idx = 0%nat) then Leader else Dash)
  /\ row_diff row = (- row_position row)%Z.
Proof.
  intros Hrow Hnone.
  destruct (timingBoard_lookup rd frameIndex idx row Hrow)
    as (frame & c & pos & Hf & _ & _ & ->).
  rewrite row_code_timingRow in Hnone.
  rewrite row_lastLap_timingRow, row_bestLap_timingRow, row_interval_timingRow,
    row_gap_timingRow, row_diff_timingRow, row_position_timingRow.
  rewrite (lapTimeOf_no_table rd c _ Hnone), Hnone.
  split; [reflexivity|]. split; [reflexivity|].
  split; [destruct idx; reflexivity|].
  split; [destruct idx; reflexivity | lia].
Qed.

Lemma row_without_lap_table_witness :
  row_gap (timingRow Examples.twoCars
             (array_get (RaceData.frames Examples.twoCars) 0) 1
             ("HAM"%string, Examples.sample 10 0 2 9))
  = Dash.
Proof.
  destruct (row_without_lap_table Examples.twoCars 0 1
              (timingRow Examples.twoCars
                 (array_get (RaceData.frames Examples.twoCars) 0) 1
                 ("HAM"%string, Examples.sample 10 0 2 9)))
    as (_ & _ & _ & H & _).
  - reflexivity.
  - reflexivity.
  - exact H.
Defined.

(** In the second row the car ahead is the leader: the interval cell
    equals the gap cell, unless the leader's code is the empty string,
    which the interval's lookup treats as no car ahead; the interval is
    then the dash whatever the gap cell shows. *)
Theorem second_row_interval_is_gap
    (rd : RaceData.ty) (frameIndex : Z) (row : Row)
    (leader : string * DriverPosition.ty) :
  timingBoard rd frameIndex !! 1%nat = Some row ->
  sortedDrivers (array_get (RaceData.frames rd) frameIndex) !! 0%nat
    = Some leader ->
  (leader.1 <> ""%string -> row_interval row = row_gap row)
  /\ (leader.1 = ""%string -> row_interval row = Dash).
Proof.
  intros Hrow Hleader.
  destruct (timingBoard_lookup rd frameIndex 1 row Hrow)
    as (frame & c & pos & Hf & _ & _ & ->).
  rewrite Hf in Hleader.
  rewrite row_interval_timingRow, row_gap_timingRow, Hleader.
  cbn [fmap option_fmap option_map]. split; intros Hcode.
  - now rewrite decide_False by exact Hcode.
  - rewrite decide_True by exact Hcode. now rewrite timeDifference_None_r.
Qed.

Lemma second_row_interval_witness :
  row_interval
    (timingRow
       (Examples.timedSession 6
          [(5%Z, Examples.lapEntry (Some 90))]
          [(5%Z, Examples.lapEntry (Some 92.345))])
       (Some (Frame.mk 0 6 [("HAM"%string, Examples.sample 10 0 2 9);
                            ("VER"%string, Examples.sample 0 0 1 12)]))
       1 ("HAM"%string, Examples.sample 10 0 2 9))
  = Plus (Qabs (92.345 - 90)).
Proof.
  destruct (second_row_interval_is_gap
              (Examples.timedSession 6
                 [(5%Z, Examples.lapEntry (Some 90))]
                 [(5%Z, Examples.lapEntry (Some 92.345))]) 0
              (timingRow
                 (Examples.timedSession 6
                    [(5%Z, Examples.lapEntry (Some 90))]
                    [(5%Z, Examples.lapEntry (Some 92.345))])
                 (Some (Frame.mk 0 6 [("HAM"%string, Examples.sample 10 0 2 9);
                                      ("VER"%string, Examples.sample 0 0 1 12)]))
                 1 ("HAM"%string, Examples.sample 10 0 2 9))
              ("VER"%string, Examples.sample 0 0 1 12)) as [H _].
  - reflexivity.
  - reflexivity.
  - rewrite H by discriminate. reflexivity.
Defined.

(** Behind a leader with the empty code the second row shows a gap of
    2.345 and no interval. *)
Example nameless_leader_row :
  (fun row => (row_code row, row_interval row, row_gap row))
    <$> timingBoard Examples.namelessLeader 0
  = [(""%string, Dash, Leader);
     ("HAM"%string, Dash, Plus (Qabs (92.345 - 90)))].
Proof. reflexivity. Qed.

(** The interval cell of a row below the first: when the driver and the
    driver one row above both have a non-zero time for the last lap, the
    two differ and the code of the driver above is not the empty string,
    the cell is a plus sign followed by the absolute value of the
    difference; with the empty code above it is the dash; the first
    row's interval is a dash. *)
Theorem interval_is_absolute_difference
    (rd : RaceData.ty) (frameIndex : Z) (idx : nat) (row : Row)
    (ahead : string * DriverPosition.ty) (a b : Q) :
  timingBoard rd frameIndex !! S idx = Some row ->
  sortedDrivers (array_get (RaceData.frames rd) frameIndex) !! idx
    = Some ahead ->
  lapTimeOf rd (row_code row)
    (currentLap (array_get (RaceData.frames rd) frameIndex) - 1) = Some a ->
  lapTimeOf rd ahead.1
    (currentLap (array_get (RaceData.frames rd) frameIndex) - 1) = Some b ->
  ~ a == 0 -> ~ b == 0 -> ~ a == b ->
  (ahead.1 <> ""%string -> row_interval row = Plus (Qabs (a - b)))
  /\ (ahead.1 = ""%string -> row_interval row = Dash)
  /\ (forall first,
        timingBoard rd frameIndex !! 0%nat = Some first ->
        row_interval first = Dash).
Proof.
  intros Hrow Hahead Ha Hb Ha0 Hb0 Hab.
  destruct (timingBoard_lookup rd frameIndex (S idx) row Hrow)
    as (frame & c & pos & Hf & _ & _ & ->).
  rewrite Hf in *. rewrite row_code_timingRow in Ha.
  rewrite row_interval_timingRow, Hahead, Ha.
  cbn [fmap option_fmap option_map].
  split; [|split].
  - intros Hcode. rewrite decide_False by exact Hcode. rewrite Hb.
    unfold timeDifference, plusCell.
    apply truthy_neq in Ha0, Hb0. rewrite Ha0, Hb0. cbn [andb].
    assert (Hd : truthy (a - b) = true) by (apply truthy_neq; lra).
    now rewrite Hd.
  - intros Hcode. rewrite decide_True by exact Hcode.
    now rewrite timeDifference_None_r.
  - intros first Hfirst.
    destruct (timingBoard_lookup rd frameIndex 0 first Hfirst)
      as (frame' & c' & pos' & _ & _ & _ & ->).
    reflexivity.
Qed.

Lemma interval_witness :
  row_interval
    (timingRow
       (Examples.timedSession 6
          [(5%Z, Examples.lapEntry (Some 90))]
          [(5%Z, Examples.lapEntry (Some 92.345))])
       (Some (Frame.mk 0 6 [("HAM"%string, Examples.sample 10 0 2 9);
                            ("VER"%string, Examples.sample 0 0 1 12)]))
       1 ("HAM"%string, Examples.sample 10 0 2 9))
  = Plus (Qabs (92.345 - 90)).
Proof.
  destruct (interval_is_absolute_difference
              (Examples.timedSession 6
                 [(5%Z, Examples.lapEntry (Some 90))]
                 [(5%Z, Examples.lapEntry (Some 92.345))])
              0 0
              (timingRow
                 (Examples.timedSession 6
                    [(5%Z, Examples.lapEntry (Some 90))]
                    [(5%Z, Examples.lapEntry (Some 92.345))])
                 (Some (Frame.mk 0 6 [("HAM"%string, Examples.sample 10 0 2 9);
                                      ("VER"%string, Examples.sample 0 0 1 12)]))
                 1 ("HAM"%string, Examples.sample 10 0 2 9))
              ("VER"%string, Examples.sample 0 0 1 12) 92.345 90)
    as (H & _).
  - reflexivity.
  - reflexivity.
  - reflexivity.
  - reflexivity.
  - intros E. vm_compute in E. discriminate E.
  - intros E. vm_compute in E. discriminate E.
  - intros E. vm_compute in E. discriminate E.
  - apply H. discriminate.
Defined.




(** A driver 2.345 s slower than the leader is shown [+2.345s]; one who
    is 0.0004 s slower is shown [+0.000s]. *)
Example gap_cell_printed_thousandths :
  toFixed3 (Qabs (92.345 - 90)) = 2345%Z
  /\ (row_gap <$> timingBoard
        (Examples.timedSession 6
           [(5%Z, Examples.lapEntry (Some 90))]
           [(5%Z, Examples.lapEntry (Some 90.0004))]) 0)
     = [Leader; Plus (Qabs (90.0004 - 90))]
  /\ toFixed3 (Qabs (90.0004 - 90)) = 0%Z.
Proof. repeat split; reflexivity. Qed.

(** While the current frame is on lap 0 or 1 the board looks up lap 0:
    for a driver whose table has no entry for lap 0 the last-lap cell is
    a dash, and so are the interval and the gap (the first row reading
    [Leader]). *)
Theorem first_lap_shows_no_last_lap
    (rd : RaceData.ty) (frameIndex : Z) (idx : nat) (row : Row)
    (frame : Frame.ty) :
  timingBoard rd frameIndex !! idx = Some row ->
  array_get (RaceData.frames rd) frameIndex = Some frame ->
  (Frame.lap frame = 0 \/ Frame.lap frame = 1)%Z ->
  (forall ld, lapDataOf rd (row_code row) = Some ld ->
              obj_get (LapData.laps ld) 0%Z = None) ->
  row_lastLap row = Dash
  /\ row_interval row = Dash
  /\ row_gap row = (if decide (idx = 0%nat) then Leader else Dash).
Proof.
  intros Hrow Hf Hlap Hkeys.
  destruct (timingBoard_lookup rd frameIndex idx row Hrow)
    as (frame' & c & pos & Hf' & _ & _ & ->).
  rewrite Hf in Hf'. injection Hf' as <-.
  rewrite row_code_timingRow in Hkeys.
  rewrite row_lastLap_timingRow, row_interval_timingRow, row_gap_timingRow.
  assert (Hcur : (currentLap (Some frame) - 1 = 0)%Z).
  { cbn [currentLap]. destruct Hlap as [-> | ->]; reflexivity. }
  rewrite Hcur.
  assert (Hnone : lapTimeOf rd c 0 = None).
  { unfold lapTimeOf. destruct (lapDataOf rd c) as [ld|] eqn:Hld; [|reflexivity].
    now rewrite (Hkeys ld eq_refl). }
  rewrite Hnone. split; [reflexivity|].
  split; destruct idx; reflexivity.
Qed.

Lemma first_lap_witness :
  row_lastLap
    (timingRow
       (Examples.timedSession 1
          [(1%Z, Examples.lapEntry (Some 95))] [])
       (Some (Frame.mk 0 1 [("HAM"%string, Examples.sample 10 0 2 9);
                            ("VER"%string, Examples.sample 0 0 1 12)]))
       0 ("VER"%string, Examples.sample 0 0 1 12))
  = Dash.
Proof.
  destruct (first_lap_shows_no_last_lap
              (Examples.timedSession 1
                 [(1%Z, Examples.lapEntry (Some 95))] [])
              0 0
              (timingRow
                 (Examples.timedSession 1
                    [(1%Z, Examples.lapEntry (Some 95))] [])
                 (Some (Frame.mk 0 1 [("HAM"%string, Examples.sample 10 0 2 9);
                                      ("VER"%string, Examples.sample 0 0 1 12)]))
                 0 ("VER"%string, Examples.sample 0 0 1 12))
              (Frame.mk 0 1 [("HAM"%string, Examples.sample 10 0 2 9);
                             ("VER"%string, Examples.sample 0 0 1 12)]))
    as (H & _).
  - reflexivity.
  - reflexivity.
  - now right.
  - intros ld Hld. vm_compute in Hld. injection Hld as <-. reflexivity.
  - exact H.
Defined.

End TimingCells.

(** ** More on the radio scheduler *)

Section RadioInvariants.
Import Radio RadioFacts RadioEvents.

(** What a commit does to the announcement, the audio and the timers. *)
Lemma onCommit_shape (rd : RaceData.ty) (c : Commit) (st : Radio.ty) :
  ((onCommit rd c st).2 = None
   /\ currentRadio (onCommit rd c st).1 = currentRadio st
   /\ audioRef (onCommit rd c st).1 = audioRef st
   /\ timers (onCommit rd c st).1 = timers st)
  \/ (exists i clips clip,
        (onCommit rd c st).2 = Some i
        /\ RaceData.teamRadio rd = Some clips /\ clips !! i = Some clip
        /\ currentRadio (onCommit rd c st).1 = Some clip
        /\ audioRef (onCommit rd c st).1 = Some clip
        /\ timers (onCommit rd c st).1 = timers st ++ [TeamRadioClip.t clip]).
Proof.
  unfold onCommit, playbackEffect.
  destruct (RaceData.teamRadio rd) as [clips|];
    [|left; destruct (frameIndexChanged c); done].
  destruct (negb (radioEnabled c) || _);
    [left; destruct (frameIndexChanged c); done|].
  destruct (negb (hasInteracted c));
    [left; destruct (frameIndexChanged c); done|].
  destruct (findClip _ _ _ _) as [[i clip]|] eqn:Hf;
    [|left; destruct (frameIndexChanged c); done].
  apply findClip_Some in Hf as (k & -> & Hk & _).
  right. exists (0 + k)%nat, clips, clip.
  destruct (frameIndexChanged c); cbn; repeat split; assumption.
Qed.

(** After a change of the frame index no clip of the played set lies in
    the future: each has a timestamp at or before the current time. *)
Theorem played_clips_not_in_future
    (rd : RaceData.ty) (clips : list TeamRadioClip.ty) (c : Commit)
    (st : Radio.ty) (i : nat) (clip : TeamRadioClip.ty) :
  RaceData.teamRadio rd = Some clips ->
  clips !! i = Some clip ->
  frameIndexChanged c = true ->
  i ∈ played (onCommit rd c st).1 ->
  TeamRadioClip.t clip <= timeOf rd c.
Proof.
  intros Hr Hi Hc. unfold onCommit, timeOf. rewrite Hc.
  destruct (playbackEffect rd _ _ _ st) as [st1 fired]. cbn [fst].
  rewrite elem_of_resetEffect, (inFuture_clip rd clips _ i clip Hr Hi).
  intros [_ H]. now apply Qltb_ge in H.
Qed.

Lemma played_clips_witness :
  TeamRadioClip.t (Examples.clipAt 100 "VER")
  <= timeOf Examples.radioSession (frameChange 2).
Proof.
  apply (played_clips_not_in_future Examples.radioSession
           [Examples.clipAt 100 "VER"] (frameChange 2)
           (Radio.mk {[0%nat]} None None []) 0 (Examples.clipAt 100 "VER")).
  - reflexivity.
  - reflexivity.
  - reflexivity.
  - vm_compute. reflexivity.
Defined.

Lemma run_state_cons (rd : RaceData.ty) (c : Commit) (cs : list Commit)
    (st : Radio.ty) :
  (run rd (c :: cs) st).1 = (run rd cs (onCommit rd c st).1).1
  /\ (run rd (c :: cs) st).2
     = firedList (onCommit rd c st).2 ++ (run rd cs (onCommit rd c st).1).2.
Proof. rewrite run_cons. split; reflexivity. Qed.

(** Started from the initial state, the scheduler only ever marks or
    starts clips that exist: every index in the played set and every
    index in the log of started clips addresses a clip of [teamRadio]. *)
Theorem played_indices_are_clips
    (rd : RaceData.ty) (cs : list Commit) (i : nat) :
  i ∈ played (run rd cs Radio.initial).1 \/ i ∈ (run rd cs Radio.initial).2 ->
  exists clips clip,
    RaceData.teamRadio rd = Some clips /\ clips !! i = Some clip.
Proof.
  assert (Hgen : forall cs st,
            (forall j, j ∈ played st ->
               exists clips clip,
                 RaceData.teamRadio rd = Some clips /\ clips !! j = Some clip) ->
            forall j, j ∈ played (run rd cs st).1 \/ j ∈ (run rd cs st).2 ->
              exists clips clip,
                RaceData.teamRadio rd = Some clips /\ clips !! j = Some clip).
  { clear cs i. induction cs as [|c cs IH]; intros st Hst j Hj.
    - cbn in Hj. destruct Hj as [Hj|Hj]; [now apply Hst|].
      now apply elem_of_nil in Hj.
    - destruct (run_state_cons rd c cs st) as [E1 E2]. rewrite E1, E2 in Hj.
      assert (Hst1 : forall k, k ∈ played (onCommit rd c st).1 ->
                exists clips clip,
                  RaceData.teamRadio rd = Some clips /\ clips !! k = Some clip).
      { intros k Hk. destruct (onCommit_played_from rd c st k Hk) as [Hold|Hf];
          [now apply Hst|].
        destruct (onCommit_fired_played rd c st k Hf)
          as (_ & clips & clip & Hr & Hc & _). eauto. }
      destruct Hj as [Hj|Hj].
      + apply (IH (onCommit rd c st).1 Hst1 j). now left.
      + apply elem_of_app in Hj as [Hj|Hj].
        * destruct ((onCommit rd c st).2) as [k|] eqn:Hf; cbn in Hj.
          -- apply elem_of_cons in Hj as [->|Hj]; [|now apply elem_of_nil in Hj].
             destruct (onCommit_fired_played rd c st k Hf)
               as (_ & clips & clip & Hr & Hc & _). eauto.
          -- now apply elem_of_nil in Hj.
        * apply (IH (onCommit rd c st).1 Hst1 j). now right. }
  apply Hgen. intros j Hj. cbn in Hj. now apply not_elem_of_empty in Hj.
Qed.

Lemma played_indices_witness :
  exists clips clip,
    RaceData.teamRadio Examples.radioSession = Some clips
    /\ clips !! 0%nat = Some clip.
Proof.
  apply (played_indices_are_clips Examples.radioSession
           (map frameChange [0; 1; 2]%Z) 0).
  right. vm_compute. apply elem_of_cons. now left.
Defined.

(** While radio is disabled or the user has not interacted, no clip is
    started: announcement, audio and timeouts stay as they are, and the
    played set can only shrink. *)
Theorem muted_run_starts_nothing
    (rd : RaceData.ty) (cs : list Commit) (st : Radio.ty) :
  (forall c, c ∈ cs -> radioEnabled c && hasInteracted c = false) ->
  (run rd cs st).2 = []
  /\ currentRadio (run rd cs st).1 = currentRadio st
  /\ audioRef (run rd cs st).1 = audioRef st
  /\ timers (run rd cs st).1 = timers st
  /\ played (run rd cs st).1 ⊆ played st.
Proof.
  revert st. induction cs as [|c cs IH]; intros st Hcs.
  - cbn. repeat split; reflexivity.
  - destruct (run_state_cons rd c cs st) as [E1 E2]. rewrite E1, E2.
    assert (Hg : (onCommit rd c st).2 = None).
    { rewrite onCommit_fired. apply playbackEffect_gated.
      apply Hcs. apply elem_of_cons. now left. }
    destruct (IH (onCommit rd c st).1) as (H1 & H2 & H3 & H4 & H5).
    { intros c' Hc'. apply Hcs. apply elem_of_cons. now right. }
    destruct (onCommit_shape rd c st)
      as [(_ & Hcur & Haud & Htim)|(i & clips & clip & Hf & _)];
      [|congruence].
    rewrite Hg, H1, H2, H3, H4, Hcur, Haud, Htim.
    repeat split; try reflexivity.
    intros j Hj. apply H5 in Hj.
    destruct (onCommit_played_from rd c st j Hj) as [|Hf]; [assumption|].
    congruence.
Qed.

Lemma muted_run_witness :
  (run Examples.radioSession
     [mkCommit 1 false true true; mkCommit 2 true false true]
     Radio.initial).2 = [].
Proof.
  destruct (muted_run_starts_nothing Examples.radioSession
              [mkCommit 1 false true true; mkCommit 2 true false true]
              Radio.initial) as (H & _); [|exact H].
  intros c Hc. apply elem_of_cons in Hc as [->|Hc]; [reflexivity|].
  apply elem_of_cons in Hc as [->|Hc]; [reflexivity|].
  now apply elem_of_nil in Hc.
Defined.

(** Every started clip sets one fallback timeout, and after a run of
    commits the announced clip and the held audio are those of the clip
    started last (they are unchanged if none was started). *)
Theorem run_announces_latest_clip
    (rd : RaceData.ty) (cs : list Commit) (st : Radio.ty) :
  length (timers (run rd cs st).1)
    = (length (timers st) + length (run rd cs st).2)%nat
  /\ ((run rd cs st).2 = [] ->
      currentRadio (run rd cs st).1 = currentRadio st
      /\ audioRef (run rd cs st).1 = audioRef st)
  /\ (forall i, last (run rd cs st).2 = Some i ->
        exists clips clip,
          RaceData.teamRadio rd = Some clips /\ clips !! i = Some clip
          /\ currentRadio (run rd cs st).1 = Some clip
          /\ audioRef (run rd cs st).1 = Some clip).
Proof.
  revert st. induction cs as [|c cs IH]; intros st.
  - cbn. split; [lia|]. split; [done | discriminate].
  - destruct (run_state_cons rd c cs st) as [E1 E2]. rewrite E1, E2.
    destruct (IH (onCommit rd c st).1) as (Hlen & Hnone & Hlast).
    set (st1 := (onCommit rd c st).1) in *.
    set (log := (run rd cs st1).2) in *.
    destruct (onCommit_shape rd c st)
      as [(Hf & Hcur & Haud & Htim)|(i & clips & clip & Hf & Hr & Hc & Hcur & Haud & Htim)];
      fold st1 in Hcur, Haud, Htim; rewrite Hf; cbn [firedList app].
    + rewrite Hlen, Htim. split; [lia|]. split.
      * intros Hlog. destruct (Hnone Hlog) as [-> ->]. now split.
      * exact Hlast.
    + rewrite Hlen, Htim, length_app. cbn [length]. split; [lia|].
      split; [discriminate|].
      intros j Hj. destruct log as [|k log'] eqn:Hlog.
      * cbn in Hj. injection Hj as <-.
        destruct (Hnone eq_refl) as [-> ->]. eauto 6.
      * apply Hlast. exact Hj.
Qed.

(** The fallback timeouts do their job: after any sequence of commits,
    expired timeouts and ended audios, starting from the initial state,
    an announced clip still has its own timeout pending; so once no
    timeout is pending, nothing is announced. *)
Theorem announcement_has_pending_timeout
    (rd : RaceData.ty) (evs : list Event) :
  (forall clip,
      currentRadio (steps rd evs Radio.initial) = Some clip ->
      TeamRadioClip.t clip ∈ timers (steps rd evs Radio.initial))
  /\ (timers (steps rd evs Radio.initial) = [] ->
      currentRadio (steps rd evs Radio.initial) = None).
Proof.
  assert (Hinv : forall evs st,
            (forall clip, currentRadio st = Some clip ->
                          TeamRadioClip.t clip ∈ timers st) ->
            forall clip, currentRadio (steps rd evs st) = Some clip ->
                         TeamRadioClip.t clip ∈ timers (steps rd evs st)).
  { clear evs. unfold steps.
    induction evs as [|ev evs IH]; intros st Hst; [exact Hst|].
    cbn [foldl]. apply IH. clear IH. intros clip.
    destruct ev as [c| |]; cbn [step].
    - destruct (onCommit_shape rd c st)
        as [(_ & -> & _ & ->)|(i & clips & clip' & _ & _ & _ & -> & _ & ->)].
      + apply Hst.
      + intros [= <-]. apply elem_of_app. right. apply elem_of_cons. now left.
    - unfold timeoutExpires. destruct (timers st) as [|ts rest] eqn:Ht.
      + intros Hc. specialize (Hst clip Hc). rewrite ?Ht in Hst.
        now apply elem_of_nil in Hst.
      + cbn [currentRadio timers]. unfold fallbackUpdater.
        destruct (currentRadio st) as [announced|] eqn:Hcur; [|discriminate].
        destruct (Qeq_bool (TeamRadioClip.t announced) ts) eqn:E; [discriminate|].
        intros [= <-]. specialize (Hst announced eq_refl). rewrite ?Ht in Hst.
        apply elem_of_cons in Hst as [Heq|Hin]; [|exact Hin].
        rewrite Heq, Qeq_bool_refl in E. discriminate.
    - destruct (audioRef st); [discriminate | apply Hst]. }
  assert (H : forall clip,
            currentRadio (steps rd evs Radio.initial) = Some clip ->
            TeamRadioClip.t clip ∈ timers (steps rd evs Radio.initial)).
  { apply Hinv. discriminate. }
  split; [exact H|].
  intros Hempty.
  destruct (currentRadio (steps rd evs Radio.initial)) as [clip|] eqn:Hc;
    [|reflexivity].
  specialize (H clip eq_refl). rewrite Hempty in H. now apply elem_of_nil in H.
Qed.

(** One clip, started and then left to its timeout. *)
Example timeout_clears_announcement :
  currentRadio
    (steps Examples.radioSession
       [Committed (frameChange 1)] Radio.initial)
  = Some (Examples.clipAt 100 "VER")
  /\ currentRadio
       (steps Examples.radioSession
          [Committed (frameChange 1); TimeoutExpired] Radio.initial)
     = None.
Proof. split; vm_compute; reflexivity. Qed.

End RadioInvariants.

(** ** Telemetry chart data *)

Section TelemetryFacts.
Import Telemetry.

Lemma array_slice_inside {A : Type} (xs : list A) (start stop : Z) :
  (0 <= start <= stop)%Z -> (stop <= Z.of_nat (length xs))%Z ->
  length (array_slice xs start stop) = Z.to_nat (stop - start)
  /\ forall k : nat, (Z.of_nat k < stop - start)%Z ->
       array_slice xs start stop !! k = xs !! (Z.to_nat start + k)%nat.
Proof.
  intros Hs Hl. unfold array_slice, sliceIndex.
  replace (start <? 0)%Z with false by (symmetry; apply Z.ltb_ge; lia).
  replace (stop <? 0)%Z with false by (symmetry; apply Z.ltb_ge; lia).
  rewrite !Z.min_l by lia. split.
  - rewrite length_take, length_drop. lia.
  - intros k Hk. rewrite lookup_take_lt by lia. apply lookup_drop.
Qed.

(** With a driver selected and a frame index inside the session the
    charts show the last [min(frameIndex, 120) + 1] frames up to and
    including the current one: the [k]-th point is computed from frame
    [max(0, frameIndex - 120) + k] and carries that index as its time; a
    frame without a sample of the driver gives a point of zeros. *)
Theorem telemetry_chart_window
    (rd : RaceData.ty) (c : string) (frameIndex : Z) :
  c <> ""%string ->
  (0 <= frameIndex < frames_length rd)%Z ->
  length (telemetryChartData (Some rd) (Some c) frameIndex)
    = Z.to_nat (Z.min frameIndex 120 + 1)
  /\ (forall k p,
        telemetryChartData (Some rd) (Some c) frameIndex !! k = Some p ->
        exists frame,
          array_get (RaceData.frames rd)
            (Z.max 0 (frameIndex - 120) + Z.of_nat k) = Some frame
          /\ p = chartPoint c (Z.max 0 (frameIndex - 120)) k frame
          /\ time p = (Z.max 0 (frameIndex - 120) + Z.of_nat k)%Z
          /\ (time p <= frameIndex)%Z
          /\ (obj_get (Frame.drivers frame) c = None ->
              speed p = 0 /\ throttle p = 0 /\ brake p == 0))
  /\ (exists frame p,
        array_get (RaceData.frames rd) frameIndex = Some frame
        /\ last (telemetryChartData (Some rd) (Some c) frameIndex) = Some p
        /\ time p = frameIndex).
Proof.
  intros Hc Hr. unfold telemetryChartData, frames_length in *.
  rewrite decide_False by exact Hc. cbv zeta.
  set (start := Z.max 0 (frameIndex - 120)).
  destruct (array_slice_inside (RaceData.frames rd) start (frameIndex + 1))
    as [Hlen Hlook]; [lia | lia |].
  assert (Hpoints : forall k p,
            imap (chartPoint c start)
              (array_slice (RaceData.frames rd) start (frameIndex + 1)) !! k
            = Some p ->
            exists frame,
              array_get (RaceData.frames rd) (start + Z.of_nat k) = Some frame
              /\ p = chartPoint c start k frame
              /\ (Z.of_nat k < frameIndex + 1 - start)%Z).
  { intros k p Hp. rewrite list_lookup_imap in Hp.
    destruct (array_slice _ _ _ !! k) as [frame|] eqn:Hk; [|discriminate].
    apply (inj Some) in Hp.
    pose proof (lookup_lt_Some _ _ _ Hk) as Hlt. rewrite Hlen in Hlt.
    rewrite Hlook in Hk by lia.
    exists frame. split; [|split; [now symmetry | lia]].
    unfold array_get. replace (0 <=? start + Z.of_nat k)%Z with true
      by (symmetry; apply Z.leb_le; lia).
    rewrite <- Hk. f_equal. lia. }
  split; [|split].
  - rewrite length_imap, Hlen. f_equal. lia.
  - intros k p Hp. destruct (Hpoints k p Hp) as (frame & Hf & -> & Hk).
    exists frame. split; [exact Hf|]. split; [reflexivity|].
    split; [reflexivity|]. split; [cbn [time chartPoint]; lia|].
    intros Hnone. unfold chartPoint. rewrite Hnone. cbn. repeat split; lra.
  - set (data := imap (chartPoint c start)
                   (array_slice (RaceData.frames rd) start (frameIndex + 1))).
    assert (Hdl : length data = Z.to_nat (frameIndex + 1 - start))
      by (unfold data; now rewrite length_imap).
    destruct (data !! pred (length data)) as [p|] eqn:Hp.
    + destruct (Hpoints _ p Hp) as (frame & Hf & -> & Hk).
      replace (start + Z.of_nat (pred (length data)))%Z with frameIndex in Hf
        by lia.
      exists frame, (chartPoint c start (pred (length data)) frame).
      split; [exact Hf|]. split; [now rewrite last_lookup|].
      cbn [time chartPoint]. lia.
    + apply lookup_ge_None in Hp. lia.
Qed.

Lemma telemetry_chart_window_witness :
  length (telemetryChartData (Some (Examples.session 200)) (Some "VER"%string) 150)
  = Z.to_nat (Z.min 150 120 + 1).
Proof.
  destruct (telemetry_chart_window (Examples.session 200) "VER" 150)
    as (H & _).
  - discriminate.
  - vm_compute. split; [discriminate | reflexivity].
  - exact H.
Defined.

(** Without race data, without a selected driver or with the empty code
    selected there is no chart data; with the frame index at -1 there is
    none either, and with a frame index below -1 the slice ends that many
    frames before the end of the session, so that the charts show the
    session from its first frame on. *)
Theorem telemetry_chart_edge_cases
    (rd : RaceData.ty) (c : string) (frameIndex : Z) :
  c <> ""%string ->
  (forall sel, telemetryChartData None sel frameIndex = [])
  /\ telemetryChartData (Some rd) None frameIndex = []
  /\ telemetryChartData (Some rd) (Some ""%string) frameIndex = []
  /\ (frameIndex = (-1)%Z ->
      telemetryChartData (Some rd) (Some c) frameIndex = [])
  /\ ((frameIndex < -1)%Z ->
      length (telemetryChartData (Some rd) (Some c) frameIndex)
      = Z.to_nat (frames_length rd + frameIndex + 1)).
Proof.
  intros Hc. split; [reflexivity|]. split; [reflexivity|].
  split; [reflexivity|].
  unfold telemetryChartData, frames_length. rewrite decide_False by exact Hc.
  cbv zeta. split.
  - intros ->. unfold array_slice, sliceIndex.
    change (-1 + 1)%Z with 0%Z. change (Z.max 0 (-1 - 120)) with 0%Z.
    change (0 <? 0)%Z with false. cbv iota.
    rewrite !Z.min_l by lia. reflexivity.
  - intros Hneg. rewrite length_imap. unfold array_slice, sliceIndex.
    replace (Z.max 0 (frameIndex - 120)) with 0%Z by lia.
    replace (frameIndex + 1 <? 0)%Z with true by (symmetry; apply Z.ltb_lt; lia).
    cbn [Z.ltb Z.compare]. rewrite Z.min_l by lia.
    rewrite length_take, length_drop. lia.
Qed.

Lemma telemetry_chart_edge_witness :
  length (telemetryChartData (Some (Examples.session 101))
            (Some "VER"%string) (-4))
  = Z.to_nat (frames_length (Examples.session 101) + -4 + 1).
Proof.
  destruct (telemetry_chart_edge_cases (Examples.session 101) "VER" (-4))
    as (_ & _ & _ & _ & H).
  - discriminate.
  - apply H. reflexivity.
Defined.

End TelemetryFacts.

(** ** The clock display *)

Section TimeFormatFacts.
Import TimeFormat.

Lemma Qfloor_div_Z (q : Q) (k : Z) :
  (0 < k)%Z -> Qfloor (q / inject_Z k) = (Qfloor q / k)%Z.
Proof.
  intros Hk.
  assert (HK : 0 < inject_Z k) by (change 0 with (inject_Z 0); now rewrite <- Zlt_Qlt).
  destruct (Qfloor_bounds q) as [Hlo Hhi].
  set (n := Qfloor q) in *.
  pose proof (Z.div_mod n k ltac:(lia)) as Hdm.
  pose proof (Z.mod_pos_bound n k Hk) as Hmod.
  apply Qfloor_unique.
  - apply Qle_shift_div_l; [exact HK|].
    rewrite <- inject_Z_mult.
    assert (H : inject_Z (n / k * k) <= inject_Z n) by (rewrite <- Zle_Qle; lia).
    lra.
  - apply Qlt_shift_div_r; [exact HK|].
    rewrite <- inject_Z_mult.
    assert (H : inject_Z (n + 1) <= inject_Z ((n / k + 1) * k))
      by (rewrite <- Zle_Qle; lia).
    rewrite inject_Z_plus in H. change (inject_Z 1) with 1 in H. lra.
Qed.

Lemma Qfloor_sub_Z (q : Q) (z : Z) :
  Qfloor (q - inject_Z z) = (Qfloor q - z)%Z.
Proof.
  destruct (Qfloor_bounds q) as [Hlo Hhi].
  apply Qfloor_unique.
  - unfold Z.sub. rewrite inject_Z_plus, inject_Z_opp. lra.
  - replace (Qfloor q - z + 1)%Z with (Qfloor q + 1 + - z)%Z by lia.
    rewrite !inject_Z_plus, inject_Z_opp. change (inject_Z 1) with 1. lra.
Qed.

Lemma Qtrunc_nonneg (q : Q) : 0 <= q -> Qtrunc q = Qfloor q.
Proof.
  intros H. unfold Qtrunc. apply Qle_bool_iff in H. now rewrite H.
Qed.

(** The remainder of a non-negative number by a positive integer, up to
    its fractional part. *)
Lemma floor_js_rem (q : Q) (k : Z) :
  0 <= q -> (0 < k)%Z ->
  js_rem q (inject_Z k) == q - inject_Z (k * (Qfloor q / k))
  /\ Qfloor (js_rem q (inject_Z k)) = (Qfloor q mod k)%Z.
Proof.
  intros Hq Hk.
  assert (HK : 0 < inject_Z k) by (change 0 with (inject_Z 0); now rewrite <- Zlt_Qlt).
  assert (E : js_rem q (inject_Z k) == q - inject_Z (k * (Qfloor q / k))).
  { unfold js_rem. rewrite Qtrunc_nonneg by (apply Qle_shift_div_l; lra).
    rewrite Qfloor_div_Z by exact Hk. rewrite inject_Z_mult. reflexivity. }
  split; [exact E|].
  rewrite E, Qfloor_sub_Z. rewrite Z.mod_eq by lia. reflexivity.
Qed.

(** For a non-negative time the text has clock fields (minutes and
    seconds between 0 and 59, the hours shown only when positive) and
    stands for the whole seconds of the time: nothing is lost but the
    fraction of a second. *)
Theorem formatTime_whole_seconds (seconds : Q) :
  0 <= seconds ->
  wellFormed (formatTime seconds)
  /\ secondsOf (formatTime seconds) = Qfloor seconds.
Proof.
  intros Hs.
  assert (Hn : (0 <= Qfloor seconds)%Z).
  { change 0%Z with (Qfloor (inject_Z 0)). now apply Qfloor_resp_le. }
  destruct (floor_js_rem seconds 3600 Hs ltac:(lia)) as [E3600 _].
  destruct (floor_js_rem seconds 60 Hs ltac:(lia)) as [_ F60].
  assert (Hh : Qfloor (seconds / 3600) = (Qfloor seconds / 3600)%Z)
    by (apply (Qfloor_div_Z seconds 3600); lia).
  assert (Hm : Qfloor (js_rem seconds 3600 / 60)
               = ((Qfloor seconds mod 3600) / 60)%Z).
  { change 3600 with (inject_Z 3600) in *. change 60 with (inject_Z 60).
    rewrite Qfloor_div_Z by lia. rewrite E3600, Qfloor_sub_Z.
    rewrite Z.mod_eq by lia. reflexivity. }
  change 60 with (inject_Z 60) in F60.
  unfold formatTime. change (js_rem seconds 60) with (js_rem seconds (inject_Z 60)).
  rewrite Hh, Hm, F60.
  set (n := Qfloor seconds) in *.
  destruct (0 <? n / 3600)%Z eqn:E.
  - apply Z.ltb_lt in E. cbn [wellFormed secondsOf].
    split; [|Z.div_mod_to_equations; lia].
    repeat split; try assumption; Z.div_mod_to_equations; lia.
  - apply Z.ltb_ge in E. cbn [wellFormed secondsOf].
    split; Z.div_mod_to_equations; lia.
Qed.

Lemma formatTime_witness :
  secondsOf (formatTime 3725.5) = Qfloor 3725.5.
Proof.
  destruct (formatTime_whole_seconds 3725.5) as [_ H]; [|exact H].
  vm_compute. discriminate.
Defined.

(** One hour, two minutes and five seconds; and a time below the hour. *)
Example formatTime_examples :
  formatTime 3725.5 = HoursMinutesSeconds 1 2 5
  /\ formatTime 125 = MinutesSeconds 2 5.
Proof. split; reflexivity. Qed.

End TimeFormatFacts.

(** ** Dragging the driver info panel *)

Section DragFacts.
Import Drag.



End DragFacts.
